(** * Lens graph (src/src/lens/graph.py): a shallow embedding in Rocq.

    The networkx [DiGraph] is modelled by its node list and its edge list,
    both in insertion order: networkx keeps the successor dict of a node and
    the predecessor dict of a node in insertion order, and both coincide with
    the edge list filtered on the source (resp. target).  Exceptions raised by
    networkx or Python are the constructors of [exn]; fallible code returns a
    [result].  Floating-point scores and weights are modelled exactly as
    rationals [Q]. *)

From Stdlib Require Import String Ascii List Bool ZArith QArith Lia.
From Stdlib Require Import Permutation Sorted.
Import ListNotations.

Open Scope string_scope.
Open Scope list_scope.

(* ------------------------------------------------------------------ *)
(** ** Python exceptions and the error monad *)

Inductive exn :=
| NetworkXError       (* G.neighbors / G.predecessors on a missing node *)
| NodeNotFound        (* nx.all_simple_paths / nx.shortest_path on a missing node *)
| NetworkXNoPath
| ZeroDivisionError
| ValueError.

Inductive result (A : Type) : Type :=
| Ok (a : A)
| Err (e : exn).
Arguments Ok {A} a.
Arguments Err {A} e.

Definition bind {A B} (m : result A) (k : A -> result B) : result B :=
  match m with Ok a => k a | Err e => Err e end.

Notation "x <- m ;; k" := (bind m (fun x => k))
  (at level 61, m at next level, right associativity).

(* ------------------------------------------------------------------ *)
(** ** Small Python helpers *)

Definition mem (x : string) (l : list string) : bool :=
  existsb (String.eqb x) l.

(** [str.lower()] on ASCII letters. *)
Definition ascii_lower (c : ascii) : ascii :=
  let n := nat_of_ascii c in
  if ((65 <=? n) && (n <=? 90))%nat then ascii_of_nat (n + 32)%nat else c.

Fixpoint lower (s : string) : string :=
  match s with
  | EmptyString => EmptyString
  | String c r => String (ascii_lower c) (lower r)
  end.


Definition Qltb (x y : Q) : bool := negb (Qle_bool y x).

(** [l[:k]] for an integer [k] (negative [k] counts from the end). *)
Definition py_take {A} (l : list A) (k : Z) : list A :=
  if (0 <=? k)%Z then firstn (Z.to_nat k) l
  else firstn (length l - Z.to_nat (- k))%nat l.

(** [sorted(l, key=key, reverse=True)]: a stable sort in descending order
    of the key (elements with equal keys keep their order). *)
Section SortDesc.
Context {A : Type} (key : A -> Q).

Fixpoint insert_desc (x : A) (l : list A) : list A :=
  match l with
  | [] => [x]
  | y :: l' => if Qltb (key x) (key y) then y :: insert_desc x l' else x :: y :: l'
  end.

Definition sort_desc (l : list A) : list A := fold_right insert_desc [] l.
End SortDesc.

(** [sorted(l)] on integers, ascending (used for episode numbers). *)
Fixpoint insert_Z (x : Z) (l : list Z) : list Z :=
  match l with
  | [] => [x]
  | y :: l' => if (y <? x)%Z then y :: insert_Z x l' else x :: y :: l'
  end.

Definition sort_Z (l : list Z) : list Z := fold_right insert_Z [] l.

(* ------------------------------------------------------------------ *)
(** ** The data model *)

(** A JSON value as found in the ['episode'] field of a lens record, as
    [json.load] returns it: an int, a finite float (by its exact value), one
    of the non-finite floats [NaN], [Infinity], [-Infinity] that [json.load]
    accepts, a bool, a string, or anything else ([null], a list, an
    object). *)
Inductive json_scalar :=
| JInt (z : Z)
| JFloat (q : Q)
| JNonFinite
| JBool (b : bool)
| JStr (s : string)
| JOther.

Definition digit_val (c : ascii) : option Z :=
  let n := nat_of_ascii c in
  if ((48 <=? n) && (n <=? 57))%nat then Some (Z.of_nat (n - 48)%nat) else None.

(** The white space [int()] skips around a numeral: [Py_ISSPACE] (tab, line
    feed, vertical tab, form feed, carriage return, space) and the
    non-ASCII white space that [int()] first turns into a space; a character
    of the string model is a code point below 256, of which these are
    U+0085 and U+00A0. *)
Definition py_space (c : ascii) : bool :=
  let n := nat_of_ascii c in
  ((9 <=? n) && (n <=? 13))%nat || Nat.eqb n 32 || Nat.eqb n 133 || Nat.eqb n 160.

Fixpoint skip_space (s : string) : string :=
  match s with
  | String c r => if py_space c then skip_space r else s
  | EmptyString => EmptyString
  end.

Fixpoint all_space (s : string) : bool :=
  match s with
  | String c r => py_space c && all_space r
  | EmptyString => true
  end.

(** The loop of [long_from_string_base] in base 10: it reads digits and
    single underscores between digits ([prev_us]: the last character read
    was an underscore), and returns the value, the number of digits read
    and the rest of the string; a doubled or trailing underscore is an
    error. *)
Fixpoint digits_us (s : string) (prev_us : bool) (acc : Z) (nd : nat)
    : option (Z * nat * string) :=
  match s with
  | String c r =>
      match digit_val c with
      | Some d => digits_us r false (acc * 10 + d)%Z (S nd)
      | None =>
          if Ascii.eqb c "_" then (if prev_us then None else digits_us r true acc nd)
          else if prev_us then None else Some (acc, nd, s)
      end
  | EmptyString => if prev_us then None else Some (acc, nd, EmptyString)
  end.

(** [int(s)] for a string [s] ([PyLong_FromString] in base 10): leading
    white space, an optional sign, no leading underscore, at least one
    digit, trailing white space only, and at most 4300 digits (the default
    of [sys.get_int_max_str_digits()]). *)
Definition py_int_str (s : string) : option Z :=
  let s1 := skip_space s in
  let '(sign, s2) := match s1 with
                     | String "+" r => (1%Z, r)
                     | String "-" r => ((-1)%Z, r)
                     | _ => (1%Z, s1)
                     end in
  match s2 with
  | String "_" _ => None
  | _ =>
      match digits_us s2 false 0 0 with
      | Some (v, nd, rest) =>
          if Nat.eqb nd 0 || negb (all_space rest) || Nat.ltb 4300 nd then None
          else Some (sign * v)%Z
      | None => None
      end
  end.

(** [int(x)]: [None] when Python raises.  A float is truncated towards
    zero ([OverflowError] or [ValueError] for the non-finite ones), a bool
    is 0 or 1, and [int(None)], [int([...])] and [int({...})] raise
    [TypeError]. *)
Definition py_int (x : json_scalar) : option Z :=
  match x with
  | JInt z => Some z
  | JFloat q => Some (Z.quot (Qnum q) (Zpos (Qden q)))
  | JNonFinite => None
  | JBool b => Some (if b then 1%Z else 0%Z)
  | JStr s => py_int_str s
  | JOther => None
  end.

(** Attributes of a node added by [_load_lenses]. *)
Record lens_attrs := {
  na_name : string;
  na_episode : json_scalar;
  na_type : string;
  na_definition : string;
  na_related : list string
}.

(** Edge attributes; [None] is a key absent from the attribute dict. *)
Record edge_attrs := {
  e_weight : option Q;
  e_type : option string;
  e_insight : option string;
  e_frame : option string;
  e_episodes : option (Z * Z);
  e_shared_concept : option string
}.

(** [datadict.update(attr)] *)
Definition attrs_update (old new : edge_attrs) : edge_attrs := {|
  e_weight := match e_weight new with Some w => Some w | None => e_weight old end;
  e_type := match e_type new with Some t => Some t | None => e_type old end;
  e_insight := match e_insight new with Some t => Some t | None => e_insight old end;
  e_frame := match e_frame new with Some t => Some t | None => e_frame old end;
  e_episodes := match e_episodes new with Some t => Some t | None => e_episodes old end;
  e_shared_concept :=
    match e_shared_concept new with Some t => Some t | None => e_shared_concept old end
|}.

(** A node's attribute dict is [None] when the node was created implicitly
    by [add_edge] (an empty dict). *)
Record graph := {
  g_nodes : list (string * option lens_attrs);
  g_edges : list (string * string * edge_attrs)
}.

Definition empty_graph : graph := {| g_nodes := []; g_edges := [] |}.

Definition has_node (g : graph) (n : string) : bool :=
  existsb (fun p => String.eqb (fst p) n) (g_nodes g).

Definition node_data (g : graph) (n : string) : option lens_attrs :=
  match find (fun p => String.eqb (fst p) n) (g_nodes g) with
  | Some (_, a) => a
  | None => None
  end.

(** [G.get_edge_data(u, v)] *)
Definition get_edge_data (g : graph) (u v : string) : option edge_attrs :=
  match find (fun e => match e with (a, b, _) => String.eqb a u && String.eqb b v end)
              (g_edges g) with
  | Some (_, _, d) => Some d
  | None => None
  end.

(** [G.has_edge(u, v)] *)
Definition has_edge (g : graph) (u v : string) : bool :=
  match get_edge_data g u v with Some _ => true | None => false end.

(** [G._succ[u].items()] and [G._pred[v].items()] in insertion order. *)
Definition succ (g : graph) (u : string) : list (string * edge_attrs) :=
  map (fun e => match e with (_, b, d) => (b, d) end)
      (filter (fun e => match e with (a, _, _) => String.eqb a u end) (g_edges g)).

Definition pred (g : graph) (v : string) : list (string * edge_attrs) :=
  map (fun e => match e with (a, _, d) => (a, d) end)
      (filter (fun e => match e with (_, b, _) => String.eqb b v end) (g_edges g)).

(** [G.neighbors(n)] (successors of a DiGraph) and [G.predecessors(n)]. *)
Definition neighbors (g : graph) (n : string) : result (list string) :=
  if has_node g n then Ok (map fst (succ g n)) else Err NetworkXError.

Definition predecessors (g : graph) (n : string) : result (list string) :=
  if has_node g n then Ok (map fst (pred g n)) else Err NetworkXError.

(** [G.add_node(n, **attr)]: appended when new, attributes replaced otherwise
    (all keys are always given). *)
Definition add_node (g : graph) (n : string) (a : lens_attrs) : graph :=
  if has_node g n then
    {| g_nodes := map (fun p => if String.eqb (fst p) n then (n, Some a) else p) (g_nodes g);
       g_edges := g_edges g |}
  else {| g_nodes := g_nodes g ++ [(n, Some a)]; g_edges := g_edges g |}.

Definition ensure_node (g : graph) (n : string) : graph :=
  if has_node g n then g
  else {| g_nodes := g_nodes g ++ [(n, None)]; g_edges := g_edges g |}.

(** [G.add_edge(u, v, **attr)]: adds missing endpoints, then updates the
    attribute dict of an existing edge in place or appends a new edge. *)
Definition add_edge (g : graph) (u v : string) (a : edge_attrs) : graph :=
  let g1 := ensure_node (ensure_node g u) v in
  if has_edge g1 u v then
    {| g_nodes := g_nodes g1;
       g_edges := map (fun e => match e with (x, y, d) =>
                         if String.eqb x u && String.eqb y v
                         then (x, y, attrs_update d a) else e end) (g_edges g1) |}
  else {| g_nodes := g_nodes g1; g_edges := g_edges g1 ++ [(u, v, a)] |}.

Definition add_if_absent (g : graph) (u v : string) (a : edge_attrs) : graph :=
  if has_edge g u v then g else add_edge g u v a.

(** The pattern [for i, l1 in enumerate(L): for l2 in L[i+1:]:
    if not G.has_edge(l1, l2): G.add_edge(l1, l2, **a)]. *)
Fixpoint add_pairs (a : edge_attrs) (ids : list string) (g : graph) : graph :=
  match ids with
  | [] => g
  | l1 :: rest => add_pairs a rest (fold_left (fun g l2 => add_if_absent g l1 l2 a) rest g)
  end.

(* ------------------------------------------------------------------ *)
(** ** Graph construction: [LensGraph.__init__] *)

(** A record of [all_lenses_for_analysis.json]. *)
Record lens_rec := {
  l_id : string;
  l_name : string;
  l_episode : json_scalar;
  l_type : string;
  l_definition : option string;
  l_related : option (list string)
}.

(** A record of the ['connections'] of [claude_lens_connections_analysis.json]. *)
Record connection := {
  c_source : string;
  c_target : string;
  c_weight : Q;
  c_type : string;
  c_insight : option string
}.

(** A record of the ['frames'] of [lens_frames_thematic.json]. *)
Record frame := {
  f_id : string;
  f_lens_ids : option (list string)
}.

Definition no_attrs : edge_attrs := {|
  e_weight := None; e_type := None; e_insight := None; e_frame := None;
  e_episodes := None; e_shared_concept := None |}.

(** A document is [None] when opening or parsing it raised (the error is
    logged and the step adds nothing). *)
Definition _load_lenses (doc : option (list lens_rec)) (g : graph) : graph :=
  match doc with
  | None => g
  | Some lenses =>
      fold_left (fun g l =>
        add_node g (l_id l) {| na_name := l_name l; na_episode := l_episode l;
                              na_type := l_type l;
                              na_definition := match l_definition l with Some d => d | None => "" end;
                              na_related := match l_related l with Some r => r | None => [] end |})
        lenses g
  end.

Definition curated_attrs (c : connection) : edge_attrs := {|
  e_weight := Some (c_weight c); e_type := Some (c_type c);
  e_insight := Some (match c_insight c with Some i => i | None => "" end);
  e_frame := None; e_episodes := None; e_shared_concept := None |}.

Definition load_connections (doc : option (list connection)) (g : graph) : graph :=
  match doc with
  | None => g
  | Some conns => fold_left (fun g c => add_edge g (c_source c) (c_target c) (curated_attrs c)) conns g
  end.

Definition frame_attrs (fid : string) : edge_attrs := {|
  e_weight := Some (3 # 10); e_type := Some "frame"; e_insight := None;
  e_frame := Some fid; e_episodes := None; e_shared_concept := None |}.

Definition load_frames (doc : option (list frame)) (g : graph) : graph :=
  match doc with
  | None => g
  | Some frames =>
      fold_left (fun g fr =>
        add_pairs (frame_attrs (f_id fr))
                  (match f_lens_ids fr with Some ids => ids | None => [] end) g)
        frames g
  end.

Definition _load_relationships (conns : option (list connection))
    (frames : option (list frame)) (g : graph) : graph :=
  load_frames frames (load_connections conns g).

(** [nodes_by_episode]: episode -> nodes, an association list in key
    insertion order. *)
Fixpoint assoc_append {K} (eqk : K -> K -> bool) (k : K) (x : string)
    (d : list (K * list string)) : list (K * list string) :=
  match d with
  | [] => [(k, [x])]
  | (k', xs) :: d' => if eqk k' k then (k', xs ++ [x]) :: d' else (k', xs) :: assoc_append eqk k x d'
  end.

Fixpoint assoc_lookup {K V} (eqk : K -> K -> bool) (k : K) (d : list (K * V)) : option V :=
  match d with
  | [] => None
  | (k', v) :: d' => if eqk k' k then Some v else assoc_lookup eqk k d'
  end.

Definition nodes_by_episode (g : graph) : list (Z * list string) :=
  fold_left (fun d p =>
    match snd p with
    | Some a => match py_int (na_episode a) with
                | Some ep => assoc_append Z.eqb ep (fst p) d
                | None => d
                end
    | None => d
    end) (g_nodes g) [].

Definition temporal_attrs (ep : Z) : edge_attrs := {|
  e_weight := Some (1 # 10); e_type := Some "temporal"; e_insight := None;
  e_frame := None; e_episodes := Some (ep, (ep + 1)%Z); e_shared_concept := None |}.

Definition temporal_step (g : graph) : graph :=
  let d := nodes_by_episode g in
  fold_left (fun g ep =>
    match assoc_lookup Z.eqb ep d, assoc_lookup Z.eqb (ep + 1)%Z d with
    | Some l1s, Some l2s =>
        fold_left (fun g l1 =>
          fold_left (fun g l2 => add_if_absent g l1 l2 (temporal_attrs ep)) l2s g) l1s g
    | _, _ => g
    end) (sort_Z (map fst d)) g.

(** [concept_to_lenses]: lowered concept -> set of nodes; a set is kept as
    the list of its distinct elements in insertion order. *)
Definition set_add (x : string) (s : list string) : list string :=
  if mem x s then s else s ++ [x].

Fixpoint assoc_set_add (k x : string) (d : list (string * list string))
    : list (string * list string) :=
  match d with
  | [] => [(k, [x])]
  | (k', s) :: d' => if String.eqb k' k then (k', set_add x s) :: d'
                     else (k', s) :: assoc_set_add k x d'
  end.

Definition concept_to_lenses (g : graph) : list (string * list string) :=
  fold_left (fun d p =>
    let related := match snd p with Some a => na_related a | None => [] end in
    fold_left (fun d c => assoc_set_add (lower c) (fst p) d) related d) (g_nodes g) [].

Definition concept_attrs (c : string) : edge_attrs := {|
  e_weight := Some (4 # 10); e_type := Some "concept"; e_insight := None;
  e_frame := None; e_episodes := None; e_shared_concept := Some c |}.

Section SetOrder.
(** The iteration order of a Python [set] of strings depends on string
    hashes; [set_iter s] is the order in which the set whose distinct
    elements, in insertion order, are [s] is iterated. *)
Variable set_iter : list string -> list string.

Definition concept_step (g : graph) : graph :=
  fold_left (fun (g : graph) (cl : string * list string) =>
    let (c, lenses) := cl in
    if Nat.leb 2 (length lenses) && Nat.leb (length lenses) 5 then
      add_pairs (concept_attrs c) (set_iter lenses) g
    else g) (concept_to_lenses g) g.

Definition _build_graph (g : graph) : graph := concept_step (temporal_step g).

Definition LensGraph_init (lenses : option (list lens_rec))
    (conns : option (list connection)) (frames : option (list frame)) : graph :=
  _build_graph (_load_relationships conns frames (_load_lenses lenses empty_graph)).
End SetOrder.

(* ------------------------------------------------------------------ *)
(** ** [nx.all_simple_paths] and [LensGraph.find_path] *)

(** The depth-first search of networkx's [_all_simple_edge_paths] (3.3 and
    later) below the source: [visited] is the current path, [fuel] is
    [cutoff - len(visited)], the number of further nodes the path may still
    be extended by.  A child not on the path is yielded when it is a target,
    and then expanded when the path may grow and some target is neither on
    the path nor the child. *)
Fixpoint sp_dfs (g : graph) (targets : list string) (fuel : nat) (visited : list string)
    (cur : string) : list (list string) :=
  flat_map (fun child =>
    if mem child visited then []
    else (if mem child targets then [visited ++ [child]] else []) ++
         match fuel with
         | O => []
         | S f => if existsb (fun x => negb (mem x (visited ++ [child]))) targets
                  then sp_dfs g targets f (visited ++ [child]) child else []
         end) (map fst (succ g cur)).

(** [targets] in [all_simple_edge_paths]: [{target}] when [target in G],
    else [set(target)], which for a string is the set of its characters
    (one-character strings). *)
Definition targets_of (g : graph) (t : string) : list string :=
  if has_node g t then [t]
  else map (fun c => String c EmptyString) (list_ascii_of_string t).

(** [nx.all_simple_paths(G, s, t, cutoff)]: [NodeNotFound] for a missing
    source; nothing when [cutoff < 0] or there is no target; else the
    one-node path [[s]] when [s] is a target, then the search from [s], which
    the bootstrap edge [(None, s)] expands when [0 < cutoff] and some target
    differs from [s]. *)
Definition all_simple_paths (g : graph) (s t : string) (cutoff : Z)
    : result (list (list string)) :=
  if negb (has_node g s) then Err NodeNotFound
  else
    let targets := targets_of g t in
    match targets with
    | [] => Ok []
    | _ =>
        if (cutoff <? 0)%Z then Ok []
        else Ok ((if mem s targets then [[s]] else []) ++
                 (if (0 <? cutoff)%Z && existsb (fun x => negb (String.eqb x s)) targets
                  then sp_dfs g targets (Z.to_nat cutoff - 1) [s] s else []))
    end.

(** [edge_data.get('weight', dflt)] for an edge that exists. *)
Definition weight_or (dflt : Q) (d : edge_attrs) : Q :=
  match e_weight d with Some w => w | None => dflt end.

(** [path_weight] inside [find_path]. *)
Fixpoint path_weight_acc (g : graph) (acc : Q) (p : list string) : Q :=
  match p with
  | a :: ((b :: _) as rest) =>
      let acc' := match get_edge_data g a b with
                  | Some d => acc + weight_or 0 d
                  | None => acc
                  end in
      path_weight_acc g acc' rest
  | _ => acc
  end.

Definition path_weight (g : graph) (p : list string) : Q := path_weight_acc g 0 p.

(** [LensGraph.find_path]: every exception is caught and gives [[]]. *)
Definition find_path (g : graph) (source target : string) (max_length : Z)
    : list (list string) :=
  match all_simple_paths g source target max_length with
  | Ok paths => firstn 3 (sort_desc (path_weight g) paths)
  | Err _ => []
  end.

(* ------------------------------------------------------------------ *)
(** ** [LensGraph.find_bridges] *)

(** The [bridges] set, as its distinct elements in insertion order. *)
Fixpoint bridge_candidates (g : graph) (ids : list string) (acc : list string)
    : list string :=
  match ids with
  | [] => acc
  | lens1 :: rest =>
      bridge_candidates g rest
        (fold_left (fun acc lens2 =>
           match all_simple_paths g lens1 lens2 3 with
           | Ok paths =>
               fold_left (fun acc path =>
                 match path with [_; m; _] => set_add m acc | _ => acc end) paths acc
           | Err _ => acc
           end) rest acc)
  end.

(** [self.graph[u][v].get('weight', 0)], for an edge that exists. *)
Definition edge_weight0 (g : graph) (u v : string) : Q :=
  match get_edge_data g u v with Some d => weight_or 0 d | None => 0 end.

Definition bridge_score (g : graph) (ids : list string) (bridge : string) : Q :=
  fold_left (fun score lens =>
    let score := if negb (String.eqb lens bridge) && has_edge g lens bridge
                 then score + edge_weight0 g lens bridge else score in
    if negb (String.eqb lens bridge) && has_edge g bridge lens
    then score + edge_weight0 g bridge lens else score) ids 0.

Section BridgeOrder.
(** Iteration order of the Python set [bridges] (see [set_iter] above). *)
Variable set_iter : list string -> list string.

Definition find_bridges (g : graph) (lens_ids : list string) : list string :=
  let bridges := bridge_candidates g lens_ids [] in
  let bridge_scores := map (fun b => (b, bridge_score g lens_ids b)) (set_iter bridges) in
  map fst (firstn 5 (sort_desc snd bridge_scores)).
End BridgeOrder.

(* ------------------------------------------------------------------ *)
(** ** [LensGraph.find_contrasts] *)

Definition is_contrast (d : edge_attrs) : bool :=
  match e_type d with
  | Some t => String.eqb t "contrast" || String.eqb t "paradox"
  | None => false
  end.

Definition insight_of (d : edge_attrs) : string :=
  match e_insight d with Some i => i | None => "" end.

Definition find_contrasts (g : graph) (lens_id : string) : result (list (string * string)) :=
  outs <- neighbors g lens_id ;;
  let c1 := flat_map (fun nb =>
              match get_edge_data g lens_id nb with
              | Some d => if is_contrast d then [(nb, insight_of d)] else []
              | None => []
              end) outs in
  ins <- predecessors g lens_id ;;
  let c2 := flat_map (fun pr =>
              match get_edge_data g pr lens_id with
              | Some d => if is_contrast d then [(pr, insight_of d)] else []
              | None => []
              end) ins in
  Ok (c1 ++ c2).

(* ------------------------------------------------------------------ *)
(** ** [LensGraph.get_lens_neighborhood] *)

Definition type_or_unknown (d : option edge_attrs) : string :=
  match d with
  | Some d => match e_type d with Some t => t | None => "unknown" end
  | None => "unknown"
  end.

(** One pass of the [for neighbor in self.graph.neighbors(current)] loop:
    the state is (queue, visited, neighborhood). *)
Definition explore (g : graph) (current : string) (depth : Z)
    (st : list (string * Z) * list string * list (string * list string))
    (neighbor : string) : list (string * Z) * list string * list (string * list string) :=
  let '(queue, visited, nb) := st in
  if mem neighbor visited then st
  else (queue ++ [(neighbor, (depth + 1)%Z)], neighbor :: visited,
        assoc_append String.eqb (type_or_unknown (get_edge_data g current neighbor))
                     neighbor nb).

(** The [while queue] loop.  Every node is enqueued at most once and every
    node but the first is the target of an edge, so [1 + len(edges)]
    iterations empty the queue. *)
Fixpoint bfs (g : graph) (radius : Z) (fuel : nat) (queue : list (string * Z))
    (visited : list string) (nb : list (string * list string))
    : result (list (string * list string)) :=
  match fuel with
  | O => Ok nb
  | S f =>
      match queue with
      | [] => Ok nb
      | (current, depth) :: queue' =>
          if (radius <=? depth)%Z then bfs g radius f queue' visited nb
          else
            ns <- neighbors g current ;;
            let '(q, v, n) := fold_left (explore g current depth) ns (queue', visited, nb) in
            bfs g radius f q v n
      end
  end.

Definition get_lens_neighborhood (g : graph) (lens_id : string) (radius : Z)
    : result (list (string * list string)) :=
  bfs g radius (S (length (g_edges g))) [(lens_id, 0%Z)] [lens_id] [].

(* ------------------------------------------------------------------ *)
(** ** [nx.shortest_path(G, s, t, weight=f)]: [nx.bidirectional_dijkstra] *)

(** A Python dict as an association list: [d[k] = v]. *)
Fixpoint dict_set {V} (k : string) (v : V) (d : list (string * V)) : list (string * V) :=
  match d with
  | [] => [(k, v)]
  | (k', v') :: d' => if String.eqb k' k then (k, v) :: d' else (k', v') :: dict_set k v d'
  end.

Definition dict_get {V} (k : string) (d : list (string * V)) : option V :=
  assoc_lookup String.eqb k d.

(** A heap entry [(distance, counter, node)]; the counter is unique, so
    [heappop] returns the entry with the least (distance, counter). *)
Definition hentry := (Q * nat * string)%type.

Definition hlt (a b : hentry) : bool :=
  let '(da, ca, _) := a in let '(db, cb, _) := b in
  Qltb da db || (Qeq_bool da db && Nat.ltb ca cb).

Definition hmin (l : list hentry) : option hentry :=
  fold_left (fun m e => match m with
                        | None => Some e
                        | Some m' => if hlt e m' then Some e else Some m'
                        end) l None.

Definition heappop (l : list hentry) : option (hentry * list hentry) :=
  match hmin l with
  | None => None
  | Some e => let '(_, c, _) := e in
              Some (e, filter (fun x => let '(_, c', _) := x in negb (Nat.eqb c' c)) l)
  end.

(** The search state of one direction. *)
Record side := {
  s_dists : list (string * Q);
  s_seen : list (string * Q);
  s_paths : list (string * list string);
  s_fringe : list hentry
}.

(** Both directions ([false] is forward, [true] is backward), the counter
    and the best meeting path found so far. *)
Record bd_state := {
  bd_fwd : side;
  bd_bwd : side;
  bd_count : nat;
  bd_final : option (Q * list string)
}.

Definition get_side (st : bd_state) (dir : bool) : side :=
  if dir then bd_bwd st else bd_fwd st.

Definition set_side (st : bd_state) (dir : bool) (s : side) : bd_state :=
  if dir then {| bd_fwd := bd_fwd st; bd_bwd := s; bd_count := bd_count st; bd_final := bd_final st |}
  else {| bd_fwd := s; bd_bwd := bd_bwd st; bd_count := bd_count st; bd_final := bd_final st |}.

(** Relaxing [w] at distance [vw] through [v] in direction [dir]. *)
Definition relax (dir : bool) (v w : string) (vw : Q) (st : bd_state) : bd_state :=
  let s := get_side st dir in
  let pv := match dict_get v (s_paths s) with Some p => p | None => [] end in
  let s' := {| s_dists := s_dists s; s_seen := dict_set w vw (s_seen s);
               s_paths := dict_set w (pv ++ [w]) (s_paths s);
               s_fringe := (vw, bd_count st, w) :: s_fringe s |} in
  let st1 := set_side st dir s' in
  let st2 := {| bd_fwd := bd_fwd st1; bd_bwd := bd_bwd st1;
                bd_count := S (bd_count st1); bd_final := bd_final st1 |} in
  let f := bd_fwd st2 in let b := bd_bwd st2 in
  match dict_get w (s_seen f), dict_get w (s_seen b) with
  | Some d0, Some d1 =>
      let total := d0 + d1 in
      let better := match bd_final st2 with
                    | None => true
                    | Some (fd, _) => Qltb total fd
                    end in
      if better then
        let p0 := match dict_get w (s_paths f) with Some p => p | None => [] end in
        let p1 := match dict_get w (s_paths b) with Some p => p | None => [] end in
        {| bd_fwd := f; bd_bwd := b; bd_count := bd_count st2;
           bd_final := Some (total, p0 ++ tl (rev p1)) |}
      else st2
  | _, _ => st2
  end.

(** The body of [for w, d in neighs[dir][v].items()]. *)
Definition scan_edge (weight : edge_attrs -> result Q) (dir : bool) (v : string)
    (dist : Q) (st : bd_state) (wd : string * edge_attrs) : result bd_state :=
  let (w, d) := wd in
  cost <- weight d ;;
  let vw := dist + cost in
  let s := get_side st dir in
  match dict_get w (s_dists s) with
  | Some dw => if Qltb vw dw then Err ValueError else Ok st
  | None =>
      match dict_get w (s_seen s) with
      | Some sw => if Qltb vw sw then Ok (relax dir v w vw st) else Ok st
      | None => Ok (relax dir v w vw st)
      end
  end.

Fixpoint scan_edges (weight : edge_attrs -> result Q) (dir : bool) (v : string) (dist : Q)
    (st : bd_state) (l : list (string * edge_attrs)) : result bd_state :=
  match l with
  | [] => Ok st
  | wd :: l' => st' <- scan_edge weight dir v dist st wd ;; scan_edges weight dir v dist st' l'
  end.

(** The main loop; [dir] is the direction of the previous iteration.  Each
    iteration pops one heap entry and at most [2 + 2 * len(edges)] entries
    are ever pushed, so the fuel given below is never exhausted. *)
Fixpoint bd_loop (g : graph) (weight : edge_attrs -> result Q) (fuel : nat)
    (dir : bool) (st : bd_state) : result (Q * list string) :=
  match fuel with
  | O => Err NetworkXNoPath
  | S f =>
      match s_fringe (bd_fwd st), s_fringe (bd_bwd st) with
      | [], _ | _, [] => Err NetworkXNoPath
      | _, _ =>
          let dir := negb dir in
          let s := get_side st dir in
          match heappop (s_fringe s) with
          | None => Err NetworkXNoPath
          | Some ((dist, _, v), fr) =>
              let s := {| s_dists := s_dists s; s_seen := s_seen s;
                          s_paths := s_paths s; s_fringe := fr |} in
              let st := set_side st dir s in
              match dict_get v (s_dists s) with
              | Some _ => bd_loop g weight f dir st
              | None =>
                  let s := {| s_dists := dict_set v dist (s_dists s); s_seen := s_seen s;
                              s_paths := s_paths s; s_fringe := s_fringe s |} in
                  let st := set_side st dir s in
                  match dict_get v (s_dists (get_side st (negb dir))) with
                  | Some _ =>
                      match bd_final st with
                      | Some r => Ok r
                      | None => Err NetworkXNoPath  (* not reached: a meeting node was seen *)
                      end
                  | None =>
                      st <- scan_edges weight dir v dist st
                              (if dir then pred g v else succ g v) ;;
                      bd_loop g weight f dir st
                  end
              end
          end
      end
  end.

Definition bidirectional_dijkstra (g : graph) (source target : string)
    (weight : edge_attrs -> result Q) : result (Q * list string) :=
  if negb (has_node g source) then Err NodeNotFound
  else if negb (has_node g target) then Err NodeNotFound
  else if String.eqb source target then Ok (0, [source])
  else
    let init := {|
      bd_fwd := {| s_dists := []; s_seen := [(source, 0)]; s_paths := [(source, [source])];
                   s_fringe := [(0, 0%nat, source)] |};
      bd_bwd := {| s_dists := []; s_seen := [(target, 0)]; s_paths := [(target, [target])];
                   s_fringe := [(0, 1%nat, target)] |};
      bd_count := 2; bd_final := None |} in
    bd_loop g weight (3 + 2 * length (g_edges g)) true init.

Definition shortest_path (g : graph) (source target : string)
    (weight : edge_attrs -> result Q) : result (list string) :=
  r <- bidirectional_dijkstra g source target weight ;; Ok (snd r).

(* ------------------------------------------------------------------ *)
(** ** [LensGraph.suggest_lens_journey] *)

(** [lambda u, v, d: 1 / d.get('weight', 0.1)] *)
Definition journey_weight (d : edge_attrs) : result Q :=
  let w := weight_or (1 # 10) d in
  if Qeq_bool w 0 then Err ZeroDivisionError else Ok (/ w).








(* ------------------------------------------------------------------ *)
(** ** [LensGraph.get_central_lenses] *)

Definition node_ids (g : graph) : list string := map fst (g_nodes g).

(** [nx.degree_centrality]: in- plus out-degree (a self-loop counts twice)
    times [1 / (n - 1)]; every node scores [1] when [n <= 1]. *)
Definition degree (g : graph) (v : string) : nat :=
  length (filter (fun e => match e with (a, _, _) => String.eqb a v end) (g_edges g)) +
  length (filter (fun e => match e with (_, b, _) => String.eqb b v end) (g_edges g)).

Definition degree_centrality (g : graph) : list (string * Q) :=
  let n := length (g_nodes g) in
  if Nat.leb n 1 then map (fun v => (v, 1)) (node_ids g)
  else map (fun v => (v, Qred (inject_Z (Z.of_nat (degree g v)) * / inject_Z (Z.of_nat n - 1))))
           (node_ids g).

(** [nx.betweenness_centrality] (normalized, directed), by its definition:
    the sum over ordered pairs [s <> t] of nodes other than [v] of the
    fraction of shortest [s]-[t] paths through [v], times
    [1 / ((n - 1) (n - 2))] when [n > 2].  Shortest paths are simple, so they
    are the shortest of the simple paths. *)
Definition shortest_paths (g : graph) (s t : string) : list (list string) :=
  let n := length (g_nodes g) in
  let ps := sp_dfs g [t] n [s] s in
  let m := fold_left (fun m p => Nat.min m (length p)) ps (S (S n)) in
  filter (fun p => Nat.eqb (length p) m) ps.

Definition pair_dependency (g : graph) (v s t : string) : Q :=
  let ps := shortest_paths g s t in
  match ps with
  | [] => 0
  | _ => inject_Z (Z.of_nat (length (filter (fun p => mem v (removelast (tl p))) ps)))
         / inject_Z (Z.of_nat (length ps))
  end.

Definition betweenness_centrality (g : graph) : list (string * Q) :=
  let n := length (g_nodes g) in
  let vs := node_ids g in
  map (fun v =>
    let raw := fold_left (fun acc s =>
                 fold_left (fun acc t =>
                   if String.eqb s t || String.eqb s v || String.eqb t v then acc
                   else acc + pair_dependency g v s t) vs acc) vs 0 in
    (v, Qred (if Nat.leb n 2 then raw
              else raw * / inject_Z (Z.of_nat ((n - 1) * (n - 2)))))) vs.

Definition node_name (g : graph) (v : string) : string :=
  match node_data g v with Some a => na_name a | None => "Unknown" end.

Section Centrality.
(** [nx.eigenvector_centrality(G, max_iter=100)] and [nx.pagerank(G)]:
    [None] when the power iteration raises. *)
Variable eigenvector_centrality : graph -> option (list (string * Q)).
Variable pagerank : graph -> option (list (string * Q)).

Definition get_central_lenses (g : graph) (measure : string) : list (string * Q * string) :=
  let measure_lower := lower measure in
  let centrality :=
    if String.eqb measure_lower "betweenness" then betweenness_centrality g
    else if String.eqb measure_lower "eigenvector" then
      match eigenvector_centrality g with Some c => c | None => degree_centrality g end
    else if String.eqb measure_lower "pagerank" then
      match pagerank g with Some c => c | None => degree_centrality g end
    else degree_centrality g in
  let sorted_lenses := sort_desc snd centrality in
  map (fun p => (fst p, snd p, node_name g (fst p))) (firstn 10 sorted_lenses).
End Centrality.

(* ------------------------------------------------------------------ *)
(** ** [GraphEnhancedRetrieval.get_lens_recommendations] *)

Record recommendation := {
  r_id : string;
  r_name : string;
  r_episode : option json_scalar;  (* [None] is the default ['Unknown'] *)
  r_score : Q;
  r_reason : string
}.

(** [recommendations[k] += w] on a [defaultdict(float)]. *)
Fixpoint dict_add (k : string) (w : Q) (d : list (string * Q)) : list (string * Q) :=
  match d with
  | [] => [(k, 0 + w)]
  | (k', v) :: d' => if String.eqb k' k then (k', v + w) :: d' else (k', v) :: dict_add k w d'
  end.

Definition accumulate (g : graph) (current_lens_ids : list string)
    : result (list (string * Q)) :=
  fold_left (fun acc lens_id =>
    recs <- acc ;;
    ns <- neighbors g lens_id ;;
    Ok (fold_left (fun recs nb =>
          if mem nb current_lens_ids then recs
          else dict_add nb (match get_edge_data g lens_id nb with
                            | Some d => weight_or (1 # 2) d
                            | None => 1 # 2
                            end) recs) ns recs)) current_lens_ids (Ok []).

Definition get_lens_recommendations (g : graph) (current_lens_ids : list string) (limit : Z)
    : result (list recommendation) :=
  recs <- accumulate g current_lens_ids ;;
  let sorted_recs := sort_desc snd recs in
  Ok (map (fun p => {| r_id := fst p; r_name := node_name g (fst p);
                       r_episode := option_map na_episode (node_data g (fst p));
                       r_score := snd p;
                       r_reason := "Connected through graph relationships" |})
          (py_take sorted_recs limit)).

(* ------------------------------------------------------------------ *)
(** ** Concrete graphs used by the examples below *)

Definition lens_named (n : string) (def : string) (related : list string) : lens_attrs := {|
  na_name := n; na_episode := JInt 1; na_type := "lens";
  na_definition := def; na_related := related |}.

Definition w_edge (ty : string) (w : Q) : edge_attrs := {|
  e_weight := Some w; e_type := Some ty; e_insight := Some ""; e_frame := None;
  e_episodes := None; e_shared_concept := None |}.

(** A -> B -> C, both of weight 0.9. *)
Definition g_chain : graph :=
  add_edge (add_edge
    (add_node (add_node (add_node empty_graph "A" (lens_named "A" "" []))
                        "B" (lens_named "B" "" [])) "C" (lens_named "C" "" []))
    "A" "B" (w_edge "curated" (9 # 10))) "B" "C" (w_edge "curated" (9 # 10)).

(** A catalog record with no definition and no related concepts. *)
Definition lens_rec_of (n : string) : lens_rec := {|
  l_id := n; l_name := n; l_episode := JInt 1; l_type := "lens";
  l_definition := None; l_related := None |}.

Definition conn_BA : connection := {|
  c_source := "B"; c_target := "A"; c_weight := 8 # 10; c_type := "curated";
  c_insight := Some "" |}.

Definition frame_AB : frame := {| f_id := "f1"; f_lens_ids := Some ["A"; "B"] |}.


(** X -> A and X -> B. *)
Definition g_fan_out : graph :=
  add_edge (add_edge
    (add_node (add_node (add_node empty_graph "A" (lens_named "A" "" []))
                        "B" (lens_named "B" "" [])) "X" (lens_named "X" "" []))
    "X" "A" (w_edge "curated" (1 # 2))) "X" "B" (w_edge "curated" (1 # 2)).




(** B -> A only. *)
Definition g_in : graph :=
  add_edge (add_node (add_node empty_graph "A" (lens_named "A" "" []))
                     "B" (lens_named "B" "" []))
           "B" "A" (w_edge "curated" (1 # 2)).


(** Four routes S -> mi -> T of weights 0.8, 0.6, 0.4 and 0.2 per edge. *)
Definition g_four : graph :=
  fold_left (fun g mw => add_edge (add_edge g "S" (fst mw) (w_edge "curated" (snd mw)))
                                  (fst mw) "T" (w_edge "curated" (snd mw)))
    [("m1", 8 # 10); ("m2", 6 # 10); ("m3", 4 # 10); ("m4", 2 # 10)]
    (add_node (add_node empty_graph "S" (lens_named "S" "" [])) "T" (lens_named "T" "" [])).

(** [p] follows the edges of [g]: each node of [p] has an edge to the next. *)
Fixpoint is_walk (g : graph) (p : list string) : Prop :=
  match p with
  | a :: ((b :: _) as rest) => has_edge g a b = true /\ is_walk g rest
  | _ => True
  end.

(** [l1 -> b -> c] is a simple path of two edges from the node [l1] to a
    target [c] of [l2] (see [targets_of]): the paths with [len(path) == 3]
    that [nx.all_simple_paths(G, l1, l2, cutoff=3)] yields in
    [find_bridges]. *)
Definition two_hop (g : graph) (l1 l2 b : string) : Prop :=
  has_node g l1 = true /\
  exists c, In c (targets_of g l2) /\
    has_edge g l1 b = true /\ has_edge g b c = true /\ b <> l1 /\ c <> l1 /\ c <> b.

(** Two connections for A -> B (the second one without an insight). *)
Definition conn_AB1 : connection := {|
  c_source := "A"; c_target := "B"; c_weight := 9 # 10; c_type := "curated";
  c_insight := Some "first" |}.

Definition conn_AB2 : connection := {|
  c_source := "A"; c_target := "B"; c_weight := 1 # 2; c_type := "contrast";
  c_insight := None |}.

(** Lens A of episode 1 and lens B whose episode is the string ['2']. *)
Definition g_eps : graph :=
  add_node (add_node empty_graph "A" (lens_named "A" "" []))
    "B" {| na_name := "B"; na_episode := JStr "2"; na_type := "lens";
           na_definition := ""; na_related := [] |}.



(** The paths kept by one direction of [bidirectional_dijkstra]: each runs
    from [root] to its key, along edges (backward: against them, so its
    reverse follows the edges); every seen node and every node in the fringe
    has a path. *)
Definition side_ok (g : graph) (root : string) (dir : bool) (s : side) : Prop :=
  (forall k p, dict_get k (s_paths s) = Some p ->
     hd_error p = Some root /\ last p "" = k /\ is_walk g (if dir then rev p else p)) /\
  (forall k c, dict_get k (s_seen s) = Some c -> exists p, dict_get k (s_paths s) = Some p) /\
  (forall e, In e (s_fringe s) -> exists p, dict_get (snd e) (s_paths s) = Some p).

Definition bd_ok (g : graph) (source target : string) (st : bd_state) : Prop :=
  side_ok g source false (bd_fwd st) /\ side_ok g target true (bd_bwd st) /\
  (forall c p, bd_final st = Some (c, p) ->
     hd_error p = Some source /\ last p "" = target /\ is_walk g p).

(* ------------------------------------------------------------------ *)
(** ** [GraphEnhancedRetrieval.find_lens_synthesis_path] *)

(** The dict [{'from': ..., 'to': ..., 'path': ..., 'length': ...}]. *)
Record path_info := {
  pi_from : string;
  pi_to : string;
  pi_path : list string;
  pi_length : nat
}.

(** The dict [{'type': ..., 'paths': ..., 'insight': ...}]. *)
Record synthesis := {
  sy_type : string;
  sy_paths : list path_info;
  sy_insight : string
}.

(** Python's [str(n)] on an int, through its decimal digits. *)
Fixpoint uint_to_string (d : Decimal.uint) : string :=
  match d with
  | Decimal.Nil => ""
  | Decimal.D0 d => String "0" (uint_to_string d)
  | Decimal.D1 d => String "1" (uint_to_string d)
  | Decimal.D2 d => String "2" (uint_to_string d)
  | Decimal.D3 d => String "3" (uint_to_string d)
  | Decimal.D4 d => String "4" (uint_to_string d)
  | Decimal.D5 d => String "5" (uint_to_string d)
  | Decimal.D6 d => String "6" (uint_to_string d)
  | Decimal.D7 d => String "7" (uint_to_string d)
  | Decimal.D8 d => String "8" (uint_to_string d)
  | Decimal.D9 d => String "9" (uint_to_string d)
  end.

Definition Z_to_string (z : Z) : string :=
  if (z <? 0)%Z then "-" ++ uint_to_string (Nat.to_uint (Z.to_nat (- z)))
  else uint_to_string (Nat.to_uint (Z.to_nat z)).

(** [_generate_path_insight]; [nodes[path[1]].get('name', 'Unknown')] is
    [node_name] (the node is on a path of the graph, so it is present). *)
Definition _generate_path_insight (g : graph) (info : path_info) : string :=
  let path := pi_path info in
  if Nat.eqb (length path) 2 then "These lenses are directly connected"
  else if Nat.eqb (length path) 3 then
    "These lenses connect through " ++ node_name g (nth 1 path "")
  else "These lenses connect through a " ++ Z_to_string (Z.of_nat (length path) - 1)
       ++ " step journey".

(** The inner loop [for lens2 in lens_ids[i+1:]], with [find_path]'s
    default [max_length=4]. *)
Fixpoint pair_paths (g : graph) (lens1 : string) (rest : list string) : list path_info :=
  match rest with
  | [] => []
  | lens2 :: rest' =>
      match find_path g lens1 lens2 4 with
      | [] => pair_paths g lens1 rest'
      | best :: _ =>
          {| pi_from := lens1; pi_to := lens2; pi_path := best; pi_length := length best |}
          :: pair_paths g lens1 rest'
      end
  end.

(** The outer loop [for i, lens1 in enumerate(lens_ids)]. *)
Fixpoint collect_pair_paths (g : graph) (lens_ids : list string) : list path_info :=
  match lens_ids with
  | [] => []
  | lens1 :: rest => pair_paths g lens1 rest ++ collect_pair_paths g rest
  end.

(** [paths.sort(key=lambda x: x['length'])]: stable, ascending. *)
Fixpoint insert_pi (x : path_info) (l : list path_info) : list path_info :=
  match l with
  | [] => [x]
  | y :: l' => if Nat.ltb (pi_length y) (pi_length x) then y :: insert_pi x l' else x :: y :: l'
  end.

Definition sort_pi (l : list path_info) : list path_info := fold_right insert_pi [] l.

Definition find_lens_synthesis_path (g : graph) (lens_ids : list string) : option synthesis :=
  if Nat.ltb (length lens_ids) 2 then None
  else
    match collect_pair_paths g lens_ids with
    | [] => None
    | paths =>
        match sort_pi paths with
        | [] => None
        | (first :: _) as sorted =>
            Some {| sy_type := "path_synthesis"; sy_paths := firstn 3 sorted;
                    sy_insight := _generate_path_insight g first |}
        end
    end.

(* ------------------------------------------------------------------ *)
(** ** [GraphEnhancedRetrieval.enhance_retrieval] *)

(** The dict appended for a lens found through the graph. *)
Record graph_lens := {
  gl_id : string;
  gl_lens_name : string;
  gl_episode : json_scalar;
  gl_definition : string;
  gl_type : string;
  gl_source : string;
  gl_related_concepts : list string
}.

(** [{x for x in l}] / [set(l)], as its distinct elements in insertion order. *)
Definition py_set (l : list string) : list string := fold_left (fun s x => set_add x s) l [].

(** [a | b] and [a.update(b)]. *)
Definition set_union (a b : list string) : list string := fold_left (fun s x => set_add x s) b a.

(** The dict built from [self.graph.graph.nodes[lens_id]], with the
    [.get] defaults for a node without attributes. *)
Definition graph_lens_of (g : graph) (lens_id : string) : graph_lens :=
  match node_data g lens_id with
  | Some a =>
      {| gl_id := lens_id; gl_lens_name := na_name a; gl_episode := na_episode a;
         gl_definition := na_definition a; gl_type := "lens"; gl_source := "graph";
         gl_related_concepts := na_related a |}
  | None =>
      {| gl_id := lens_id; gl_lens_name := "Unknown"; gl_episode := JStr "Unknown";
         gl_definition := ""; gl_type := "lens"; gl_source := "graph";
         gl_related_concepts := [] |}
  end.

(** One pass of [for lens_id in list(lens_ids)[:3]]. *)
Definition contrast_step (g : graph) (contrast_ids : list string) (lens_id : string)
    : result (list string) :=
  contrasts <- find_contrasts g lens_id ;;
  Ok (set_union contrast_ids (map fst contrasts)).

(** One pass of [for lens_id in list(lens_ids)[:2]]. *)
Definition neighborhood_step (g : graph) (neighborhood_ids : list string) (lens_id : string)
    : result (list string) :=
  neighborhood <- get_lens_neighborhood g lens_id 1 ;;
  Ok (fold_left set_union (map snd neighborhood) neighborhood_ids).

Section EnhanceRetrieval.
(** Iteration order of a Python set (see [set_iter] above); the lens
    records of [initial_lenses] are kept abstract, with their ['id']. *)
Variable set_iter : list string -> list string.
Context {lens : Type} (lens_id : lens -> string).

(** The async method, run to completion; the log line is left out.  The
    result lists the initial records ([inl]) and then the appended ones
    ([inr]). *)
Definition enhance_retrieval (g : graph) (initial_lenses : list lens)
    : result (list (lens + graph_lens)) :=
  let lens_ids := py_set (map lens_id initial_lenses) in
  let bridge_ids := find_bridges set_iter g (set_iter lens_ids) in
  contrast_ids <- fold_left (fun acc l => ids <- acc ;; contrast_step g ids l)
                    (firstn 3 (set_iter lens_ids)) (Ok []) ;;
  neighborhood_ids <- fold_left (fun acc l => ids <- acc ;; neighborhood_step g ids l)
                        (firstn 2 (set_iter lens_ids)) (Ok []) ;;
  let additional_ids :=
    filter (fun x => negb (mem x lens_ids))
      (set_union (set_union (py_set bridge_ids) contrast_ids) neighborhood_ids) in
  Ok (map inl initial_lenses ++
      map (fun x => inr (graph_lens_of g x))
        (filter (fun x => has_node g x) (set_iter additional_ids))).
End EnhanceRetrieval.

(* ------------------------------------------------------------------ *)
(** ** [LensGraph.get_lens_clusters] *)

(** [G.to_undirected().adj[v]]: the nodes joined to [v] by an edge in
    either direction (a list with repeats; only its elements matter). *)
Definition und_adj (g : graph) (v : string) : list string :=
  map fst (succ g v) ++ map fst (pred g v).

(** [if w not in seen: seen.add(w); nextlevel.append(w)]; the set [seen]
    is kept as its elements in insertion order. *)
Definition bfs_visit (st : list string * list string) (w : string) : list string * list string :=
  let '(seen, nextlevel) := st in
  if mem w seen then st else (seen ++ [w], nextlevel ++ [w]).

(** [for v in thislevel: ...; if len(seen) == n: return seen]; the flag
    tells whether the early return was taken. *)
Fixpoint bfs_level (g : graph) (n : nat) (thislevel seen nextlevel : list string)
    : bool * list string * list string :=
  match thislevel with
  | [] => (false, seen, nextlevel)
  | v :: rest =>
      let '(seen', nextlevel') := fold_left bfs_visit (und_adj g v) (seen, nextlevel) in
      if Nat.eqb (length seen') n then (true, seen', nextlevel')
      else bfs_level g n rest seen' nextlevel'
  end.

(** The [while nextlevel] loop.  Every node but the source entering [seen]
    is an end of an edge and every pass adds one, so [1 + 2 * len(edges)]
    passes empty [nextlevel]. *)
Fixpoint plain_bfs_loop (g : graph) (n fuel : nat) (nextlevel seen : list string) : list string :=
  match fuel with
  | O => seen
  | S f =>
      match nextlevel with
      | [] => seen
      | _ :: _ =>
          let '(found_all, seen', nextlevel') := bfs_level g n nextlevel seen [] in
          if found_all then seen' else plain_bfs_loop g n f nextlevel' seen'
      end
  end.

(** [networkx.algorithms.components.connected._plain_bfs(G, source)] on
    [G.to_undirected()], with [n = len(G)]. *)
Definition plain_bfs (g : graph) (source : string) : list string :=
  plain_bfs_loop g (length (node_ids g)) (S (2 * length (g_edges g))) [source] [source].

(** [nx.connected_components]: [for v in G: if v not in seen: c =
    _plain_bfs(G, v); seen.update(c); yield c]. *)
Fixpoint components_from (g : graph) (vs seen : list string) : list (list string) :=
  match vs with
  | [] => []
  | v :: vs' =>
      if mem v seen then components_from g vs' seen
      else let c := plain_bfs g v in c :: components_from g vs' (set_union seen c)
  end.

Definition connected_components (g : graph) : list (list string) :=
  components_from g (node_ids g) [].

Section Clusters.
(** Iteration order of a Python set (see [set_iter] above). *)
Variable set_iter : list string -> list string.

(** [for i, component in enumerate(...): if len(component) > 1:
    clusters[i] = list(component)]. *)
Fixpoint number_components (i : Z) (cs : list (list string)) : list (Z * list string) :=
  match cs with
  | [] => []
  | c :: cs' =>
      if Nat.ltb 1 (length c) then (i, set_iter c) :: number_components (i + 1) cs'
      else number_components (i + 1) cs'
  end.

(** [best_partition] is [community_louvain.best_partition] applied to the
    undirected graph, [None] when [import community] raises [ImportError]. *)
Definition get_lens_clusters (best_partition : option (graph -> list (string * Z))) (g : graph)
    : list (Z * list string) :=
  match best_partition with
  | Some partition =>
      fold_left (fun clusters p => assoc_append Z.eqb (snd p) (fst p) clusters) (partition g) []
  | None => number_components 0 (connected_components g)
  end.
End Clusters.

(** A graph as networkx keeps it: each node once, and the ends of every
    edge are nodes. *)
Definition graph_wf (g : graph) : Prop :=
  NoDup (node_ids g) /\
  forall u v d, In (u, v, d) (g_edges g) -> has_node g u = true /\ has_node g v = true.

(** [y] is reached from [src] along edges followed in either direction. *)
Inductive und_reach (g : graph) (src : string) : string -> Prop :=
| ur_refl : und_reach g src src
| ur_step u w d : und_reach g src u ->
    In (u, w, d) (g_edges g) \/ In (w, u, d) (g_edges g) -> und_reach g src w.

(** A set of nodes that contains every undirected neighbour of its members. *)
Definition adj_closed (g : graph) (c : list string) : Prop :=
  forall x w, In x c -> In w (und_adj g x) -> In w c.

(** The ends of all edges (the nodes a search can reach besides its source). *)
Definition edge_ends (g : graph) : list string :=
  flat_map (fun e => match e with (u, v, _) => [u; v] end) (g_edges g).

(** The synthesis found on A -> B -> C for the lenses [A; C; B]. *)
Definition syn_ACB : synthesis :=
  {| sy_type := "path_synthesis";
     sy_paths := [{| pi_from := "A"; pi_to := "B"; pi_path := ["A"; "B"]; pi_length := 2 |};
                  {| pi_from := "A"; pi_to := "C"; pi_path := ["A"; "B"; "C"]; pi_length := 3 |}];
     sy_insight := "These lenses are directly connected" |}.

(* ================================================================== *)
(** * Proofs *)

(** ** The stable descending sort *)

Section SortFacts.
Context {A : Type} (key : A -> Q).

Definition desc (a b : A) : Prop := key b <= key a.

Lemma Qltb_true x y : Qltb x y = true -> x < y.
Proof.
  unfold Qltb. intro H. apply negb_true_iff in H.
  apply Qnot_le_lt. intro Hle. apply Qle_bool_iff in Hle. congruence.
Qed.

Lemma Qltb_false x y : Qltb x y = false -> y <= x.
Proof.
  unfold Qltb. intro H. apply negb_false_iff in H. now apply Qle_bool_iff.
Qed.

Lemma insert_desc_perm x l : Permutation (insert_desc key x l) (x :: l).
Proof.
  induction l as [|y l IH]; simpl; [auto|].
  destruct (Qltb (key x) (key y)); [|auto].
  rewrite IH. apply perm_swap.
Qed.

Lemma sort_desc_perm l : Permutation (sort_desc key l) l.
Proof.
  induction l as [|x l IH]; simpl; [auto|].
  rewrite insert_desc_perm. now constructor.
Qed.

Lemma insert_desc_sorted x l : Sorted desc l -> Sorted desc (insert_desc key x l).
Proof.
  induction 1 as [|y l Hs IH Hhd]; simpl.
  - repeat constructor.
  - destruct (Qltb (key x) (key y)) eqn:E.
    + apply Qltb_true in E. constructor; [exact IH|].
      destruct l as [|z l]; simpl.
      * constructor. unfold desc. now apply Qlt_le_weak.
      * inversion Hhd; subst. destruct (Qltb (key x) (key z)); constructor; auto.
        unfold desc. now apply Qlt_le_weak.
    + apply Qltb_false in E. constructor; [constructor; auto|]. constructor. exact E.
Qed.

Lemma sort_desc_sorted l : Sorted desc (sort_desc key l).
Proof.
  induction l as [|x l IH]; simpl; [constructor|]. now apply insert_desc_sorted.
Qed.

Lemma sort_desc_strongly_sorted l : StronglySorted desc (sort_desc key l).
Proof.
  apply Sorted_StronglySorted; [|apply sort_desc_sorted].
  intros a b c H1 H2. unfold desc in *. eapply Qle_trans; eauto.
Qed.

Lemma strongly_sorted_app l1 l2 y x :
  StronglySorted desc (l1 ++ l2) -> In y l1 -> In x l2 -> desc y x.
Proof.
  induction l1 as [|a l1 IH]; simpl; [tauto|].
  intros H Hy Hx. inversion H as [|? ? Hs Hall]; subst.
  destruct Hy as [<-|Hy].
  - rewrite Forall_forall in Hall. apply Hall, in_or_app. now right.
  - now apply IH.
Qed.

Lemma firstn_sorted k l : Sorted desc l -> Sorted desc (firstn k l).
Proof.
  intro H. apply Sorted_StronglySorted in H.
  - apply StronglySorted_Sorted.
    rewrite <- (firstn_skipn k l) in H. clear -H. induction (firstn k l) as [|a m IH].
    + constructor.
    + simpl in H. inversion H as [|? ? Hs Hall]; subst. constructor.
      * now apply IH.
      * rewrite Forall_forall in *. intros z Hz. apply Hall, in_or_app. now left.
  - intros a b c H1 H2. unfold desc in *. eapply Qle_trans; eauto.
Qed.

(** The top [k] of a descending sort: what is left out scores no more than
    what is kept. *)
Lemma top_k_sort_desc k l x y :
  In x l -> ~ In x (firstn k (sort_desc key l)) ->
  In y (firstn k (sort_desc key l)) -> key x <= key y.
Proof.
  intros Hx Hnx Hy.
  assert (Hs := sort_desc_strongly_sorted l).
  rewrite <- (firstn_skipn k (sort_desc key l)) in Hs.
  assert (Hx' : In x (skipn k (sort_desc key l))).
  { assert (Hin : In x (sort_desc key l)).
    { eapply Permutation_in; [symmetry; apply sort_desc_perm|exact Hx]. }
    rewrite <- (firstn_skipn k (sort_desc key l)) in Hin.
    apply in_app_or in Hin. tauto. }
  exact (strongly_sorted_app _ _ _ _ Hs Hy Hx').
Qed.

Lemma top_k_in k l y : In y (firstn k (sort_desc key l)) -> In y l.
Proof.
  intro H. apply (Permutation_in _ (sort_desc_perm l)).
  rewrite <- (firstn_skipn k (sort_desc key l)). apply in_or_app. now left.
Qed.

Lemma top_k_length k l : (length (firstn k (sort_desc key l)) <= k)%nat.
Proof. rewrite length_firstn. lia. Qed.

(** The top [k] hold [min k (length l)] entries, and with the entries left
    out they are a permutation of [l]. *)
Lemma top_k_split k l :
  (length (firstn k (sort_desc key l)) = Nat.min k (length l))%nat /\
  exists rest, Permutation l (firstn k (sort_desc key l) ++ rest) /\
    forall x y, In x rest -> In y (firstn k (sort_desc key l)) -> key x <= key y.
Proof.
  split.
  - rewrite length_firstn, (Permutation_length (sort_desc_perm l)). reflexivity.
  - exists (skipn k (sort_desc key l)). split.
    + rewrite firstn_skipn. symmetry. apply sort_desc_perm.
    + intros x y Hx Hy. assert (Hs := sort_desc_strongly_sorted l).
      rewrite <- (firstn_skipn k (sort_desc key l)) in Hs.
      exact (strongly_sorted_app _ _ _ _ Hs Hy Hx).
Qed.
End SortFacts.

(** ** C5: [find_path] ranks the simple paths by total weight *)

(** C5: [find_path] sorts the paths [nx.all_simple_paths] enumerates by
    descending total edge weight and returns the first 3: when the
    enumeration gives [ps], the result holds [min 3 (length ps)] paths in
    descending weight order, the result and the paths left out are a
    permutation of [ps], and no path left out weighs more than a returned
    one (an exception of the enumeration gives [[]]).  On the graph whose
    only route from A to C is A -> B -> C with weights 0.9 and 0.9,
    [find_path A C 4] is exactly [[A; B; C]], whose score is 1.8. *)
Theorem find_path_top3_by_weight :
  (forall g s t k,
     (length (find_path g s t k) <= 3)%nat /\
     Sorted (desc (path_weight g)) (find_path g s t k) /\
     (forall e, all_simple_paths g s t k = Err e -> find_path g s t k = []) /\
     (forall ps, all_simple_paths g s t k = Ok ps ->
        (length (find_path g s t k) = Nat.min 3 (length ps))%nat /\
        (exists rest, Permutation ps (find_path g s t k ++ rest) /\
           forall p q, In p rest -> In q (find_path g s t k) ->
                       path_weight g p <= path_weight g q) /\
        (forall p, In p (find_path g s t k) -> In p ps) /\
        (forall p q, In p ps -> ~ In p (find_path g s t k) ->
                     In q (find_path g s t k) -> path_weight g p <= path_weight g q))) /\
  find_path g_chain "A" "C" 4 = [["A"; "B"; "C"]] /\
  path_weight g_chain ["A"; "B"; "C"] == 18 # 10.
Proof.
  split; [|split; [vm_compute; reflexivity|reflexivity]].
  intros g s t k. unfold find_path.
  destruct (all_simple_paths g s t k) as [ps|e].
  - split; [apply top_k_length|split; [apply firstn_sorted, sort_desc_sorted|]].
    split; [discriminate|].
    intros ps' H. inversion H; subst ps'.
    destruct (top_k_split (path_weight g) 3 ps) as [Hlen Hrest].
    split; [exact Hlen|split; [exact Hrest|split]].
    + intros p Hp. exact (top_k_in _ _ _ _ Hp).
    + intros p q Hp Hnp Hq. exact (top_k_sort_desc _ _ _ _ _ Hp Hnp Hq).
  - split; [simpl; lia|split; [constructor|split; [reflexivity|discriminate]]].
Qed.

(** ** C1: pagerank failure in [get_central_lenses] *)

(** C1 (counterexample): when [nx.pagerank] raises, the ranking returned
    for ['pagerank'] is not the betweenness ranking: on A -> B -> C it
    differs from what ['betweenness'] returns. *)
Lemma rank_pagerank_failure_not_betweenness :
  ~ (forall (eig pr : graph -> option (list (string * Q))) (g : graph),
       pr g = None ->
       get_central_lenses eig pr g "pagerank" = get_central_lenses eig pr g "betweenness").
Proof.
  intro H.
  specialize (H (fun _ => None) (fun _ => None) g_chain eq_refl).
  vm_compute in H. discriminate H.
Qed.

(** C1 (amended): when [nx.pagerank] raises, the failure is caught and the
    ranking falls back to degree centrality: the result is exactly the one
    returned for ['degree'], so nothing tells the caller a fallback
    happened. *)
Theorem rank_pagerank_failure_is_degree
    (eig pr : graph -> option (list (string * Q))) (g : graph) (measure : string) :
  lower measure = "pagerank" -> pr g = None ->
  get_central_lenses eig pr g measure = get_central_lenses eig pr g "degree".
Proof.
  intros Hm Hpr. unfold get_central_lenses. rewrite Hm, Hpr. reflexivity.
Qed.

Lemma rank_pagerank_failure_is_degree_witness :
  lower "PageRank" = "pagerank" /\
  get_central_lenses (fun _ => None) (fun _ => None) g_chain "PageRank" =
  get_central_lenses (fun _ => None) (fun _ => None) g_chain "degree".
Proof.
  split; [reflexivity|].
  apply (rank_pagerank_failure_is_degree (fun _ => None) (fun _ => None) g_chain "PageRank");
    reflexivity.
Defined.

(** ** C3: queries on a node absent from the graph *)

(** C3 (failing input): on A -> B -> C and the absent id Z, [find_path] and
    [find_bridges] return [[]], but [find_contrasts] and
    [get_lens_neighborhood] (radius 2) raise [NetworkXError]. *)
Theorem absent_node_queries :
  find_path g_chain "Z" "A" 4 = [] /\
  find_path g_chain "A" "Z" 4 = [] /\
  find_bridges (fun l => l) g_chain ["Z"; "A"] = [] /\
  find_contrasts g_chain "Z" = Err NetworkXError /\
  get_lens_neighborhood g_chain "Z" 2 = Err NetworkXError.
Proof. vm_compute. repeat split. Qed.

(** ** C2: precedence of the edge-adding steps *)

(** C2 (counterexample): with the curated edge B -> A and a frame listing
    [A; B], construction still adds the frame edge A -> B: the frame step
    only looks for an edge in the direction it adds. *)
Lemma frame_edge_added_despite_reverse_edge :
  let lenses := Some [lens_rec_of "A"; lens_rec_of "B"] in
  get_edge_data (load_connections (Some [conn_BA]) (_load_lenses lenses empty_graph)) "B" "A"
    = Some (curated_attrs conn_BA) /\
  get_edge_data (LensGraph_init (fun l => l) lenses (Some [conn_BA]) (Some [frame_AB])) "B" "A"
    = Some (curated_attrs conn_BA) /\
  get_edge_data (LensGraph_init (fun l => l) lenses (Some [conn_BA]) (Some [frame_AB])) "A" "B"
    = Some (frame_attrs "f1").
Proof. vm_compute. repeat split. Qed.

(** ** Growth of the edge list *)

Definition lookup_edges (l : list (string * string * edge_attrs)) (u v : string)
    : option edge_attrs :=
  match find (fun e => match e with (a, b, _) => String.eqb a u && String.eqb b v end) l with
  | Some (_, _, d) => Some d
  | None => None
  end.

(** The relationships a construction step proposes, in the order the loops
    visit them: [(u, v, attrs)] for each [G.add_edge(u, v, **attrs)] guarded
    by [if not G.has_edge(u, v)]. *)
Fixpoint pair_proposals (a : edge_attrs) (ids : list string)
    : list (string * string * edge_attrs) :=
  match ids with
  | [] => []
  | l1 :: rest => map (fun l2 => (l1, l2, a)) rest ++ pair_proposals a rest
  end.

Definition frame_proposals (doc : option (list frame)) : list (string * string * edge_attrs) :=
  match doc with
  | None => []
  | Some frames =>
      flat_map (fun fr => pair_proposals (frame_attrs (f_id fr))
                  (match f_lens_ids fr with Some ids => ids | None => [] end)) frames
  end.

Definition temporal_proposals (g : graph) : list (string * string * edge_attrs) :=
  let d := nodes_by_episode g in
  flat_map (fun ep =>
    match assoc_lookup Z.eqb ep d, assoc_lookup Z.eqb (ep + 1)%Z d with
    | Some l1s, Some l2s =>
        flat_map (fun l1 => map (fun l2 => (l1, l2, temporal_attrs ep)) l2s) l1s
    | _, _ => []
    end) (sort_Z (map fst d)).

Definition concept_proposals (set_iter : list string -> list string) (g : graph)
    : list (string * string * edge_attrs) :=
  flat_map (fun cl : string * list string =>
    let (c, lenses) := cl in
    if Nat.leb 2 (length lenses) && Nat.leb (length lenses) 5 then
      pair_proposals (concept_attrs c) (set_iter lenses)
    else []) (concept_to_lenses g).

(** [g'] answers every edge lookup as [g] with [props] appended would. *)
Definition lk_ext (g g' : graph) (props : list (string * string * edge_attrs)) : Prop :=
  forall x y, lookup_edges (g_edges g') x y = lookup_edges (g_edges g ++ props) x y.

Lemma get_edge_data_lookup g u v : get_edge_data g u v = lookup_edges (g_edges g) u v.
Proof. reflexivity. Qed.

Lemma lookup_edges_app l1 l2 u v :
  lookup_edges (l1 ++ l2) u v =
  match lookup_edges l1 u v with Some d => Some d | None => lookup_edges l2 u v end.
Proof.
  induction l1 as [|[[a b] d] l1 IH]; [reflexivity|].
  unfold lookup_edges in *. simpl.
  destruct (String.eqb a u && String.eqb b v); [reflexivity|exact IH].
Qed.


(** [g'] is [g] with edges appended, each for an ordered pair that had no
    edge in [g], each satisfying [P]. *)
Definition fresh_ext (P : edge_attrs -> Prop) (g g' : graph) : Prop :=
  exists new, g_edges g' = g_edges g ++ new /\
    Forall (fun e => match e with (u, v, d) => get_edge_data g u v = None /\ P d end) new.

Lemma fresh_ext_refl P g : fresh_ext P g g.
Proof. exists []. now rewrite app_nil_r. Qed.

Lemma fresh_ext_keeps P g g' :
  fresh_ext P g g' -> forall u v d, get_edge_data g u v = Some d -> get_edge_data g' u v = Some d.
Proof.
  intros [new [He _]] u v d H. rewrite get_edge_data_lookup in *.
  rewrite He, lookup_edges_app, H. reflexivity.
Qed.


Lemma fresh_ext_trans P g1 g2 g3 :
  fresh_ext P g1 g2 -> fresh_ext P g2 g3 -> fresh_ext P g1 g3.
Proof.
  intros H12 H23. pose proof (fresh_ext_keeps P g1 g2 H12) as K.
  destruct H12 as [n1 [E1 F1]]. destruct H23 as [n2 [E2 F2]].
  exists (n1 ++ n2). split; [now rewrite E2, E1, app_assoc|].
  apply Forall_app. split; [exact F1|].
  rewrite Forall_forall in *. intros [[u v] d] Hin.
  destruct (F2 _ Hin) as [Hn HP]. split; [|exact HP].
  destruct (get_edge_data g1 u v) eqn:E; [|reflexivity].
  rewrite (K u v e E) in Hn. discriminate.
Qed.

Lemma fresh_ext_weaken (P P' : edge_attrs -> Prop) g g' :
  (forall d, P d -> P' d) -> fresh_ext P g g' -> fresh_ext P' g g'.
Proof.
  intros HP [new [E F]]. exists new. split; [exact E|].
  eapply Forall_impl; [|exact F]. intros [[u v] d] [H1 H2]. auto.
Qed.

Lemma fresh_ext_fold {X} (P : edge_attrs -> Prop) (f : graph -> X -> graph) (l : list X) g :
  (forall x g, In x l -> fresh_ext P g (f g x)) -> fresh_ext P g (fold_left f l g).
Proof.
  revert g. induction l as [|x l IH]; intros g H; simpl; [apply fresh_ext_refl|].
  eapply fresh_ext_trans; [apply H; now left|].
  apply IH. intros. apply H. now right.
Qed.

Lemma ensure_node_edges g n : g_edges (ensure_node g n) = g_edges g.
Proof. unfold ensure_node. now destruct (has_node g n). Qed.

Lemma has_edge_edges g g' u v :
  g_edges g' = g_edges g -> has_edge g' u v = has_edge g u v.
Proof. intro E. unfold has_edge. rewrite !get_edge_data_lookup, E. reflexivity. Qed.

Lemma add_if_absent_fresh g u v a : fresh_ext (fun d => d = a) g (add_if_absent g u v a).
Proof.
  unfold add_if_absent. destruct (has_edge g u v) eqn:H; [apply fresh_ext_refl|].
  unfold add_edge.
  set (g1 := ensure_node (ensure_node g u) v).
  assert (E1 : g_edges g1 = g_edges g) by (unfold g1; now rewrite !ensure_node_edges).
  rewrite (has_edge_edges g g1 u v E1), H. simpl.
  exists [(u, v, a)]. split; [now rewrite E1|].
  constructor; [|constructor]. split; [|reflexivity].
  unfold has_edge in H. now destruct (get_edge_data g u v).
Qed.

Lemma add_if_absent_has g u v a : has_edge (add_if_absent g u v a) u v = true.
Proof.
  unfold add_if_absent. destruct (has_edge g u v) eqn:H; [exact H|].
  destruct (add_if_absent_fresh g u v a) as [new [E F]].
  unfold add_if_absent in E. rewrite H in E.
  unfold add_edge in *.
  set (g1 := ensure_node (ensure_node g u) v) in *.
  assert (E1 : g_edges g1 = g_edges g) by (unfold g1; now rewrite !ensure_node_edges).
  rewrite (has_edge_edges g g1 u v E1), H. unfold has_edge. simpl.
  rewrite get_edge_data_lookup. simpl. rewrite lookup_edges_app.
  rewrite E1, <- get_edge_data_lookup.
  unfold has_edge in H. destruct (get_edge_data g u v); [discriminate|].
  unfold lookup_edges. simpl. now rewrite !String.eqb_refl.
Qed.

Lemma has_edge_keeps P g g' u v :
  fresh_ext P g g' -> has_edge g u v = true -> has_edge g' u v = true.
Proof.
  intros H. unfold has_edge. destruct (get_edge_data g u v) eqn:E; [|discriminate].
  now rewrite (fresh_ext_keeps P g g' H u v e E).
Qed.

Lemma add_pairs_fresh a ids g : fresh_ext (fun d => d = a) g (add_pairs a ids g).
Proof.
  revert g. induction ids as [|l1 rest IH]; intro g; simpl; [apply fresh_ext_refl|].
  eapply fresh_ext_trans; [|apply IH].
  apply fresh_ext_fold. intros. apply add_if_absent_fresh.
Qed.

Lemma load_frames_fresh frames g :
  fresh_ext (fun d => exists fid, d = frame_attrs fid) g (load_frames frames g).
Proof.
  destruct frames as [frs|]; simpl; [|apply fresh_ext_refl].
  apply fresh_ext_fold. intros fr g' _.
  eapply fresh_ext_weaken; [|apply add_pairs_fresh]. intros d ->. eauto.
Qed.

Lemma temporal_step_fresh g :
  fresh_ext (fun d => exists ep, d = temporal_attrs ep) g (temporal_step g).
Proof.
  unfold temporal_step. apply fresh_ext_fold. intros ep g' _.
  destruct (assoc_lookup Z.eqb ep (nodes_by_episode g)) as [l1s|];
    [|apply fresh_ext_refl].
  destruct (assoc_lookup Z.eqb (ep + 1)%Z (nodes_by_episode g)) as [l2s|];
    [|apply fresh_ext_refl].
  apply fresh_ext_fold. intros l1 g1 _. apply fresh_ext_fold. intros l2 g2 _.
  eapply fresh_ext_weaken; [|apply add_if_absent_fresh]. intros d ->. eauto.
Qed.

Lemma lk_ext_refl g : lk_ext g g [].
Proof. intros x y. now rewrite app_nil_r. Qed.

Lemma lk_ext_trans g1 g2 g3 p1 p2 :
  lk_ext g1 g2 p1 -> lk_ext g2 g3 p2 -> lk_ext g1 g3 (p1 ++ p2).
Proof.
  intros H12 H23 x y. rewrite H23, lookup_edges_app, H12, app_assoc.
  rewrite (lookup_edges_app (g_edges g1 ++ p1) p2). reflexivity.
Qed.

Lemma lk_ext_add g u v a : lk_ext g (add_if_absent g u v a) [(u, v, a)].
Proof.
  intros x y. unfold add_if_absent. destruct (has_edge g u v) eqn:H.
  - rewrite lookup_edges_app. destruct (lookup_edges (g_edges g) x y) eqn:E; [reflexivity|].
    unfold lookup_edges. simpl.
    destruct (String.eqb u x) eqn:Ex, (String.eqb v y) eqn:Ey; simpl; try reflexivity.
    apply String.eqb_eq in Ex, Ey. subst. unfold has_edge in H.
    rewrite get_edge_data_lookup, E in H. discriminate.
  - unfold add_edge.
    set (g1 := ensure_node (ensure_node g u) v).
    assert (E1 : g_edges g1 = g_edges g) by (unfold g1; now rewrite !ensure_node_edges).
    rewrite (has_edge_edges g g1 u v E1), H. simpl. now rewrite E1.
Qed.

Lemma lk_ext_fold {X} (f : graph -> X -> graph) (pr : X -> list (string * string * edge_attrs))
    (l : list X) g :
  (forall x g, In x l -> lk_ext g (f g x) (pr x)) -> lk_ext g (fold_left f l g) (flat_map pr l).
Proof.
  revert g. induction l as [|x l IH]; intros g H; simpl; [apply lk_ext_refl|].
  eapply lk_ext_trans; [apply H; now left|].
  apply IH. intros. apply H. now right.
Qed.

Lemma flat_map_single {X Y} (f : X -> Y) l : flat_map (fun x => [f x]) l = map f l.
Proof. induction l as [|x l IH]; simpl; [reflexivity|now rewrite IH]. Qed.

Lemma add_pairs_lk a ids g : lk_ext g (add_pairs a ids g) (pair_proposals a ids).
Proof.
  revert g. induction ids as [|l1 rest IH]; intro g; simpl; [apply lk_ext_refl|].
  eapply lk_ext_trans; [|apply IH].
  rewrite <- (flat_map_single (fun l2 => (l1, l2, a))).
  apply lk_ext_fold. intros. apply lk_ext_add.
Qed.

Lemma load_frames_lk frames g : lk_ext g (load_frames frames g) (frame_proposals frames).
Proof.
  destruct frames as [frs|]; simpl; [|apply lk_ext_refl].
  apply lk_ext_fold. intros. apply add_pairs_lk.
Qed.

Lemma temporal_step_lk g : lk_ext g (temporal_step g) (temporal_proposals g).
Proof.
  unfold temporal_step, temporal_proposals. apply lk_ext_fold. intros ep g' _.
  destruct (assoc_lookup Z.eqb ep (nodes_by_episode g)) as [l1s|]; [|apply lk_ext_refl].
  destruct (assoc_lookup Z.eqb (ep + 1)%Z (nodes_by_episode g)) as [l2s|]; [|apply lk_ext_refl].
  apply lk_ext_fold. intros l1 g1 _.
  rewrite <- (flat_map_single (fun l2 => (l1, l2, temporal_attrs ep))).
  apply lk_ext_fold. intros. apply lk_ext_add.
Qed.

Lemma concept_step_lk set_iter g :
  lk_ext g (concept_step set_iter g) (concept_proposals set_iter g).
Proof.
  unfold concept_step, concept_proposals. apply lk_ext_fold. intros [c lenses] g' _.
  cbv beta iota.
  destruct (Nat.leb 2 (length lenses) && Nat.leb (length lenses) 5); [|apply lk_ext_refl].
  apply add_pairs_lk.
Qed.

Definition concept_new (g : graph) (d : edge_attrs) : Prop :=
  exists c lenses, In (c, lenses) (concept_to_lenses g) /\
    (2 <= length lenses <= 5)%nat /\ d = concept_attrs c.

Lemma concept_step_fresh set_iter g : fresh_ext (concept_new g) g (concept_step set_iter g).
Proof.
  unfold concept_step. apply fresh_ext_fold. intros [c lenses] g' Hin. cbv beta iota.
  destruct (Nat.leb 2 (length lenses) && Nat.leb (length lenses) 5) eqn:E;
    [|apply fresh_ext_refl].
  apply andb_true_iff in E. destruct E as [E1 E2].
  apply Nat.leb_le in E1, E2.
  eapply fresh_ext_weaken; [|apply add_pairs_fresh]. intros d ->.
  exists c, lenses. auto.
Qed.

(** C2 (amended): each of the frame, temporal and concept steps only
    appends edges for ordered pairs that have no edge yet (the reverse
    direction is not consulted), and an edge present before the step is
    left unchanged: never merged or overridden. More precisely, after a
    step the edge data of an ordered pair is that of the first among the
    edges present before the step and then the relationships the step
    proposes, in loop order: a relationship for a pair that already has an
    edge is dropped, whether that edge was there before the step or was
    added earlier in the same step (two frames, or two rare tags, sharing a
    pair keep the first one's attributes). *)
Theorem build_steps_add_only_absent_pairs
    (set_iter : list string -> list string) (frames : option (list frame)) (g : graph) :
  (fresh_ext (fun _ => True) g (load_frames frames g) /\
   (forall u v d, get_edge_data g u v = Some d -> get_edge_data (load_frames frames g) u v = Some d) /\
   forall u v, get_edge_data (load_frames frames g) u v =
               lookup_edges (g_edges g ++ frame_proposals frames) u v) /\
  (fresh_ext (fun _ => True) g (temporal_step g) /\
   (forall u v d, get_edge_data g u v = Some d -> get_edge_data (temporal_step g) u v = Some d) /\
   forall u v, get_edge_data (temporal_step g) u v =
               lookup_edges (g_edges g ++ temporal_proposals g) u v) /\
  (fresh_ext (fun _ => True) g (concept_step set_iter g) /\
   (forall u v d, get_edge_data g u v = Some d -> get_edge_data (concept_step set_iter g) u v = Some d) /\
   forall u v, get_edge_data (concept_step set_iter g) u v =
               lookup_edges (g_edges g ++ concept_proposals set_iter g) u v).
Proof.
  split; [|split]; (split; [|split]).
  - eapply fresh_ext_weaken; [|apply load_frames_fresh]. auto.
  - apply (fresh_ext_keeps _ _ _ (load_frames_fresh frames g)).
  - apply load_frames_lk.
  - eapply fresh_ext_weaken; [|apply temporal_step_fresh]. auto.
  - apply (fresh_ext_keeps _ _ _ (temporal_step_fresh g)).
  - apply temporal_step_lk.
  - eapply fresh_ext_weaken; [|apply concept_step_fresh]. auto.
  - apply (fresh_ext_keeps _ _ _ (concept_step_fresh set_iter g)).
  - apply concept_step_lk.
Qed.

(** Two frames sharing the pair (A, B): the edge keeps the first frame's
    attributes. *)
Lemma frames_shared_pair_first_wins :
  get_edge_data (load_frames (Some [frame_AB; {| f_id := "f2"; f_lens_ids := Some ["A"; "B"] |}])
                   (_load_lenses (Some [lens_rec_of "A"; lens_rec_of "B"]) empty_graph)) "A" "B"
    = Some (frame_attrs "f1").
Proof. vm_compute. reflexivity. Qed.

(** ** Rare tags: the concept step *)

Lemma fold_pairs_has a l1 rest g l2 :
  In l2 rest -> has_edge (fold_left (fun g l2 => add_if_absent g l1 l2 a) rest g) l1 l2 = true.
Proof.
  revert g. induction rest as [|x rest IH]; intros g Hin; [destruct Hin|].
  simpl. destruct Hin as [->|Hin]; [|now apply IH].
  eapply has_edge_keeps; [|apply add_if_absent_has].
  apply fresh_ext_fold. intros. apply add_if_absent_fresh.
Qed.








(** ** The neighborhood search follows outgoing edges *)

(** [fwd_reach g src v k]: [v] is reached from [src] along [k] edges, each
    followed from its source to its target. *)
Inductive fwd_reach (g : graph) (src : string) : string -> nat -> Prop :=
| fwd_refl : fwd_reach g src src 0
| fwd_step u v d k : fwd_reach g src u k -> In (u, v, d) (g_edges g) -> fwd_reach g src v (S k).

Definition nb_good (g : graph) (n : string) (radius : Z) (w : string) : Prop :=
  w <> n /\ (exists m, fwd_reach g n w m /\ (Z.of_nat m <= radius)%Z) /\
  exists u d, In (u, w, d) (g_edges g).

Definition bfs_inv (g : graph) (n : string) (radius : Z)
    (st : list (string * Z) * list string * list (string * list string)) : Prop :=
  let '(q, vis, nb) := st in
  In n vis /\
  (forall x dep, In (x, dep) q -> exists m, fwd_reach g n x m /\ (Z.of_nat m <= dep)%Z) /\
  (forall k l w, In (k, l) nb -> In w l -> nb_good g n radius w).

Lemma assoc_append_in {K} (eqk : K -> K -> bool) k x nb k' l w :
  In (k', l) (assoc_append eqk k x nb) -> In w l ->
  w = x \/ exists l', In (k', l') nb /\ In w l'.
Proof.
  induction nb as [|[k0 xs] nb IH]; simpl.
  - intros [H|[]] Hw. inversion H; subst. destruct Hw as [->|[]]. now left.
  - destruct (eqk k0 k); simpl; intros [H|H] Hw.
    + inversion H; subst. apply in_app_or in Hw. destruct Hw as [Hw|[->|[]]]; [|now left].
      right. exists xs. auto.
    + right. exists l. auto.
    + inversion H; subst. right. exists l. auto.
    + destruct (IH H Hw) as [->|[l' [H1 H2]]]; [now left|]. right. exists l'. auto.
Qed.

Lemma succ_in g u v : In v (map fst (succ g u)) -> exists d, In (u, v, d) (g_edges g).
Proof.
  unfold succ. rewrite map_map. intro H. apply in_map_iff in H.
  destruct H as [[[a b] d] [Hb Hin]]. simpl in Hb. subst b.
  apply filter_In in Hin. destruct Hin as [Hin Ha]. apply String.eqb_eq in Ha. subst a.
  eauto.
Qed.

Lemma explore_inv g n radius current depth m ns st :
  fwd_reach g n current m -> (Z.of_nat m <= depth)%Z -> (depth < radius)%Z ->
  (forall v, In v ns -> exists d, In (current, v, d) (g_edges g)) ->
  bfs_inv g n radius st -> bfs_inv g n radius (fold_left (explore g current depth) ns st).
Proof.
  intros Hr Hm Hd. revert st. induction ns as [|v ns IH]; intros st Hns Hinv; simpl; [exact Hinv|].
  apply IH; [intros; apply Hns; now right|].
  destruct st as [[q vis] nb]. destruct Hinv as [Hn [Hq Hnb]]. unfold explore.
  destruct (mem v vis) eqn:Hmem; [exact (conj Hn (conj Hq Hnb))|].
  destruct (Hns v (or_introl eq_refl)) as [d Hedge].
  split; [|split].
  - now right.
  - intros x dep Hin. apply in_app_or in Hin. destruct Hin as [Hin|[Hin|[]]]; [now apply Hq|].
    inversion Hin; subst. exists (S m). split; [econstructor; eauto|lia].
  - intros k l w Hin Hw.
    destruct (assoc_append_in _ _ _ _ _ _ _ Hin Hw) as [->|[l' [H1 H2]]]; [|now apply (Hnb k l')].
    repeat split.
    + intro E. subst v. unfold mem in Hmem.
      assert (existsb (String.eqb n) vis = true)
        by (apply existsb_exists; exists n; split; [exact Hn|apply String.eqb_refl]).
      congruence.
    + exists (S m). split; [econstructor; eauto|lia].
    + eauto.
Qed.

Lemma bfs_sound g n radius fuel q vis nb res :
  bfs g radius fuel q vis nb = Ok res -> bfs_inv g n radius (q, vis, nb) ->
  forall k l w, In (k, l) res -> In w l -> nb_good g n radius w.
Proof.
  revert q vis nb. induction fuel as [|fuel IH]; intros q vis nb Hb Hinv; simpl in Hb.
  - inversion Hb; subst. apply Hinv.
  - destruct q as [|[current depth] q'].
    + inversion Hb; subst. apply Hinv.
    + destruct Hinv as [Hn [Hq Hnb]].
      destruct (radius <=? depth)%Z eqn:Er.
      * apply (IH _ _ _ Hb).
        split; [exact Hn|split; [intros x dep Hin; apply Hq; now right|exact Hnb]].
      * unfold neighbors in Hb. destruct (has_node g current); [|discriminate]. simpl in Hb.
        destruct (fold_left (explore g current depth) (map fst (succ g current)) (q', vis, nb))
          as [[q2 vis2] nb2] eqn:Ef.
        apply (IH _ _ _ Hb).
        destruct (Hq current depth (or_introl eq_refl)) as [m [Hr Hm]].
        rewrite <- Ef. apply (explore_inv _ _ _ _ _ m); auto.
        -- apply Z.leb_gt in Er. exact Er.
        -- intros v Hv. now apply succ_in.
        -- split; [exact Hn|split; [intros x dep Hin; apply Hq; now right|exact Hnb]].
Qed.

(** C10: every concept id returned by the neighborhood search is not the
    start itself and is reached from it by at most [radius] edges, each
    followed forwards; in particular a node without incoming edges (one
    connected to the start only by edges leaving it) never appears. *)
Theorem neighborhood_forward_only g n radius res :
  get_lens_neighborhood g n radius = Ok res ->
  (forall k l w, In (k, l) res -> In w l ->
     w <> n /\ exists m, fwd_reach g n w m /\ (Z.of_nat m <= radius)%Z) /\
  (forall w, (forall u d, ~ In (u, w, d) (g_edges g)) ->
     forall k l, In (k, l) res -> ~ In w l).
Proof.
  intro H.
  assert (Hs : forall k l w, In (k, l) res -> In w l -> nb_good g n radius w).
  { apply (bfs_sound g n radius _ _ _ _ _ H). split; [|split].
    - now left.
    - intros x dep [Hin|[]]. inversion Hin; subst. exists 0%nat. split; [constructor|lia].
    - intros k l w [] _. }
  split.
  - intros k l w Hin Hw. destruct (Hs k l w Hin Hw) as [H1 [H2 _]]. auto.
  - intros w Hno k l Hin Hw. destruct (Hs k l w Hin Hw) as [_ [_ [u [d Hd]]]].
    exact (Hno u d Hd).
Qed.

Lemma neighborhood_forward_only_witness :
  get_lens_neighborhood g_chain "B" 3 = Ok [("curated", ["C"])] /\
  ~ In "A" ["C"].
Proof.
  split; [vm_compute; reflexivity|].
  refine (proj2 (neighborhood_forward_only g_chain "B" 3 [("curated", ["C"])]
                   ltac:(vm_compute; reflexivity)) "A" _ "curated" ["C"] (or_introl eq_refl)).
  intros u d Hin. vm_compute in Hin.
  repeat destruct Hin as [Hin|Hin]; try inversion Hin.
Defined.

(** ** The journey search: division by zero *)










Lemma in_firstn_in {A} (x : A) n l : In x (firstn n l) -> In x l.
Proof.
  revert l. induction n as [|n IH]; intros [|a l] H; simpl in *; try tauto.
  destruct H as [H|H]; [now left|right; now apply IH].
Qed.




(** ** [suggest_lens_journey]: the length filter and the shortest survivor *)













(** ** C6: [find_bridges] *)

Lemma mem_false_not_in x l : mem x l = false -> ~ In x l.
Proof.
  unfold mem. intros H Hin.
  assert (existsb (String.eqb x) l = true) by (apply existsb_exists; exists x; split; [exact Hin|apply String.eqb_refl]).
  congruence.
Qed.

Lemma not_in_mem_false x l : ~ In x l -> mem x l = false.
Proof.
  unfold mem. intro H. destruct (existsb (String.eqb x) l) eqn:E; [|reflexivity].
  apply existsb_exists in E. destruct E as [y [Hy Hxy]]. apply String.eqb_eq in Hxy. subst y.
  contradiction.
Qed.

Lemma has_edge_in g u v : has_edge g u v = true <-> exists d, In (u, v, d) (g_edges g).
Proof.
  unfold has_edge, get_edge_data. split.
  - destruct (find _ (g_edges g)) as [[[a b] d]|] eqn:F; [|discriminate]. intros _.
    apply find_some in F. destruct F as [Hin Hab]. apply andb_true_iff in Hab.
    destruct Hab as [Ha Hb]. apply String.eqb_eq in Ha, Hb. subst. eauto.
  - intros [d Hin]. destruct (find _ (g_edges g)) as [[[a b] d']|] eqn:F; [reflexivity|].
    apply (find_none _ _ F) in Hin. simpl in Hin. rewrite !String.eqb_refl in Hin. discriminate.
Qed.

Lemma in_succ g u v : (exists d, In (u, v, d) (g_edges g)) -> In v (map fst (succ g u)).
Proof.
  intros [d Hin]. unfold succ. rewrite map_map. apply in_map_iff.
  exists (u, v, d). split; [reflexivity|]. apply filter_In. split; [exact Hin|apply String.eqb_refl].
Qed.

Lemma mem_true_in x l : mem x l = true -> In x l.
Proof.
  unfold mem. intro H. apply existsb_exists in H. destruct H as [y [Hy E]].
  apply String.eqb_eq in E. now subst.
Qed.

Lemma in_mem_true x l : In x l -> mem x l = true.
Proof.
  intro H. unfold mem. apply existsb_exists. exists x. split; [exact H|apply String.eqb_refl].
Qed.

Lemma nodup_snoc (l : list string) x : NoDup l -> ~ In x l -> NoDup (l ++ [x]).
Proof.
  intros H Hx. apply (Permutation_NoDup (Permutation_cons_append l x)).
  now constructor.
Qed.

Lemma last_cons_ne (x : string) l d : l <> [] -> last (x :: l) d = last l d.
Proof. destruct l; [congruence|reflexivity]. Qed.

Lemma last_in (l : list string) d : l <> [] -> In (last l d) l.
Proof.
  induction l as [|x l IH]; intro H; [congruence|].
  destruct l as [|y l]; [now left|]. right. apply IH. discriminate.
Qed.

(** On a path without repetition, a node after [c] is neither [c] nor
    before it. *)
Lemma nodup_after (vis rest : list string) c x :
  NoDup (vis ++ c :: rest) -> In x rest -> ~ In x (vis ++ [c]).
Proof.
  intros H Hx Hin. apply in_app_or in Hin. destruct Hin as [Hin|[<-|[]]].
  - induction vis as [|v vis IH]; [destruct Hin|].
    simpl in H. inversion H as [|? ? Hv Hd]; subst. destruct Hin as [<-|Hin].
    + apply Hv, in_or_app. right. now right.
    + exact (IH Hd Hin).
  - apply NoDup_remove_2 in H. apply H, in_or_app. now right.
Qed.

Lemma sp_dfs_eq g ts f vis cur :
  sp_dfs g ts f vis cur =
  flat_map (fun child =>
    if mem child vis then []
    else (if mem child ts then [vis ++ [child]] else []) ++
         match f with
         | O => []
         | S f' => if existsb (fun x => negb (mem x (vis ++ [child]))) ts
                   then sp_dfs g ts f' (vis ++ [child]) child else []
         end) (map fst (succ g cur)).
Proof. destruct f; reflexivity. Qed.

(** What the search yields below [cur]: [vis] extended by a simple walk
    from [cur] of 1 to [fuel + 1] nodes ending at a target. *)
Lemma sp_dfs_sound g ts f vis cur p :
  In p (sp_dfs g ts f vis cur) -> NoDup vis ->
  exists q, p = vis ++ q /\ (1 <= length q <= S f)%nat /\ In (last q "") ts /\
    NoDup p /\ is_walk g (cur :: q).
Proof.
  revert vis cur p. induction f as [|f IH]; intros vis cur p H Hnd;
    rewrite sp_dfs_eq in H; apply in_flat_map in H; destruct H as [child [Hc Hp]];
    destruct (mem child vis) eqn:M; try destruct Hp;
    apply mem_false_not_in in M;
    assert (He : has_edge g cur child = true) by (apply has_edge_in, succ_in, Hc);
    apply in_app_or in Hp; destruct Hp as [Hp|Hp].
  1, 3: destruct (mem child ts) eqn:T; [|destruct Hp];
        destruct Hp as [<-|[]]; apply mem_true_in in T;
        exists [child]; split; [reflexivity|]; split; [simpl; lia|];
        split; [exact T|]; split; [now apply nodup_snoc|]; split; [exact He|exact I].
  - destruct Hp.
  - destruct (existsb _ ts); [|destruct Hp].
    destruct (IH _ _ _ Hp (nodup_snoc vis child Hnd M)) as [q [-> [Hl [Hlast [Hnd' Hw]]]]].
    exists (child :: q). split; [now rewrite <- app_assoc|]. split; [simpl; lia|]. split.
    + rewrite last_cons_ne; [exact Hlast|intros ->; simpl in Hl; lia].
    + split; [exact Hnd'|split; [exact He|exact Hw]].
Qed.

(** Every such walk is yielded. *)
Lemma sp_dfs_complete g ts q : forall f vis cur,
  q <> [] -> is_walk g (cur :: q) -> NoDup (vis ++ q) -> In (last q "") ts ->
  (length q <= S f)%nat -> In (vis ++ q) (sp_dfs g ts f vis cur).
Proof.
  induction q as [|c q IH]; intros f vis cur Hne Hw Hnd Hlast Hlen; [congruence|].
  destruct Hw as [He Hw].
  assert (Hc : ~ In c vis).
  { intro Hin. apply NoDup_remove_2 in Hnd. apply Hnd, in_or_app. now left. }
  rewrite sp_dfs_eq. apply in_flat_map. exists c.
  split; [apply in_succ, has_edge_in, He|].
  rewrite (not_in_mem_false _ _ Hc). apply in_or_app.
  destruct q as [|c' q'].
  - left. simpl in Hlast. rewrite (in_mem_true _ _ Hlast). now left.
  - right. destruct f as [|f]; [simpl in Hlen; lia|].
    assert (Hx : In (last (c' :: q') "") (c' :: q')) by (apply last_in; discriminate).
    rewrite last_cons_ne in Hlast by discriminate.
    replace (existsb (fun x => negb (mem x (vis ++ [c]))) ts) with true.
    + replace (vis ++ c :: c' :: q') with ((vis ++ [c]) ++ c' :: q') by (now rewrite <- app_assoc).
      apply IH; [discriminate|exact Hw| |exact Hlast|simpl in *; lia].
      now rewrite <- app_assoc.
    + symmetry. apply existsb_exists. exists (last (c' :: q') ""). split; [exact Hlast|].
      apply negb_true_iff, not_in_mem_false. exact (nodup_after _ _ _ _ Hnd Hx).
Qed.

Lemma all_simple_paths_err g s t k e :
  all_simple_paths g s t k = Err e -> has_node g s = false.
Proof.
  unfold all_simple_paths. destruct (has_node g s); [|reflexivity]. simpl.
  destruct (targets_of g t); [discriminate|]. destruct (k <? 0)%Z; discriminate.
Qed.

Lemma all_simple_paths_node g s t k :
  has_node g s = true -> exists ps, all_simple_paths g s t k = Ok ps.
Proof.
  intro Hs. unfold all_simple_paths. rewrite Hs. simpl.
  destruct (targets_of g t); [eauto|]. destruct (k <? 0)%Z; eauto.
Qed.

(** [nx.all_simple_paths(G, s, t, cutoff)] enumerates exactly the paths
    from [s] without repeated node, following edges, with at most [cutoff]
    edges, that end at a target of [t]. *)
Lemma all_simple_paths_spec g s t k ps :
  all_simple_paths g s t k = Ok ps ->
  forall p, In p ps <->
    hd_error p = Some s /\ NoDup p /\ is_walk g p /\ In (last p "") (targets_of g t) /\
    (Z.of_nat (length p) <= k + 1)%Z.
Proof.
  unfold all_simple_paths. destruct (has_node g s) eqn:Hs; cbn [negb]; [|discriminate].
  destruct (targets_of g t) as [|x0 xs] eqn:ET.
  { intros H p. inversion H; subst. split; [intros []|intros (_ & _ & _ & [] & _)]. }
  cbv beta iota zeta. set (ts := x0 :: xs) in *. clearbody ts.
  destruct (k <? 0)%Z eqn:Ek.
  { intros H p. inversion H; subst. split; [intros []|]. apply Z.ltb_lt in Ek.
    intros (Hhd & _ & _ & _ & Hl). destruct p; [discriminate|simpl in Hl; lia]. }
  apply Z.ltb_ge in Ek. intros H p. injection H as <-.
  rewrite in_app_iff. split.
  - intros [Hp|Hp].
    + destruct (mem s ts) eqn:M; [|simpl in Hp; destruct Hp].
      destruct Hp as [<-|[]]. apply mem_true_in in M.
      repeat split; [constructor; [intros []|constructor]|exact M|simpl; lia].
    + destruct ((0 <? k)%Z && existsb (fun x => negb (String.eqb x s)) ts) eqn:E; [|simpl in Hp; destruct Hp].
      apply andb_true_iff in E. destruct E as [Ek1 _]. apply Z.ltb_lt in Ek1.
      destruct (sp_dfs_sound _ _ _ _ _ _ Hp (NoDup_cons s (fun H0 : In s [] => H0) (NoDup_nil _)))
        as [q [-> [Hl [Hlast [Hnd Hw]]]]].
      change ([s] ++ q) with (s :: q) in *.
      split; [reflexivity|]. split; [exact Hnd|]. split; [exact Hw|]. split.
      * rewrite last_cons_ne; [exact Hlast|intros ->; simpl in Hl; lia].
      * simpl. lia.
  - intros (Hhd & Hnd & Hw & Hlast & Hl).
    destruct p as [|s' q]; [discriminate|]. simpl in Hhd. inversion Hhd; subst s'. clear Hhd.
    destruct q as [|c q'].
    + left. simpl in Hlast. rewrite (in_mem_true _ _ Hlast). now left.
    + right. set (q := c :: q') in *.
      assert (Hq : q <> []) by discriminate.
      assert (Hlq : (1 <= length q)%nat) by (unfold q; simpl; lia). clearbody q.
      rewrite last_cons_ne in Hlast by exact Hq.
      assert (Hk : (0 < k)%Z) by (simpl in Hl; lia).
      replace ((0 <? k)%Z && existsb (fun x => negb (String.eqb x s)) ts) with true.
      * change (s :: q) with ([s] ++ q).
        apply sp_dfs_complete; [exact Hq|exact Hw|exact Hnd|exact Hlast|].
        simpl in Hl. lia.
      * symmetry. apply andb_true_iff. split; [now apply Z.ltb_lt|].
        apply existsb_exists. exists (last q ""). split; [exact Hlast|].
        apply negb_true_iff, String.eqb_neq. intros E.
        apply NoDup_cons_iff in Hnd. destruct Hnd as [Hni _]. apply Hni.
        rewrite <- E. now apply last_in.
Qed.

(** The targets of a node are itself. *)
Lemma targets_of_node g t : has_node g t = true -> targets_of g t = [t].
Proof. unfold targets_of. now intros ->. Qed.

Lemma set_add_nodup x s : NoDup s -> NoDup (set_add x s).
Proof.
  unfold set_add. destruct (mem x s) eqn:M; [auto|].
  intro H. apply mem_false_not_in in M. apply NoDup_app; auto.
  - repeat constructor. intros [].
  - intros y Hy [<-|[]]. contradiction.
Qed.

Lemma set_add_in x y acc : In y (set_add x acc) <-> In y acc \/ y = x.
Proof.
  unfold set_add. destruct (mem x acc) eqn:M.
  - split; [now left|]. intros [H| ->]; [exact H|].
    unfold mem in M. apply existsb_exists in M. destruct M as [z [Hz E]].
    apply String.eqb_eq in E. now subst.
  - rewrite in_app_iff. simpl. split; intros [H|H]; auto; destruct H as [H|[]]; auto.
Qed.

Lemma bridge_paths_fold b paths acc :
  In b (fold_left (fun acc path =>
          match path with [_; m; _] => set_add m acc | _ => acc end) paths acc) <->
  In b acc \/ exists x y, In [x; b; y] paths.
Proof.
  revert acc. induction paths as [|p paths IH]; intro acc; simpl.
  - split; [now left|]. intros [H|[x [y []]]]. exact H.
  - rewrite IH.
    destruct p as [|x [|m [|y [|z r]]]];
      try (split; [intros [H|[x' [y' H]]]; [now left|right; exists x', y'; now right]
                  |intros [H|[x' [y' [H|H]]]]; [now left|discriminate|right; eauto]]).
    rewrite set_add_in. split.
    + intros [[H|<-]|[x' [y' H]]]; [now left|right; exists x, y; now left|right; eauto].
    + intros [H|[x' [y' [H|H]]]]; [now left; left| |right; eauto].
      inversion H; subst. left; now right.
Qed.

Lemma nodup3 (a b c : string) : NoDup [a; b; c] <-> b <> a /\ c <> a /\ c <> b.
Proof.
  split.
  - intro H. inversion H as [|? ? H1 H2]; subst. inversion H2 as [|? ? H3 _]; subst.
    simpl in *. repeat split; intro; subst; tauto.
  - intros (H1 & H2 & H3). constructor; [simpl; intros [E|[E|[]]]; congruence|].
    constructor; [simpl; intros [E|[]]; congruence|]. constructor; [intros []|constructor].
Qed.

Lemma bridge_pairs_fold g l1 b L acc :
  In b (fold_left (fun acc lens2 =>
           match all_simple_paths g l1 lens2 3 with
           | Ok paths =>
               fold_left (fun acc path =>
                 match path with [_; m; _] => set_add m acc | _ => acc end) paths acc
           | Err _ => acc
           end) L acc) <->
  In b acc \/ exists l2, In l2 L /\ two_hop g l1 l2 b.
Proof.
  revert acc. induction L as [|l2 L IH]; intro acc; simpl.
  - split; [now left|]. intros [H|[l2 [[] _]]]. exact H.
  - rewrite IH.
    assert (Hacc : forall acc', (In b acc' <-> In b acc \/ two_hop g l1 l2 b) ->
              (In b acc' \/ (exists l3, In l3 L /\ two_hop g l1 l3 b) <->
               In b acc \/ (exists l3, (l2 = l3 \/ In l3 L) /\ two_hop g l1 l3 b))).
    { intros acc' E. rewrite E. split.
      - intros [[H|H]|[l3 [Hl3 H]]]; [now left|right; exists l2; auto|right; exists l3; auto].
      - intros [H|[l3 [[<-|Hl3] H]]]; [left; now left|left; now right|right; eauto]. }
    apply Hacc. clear Hacc IH.
    destruct (all_simple_paths g l1 l2 3) as [ps|e] eqn:E.
    + assert (Hs := all_simple_paths_spec _ _ _ _ _ E).
      assert (Hn : has_node g l1 = true).
      { destruct (has_node g l1) eqn:N; [reflexivity|].
        unfold all_simple_paths in E. rewrite N in E. discriminate. }
      rewrite bridge_paths_fold. split.
      * intros [H|[x [y H]]]; [now left|right].
        apply Hs in H. destruct H as (Hhd & Hnd & Hw & Hlast & _).
        simpl in Hhd. inversion Hhd; subst x.
        simpl in Hw, Hlast. destruct Hw as (H1 & H2 & _).
        apply nodup3 in Hnd. destruct Hnd as (H3 & H4 & H5).
        split; [exact Hn|]. exists y. repeat split; assumption.
      * intros [H|(_ & c & Hc & H1 & H2 & H3 & H4 & H5)]; [now left|right].
        exists l1, c. apply Hs. split; [reflexivity|].
        split; [apply nodup3; auto|]. split; [simpl; auto|]. split; [exact Hc|simpl; lia].
    + apply all_simple_paths_err in E. split; [intros H; now left|].
      intros [H|(Hn & _)]; [exact H|congruence].
Qed.

Lemma bridge_candidates_in g ids acc b :
  In b (bridge_candidates g ids acc) <->
  In b acc \/ exists pre mid post l1 l2,
    ids = pre ++ l1 :: mid ++ l2 :: post /\ two_hop g l1 l2 b.
Proof.
  revert acc. induction ids as [|l1 rest IH]; intro acc; simpl.
  - split; [now left|]. intros [H|(pre & mid & post & l1 & l2 & E & _)]; [exact H|].
    destruct pre; discriminate.
  - rewrite IH, bridge_pairs_fold. split.
    + intros [[H|[l2 [Hl2 H]]]|(pre & mid & post & a & c & E & H)]; [now left| |].
      * right. apply in_split in Hl2. destruct Hl2 as [mid [post ->]].
        exists [], mid, post, l1, l2. split; [reflexivity|exact H].
      * right. exists (l1 :: pre), mid, post, a, c. rewrite E. split; [reflexivity|exact H].
    + intros [H|(pre & mid & post & a & c & E & H)]; [left; now left|].
      destruct pre as [|x pre]; simpl in E; inversion E; subst.
      * left. right. exists c. split; [apply in_or_app; right; now left|exact H].
      * right. exists pre, mid, post, a, c. split; [reflexivity|exact H].
Qed.

Lemma fold_left_pres {A B} (P : A -> Prop) (f : A -> B -> A) l a :
  (forall a b, P a -> P (f a b)) -> P a -> P (fold_left f l a).
Proof. intro Hf. revert a. induction l as [|b l IH]; intros a Ha; simpl; auto. Qed.

Lemma bridge_candidates_nodup g ids acc : NoDup acc -> NoDup (bridge_candidates g ids acc).
Proof.
  revert acc. induction ids as [|l1 rest IH]; intros acc H; simpl; [exact H|].
  apply IH. apply fold_left_pres; [|exact H]. intros a l2 Ha.
  destruct (all_simple_paths g l1 l2 3); [|exact Ha].
  apply fold_left_pres; [|exact Ha]. intros a' p Ha'.
  destruct p as [|x [|m [|y [|z r]]]]; auto using set_add_nodup.
Qed.

Lemma has_edge_false_w0 g u v : has_edge g u v = false -> edge_weight0 g u v = 0.
Proof. unfold has_edge, edge_weight0. destruct (get_edge_data g u v); [discriminate|reflexivity]. Qed.

Lemma bridge_score_acc g ids b acc :
  fold_left (fun score lens =>
    let score := if negb (String.eqb lens b) && has_edge g lens b
                 then score + edge_weight0 g lens b else score in
    if negb (String.eqb lens b) && has_edge g b lens
    then score + edge_weight0 g b lens else score) ids acc ==
  acc + fold_right Qplus 0 (map (fun l =>
    if String.eqb l b then 0 else edge_weight0 g l b + edge_weight0 g b l) ids).
Proof.
  revert acc. induction ids as [|l ids IH]; intro acc; simpl; [ring|].
  rewrite IH. destruct (String.eqb l b) eqn:E; simpl; [ring|].
  destruct (has_edge g l b) eqn:H1, (has_edge g b l) eqn:H2;
    rewrite ?(has_edge_false_w0 g l b H1), ?(has_edge_false_w0 g b l H2); ring.
Qed.

Lemma bridge_score_sum g ids b :
  bridge_score g ids b ==
  fold_right Qplus 0 (map (fun l =>
    if String.eqb l b then 0 else edge_weight0 g l b + edge_weight0 g b l) ids).
Proof. unfold bridge_score. rewrite bridge_score_acc. ring. Qed.

Lemma sorted_map_fst (f : string -> Q) (P : list (string * Q)) :
  Sorted (desc snd) P -> Forall (fun x => snd x = f (fst x)) P ->
  Sorted (fun a b => f b <= f a) (map fst P).
Proof.
  induction 1 as [|x P Hs IH Hhd]; intro HF; simpl; constructor.
  - inversion HF; subst. now apply IH.
  - inversion Hhd as [|y P' Hxy]; subst; simpl; constructor.
    inversion HF as [|? ? Hx HF']; subst. inversion HF' as [|? ? Hy _]; subst.
    unfold desc in Hxy. rewrite <- Hx, <- Hy. exact Hxy.
Qed.

(** C6 (counterexample): X has curated edges to both A and B (X -> A and
    X -> B), yet [find_bridges [A; B]] is empty: no path runs from A to B
    (or back) through X, so X is no candidate. *)
Lemma bridges_fan_out_missed :
  has_edge g_fan_out "X" "A" = true /\ has_edge g_fan_out "X" "B" = true /\
  bridge_candidates g_fan_out ["A"; "B"] [] = [] /\
  find_bridges (fun l => l) g_fan_out ["A"; "B"] = [].
Proof. vm_compute. repeat split. Qed.

(** C6 (amended): the candidates of [find_bridges ids] are the nodes [b]
    with a simple path [l1 -> b -> c] of two edges, [l1] a node coming
    before [l2] in [ids], and [c] a target of [l2]: [l2] itself when it is a
    node, else one of the one-character nodes named by its characters; the
    candidates have no repetition; a candidate's score is the sum, over the
    members of [ids] other than it, of the weights (0 when missing) of its
    edges to and from that member; the result is the top 5: exactly
    min(5, number of candidates) candidates, in descending score order, no
    candidate left out scoring more than one returned, and every candidate
    is returned when there are at most 5 of them. This holds whatever the
    iteration order of the candidate set. *)
Theorem find_bridges_two_hop_top5 set_iter g ids :
  (forall l, Permutation (set_iter l) l) ->
  (forall b, In b (bridge_candidates g ids []) <->
     exists pre mid post l1 l2, ids = pre ++ l1 :: mid ++ l2 :: post /\ two_hop g l1 l2 b) /\
  NoDup (bridge_candidates g ids []) /\
  (forall b, bridge_score g ids b ==
     fold_right Qplus 0 (map (fun l =>
       if String.eqb l b then 0 else edge_weight0 g l b + edge_weight0 g b l) ids)) /\
  (length (find_bridges set_iter g ids) = Nat.min 5 (length (bridge_candidates g ids [])))%nat /\
  Sorted (fun a b => bridge_score g ids b <= bridge_score g ids a) (find_bridges set_iter g ids) /\
  (forall b, In b (find_bridges set_iter g ids) -> In b (bridge_candidates g ids [])) /\
  (forall b b', In b (bridge_candidates g ids []) -> ~ In b (find_bridges set_iter g ids) ->
     In b' (find_bridges set_iter g ids) -> bridge_score g ids b <= bridge_score g ids b') /\
  ((length (bridge_candidates g ids []) <= 5)%nat ->
     forall b, In b (bridge_candidates g ids []) -> In b (find_bridges set_iter g ids)).
Proof.
  intro Hperm.
  set (cands := bridge_candidates g ids []).
  set (L := map (fun b => (b, bridge_score g ids b)) (set_iter cands)).
  assert (HL : forall x, In x L -> snd x = bridge_score g ids (fst x) /\ In (fst x) cands).
  { intros x Hx. unfold L in Hx. apply in_map_iff in Hx. destruct Hx as [b [<- Hb]].
    split; [reflexivity|]. exact (Permutation_in _ (Hperm cands) Hb). }
  assert (HinL : forall b, In b cands -> In (b, bridge_score g ids b) L).
  { intros b Hb. unfold L. apply in_map_iff. exists b. split; [reflexivity|].
    exact (Permutation_in _ (Permutation_sym (Hperm cands)) Hb). }
  assert (Hres : find_bridges set_iter g ids = map fst (firstn 5 (sort_desc snd L))) by reflexivity.
  rewrite Hres.
  split; [|split; [|split; [|split; [|split; [|split; [|split]]]]]].
  - intro b. unfold cands. rewrite bridge_candidates_in. split; [|now right].
    intros [[]|H]. exact H.
  - apply bridge_candidates_nodup. constructor.
  - intro b. apply bridge_score_sum.
  - rewrite length_map. rewrite (proj1 (top_k_split snd 5 L)). unfold L.
    rewrite length_map, (Permutation_length (Hperm cands)). reflexivity.
  - apply sorted_map_fst; [apply firstn_sorted, sort_desc_sorted|].
    rewrite Forall_forall. intros x Hx. exact (proj1 (HL x (top_k_in _ _ _ _ Hx))).
  - intros b Hb. apply in_map_iff in Hb. destruct Hb as [x [<- Hx]].
    exact (proj2 (HL x (top_k_in _ _ _ _ Hx))).
  - intros b b' Hb Hnb Hb'. apply in_map_iff in Hb'. destruct Hb' as [x' [<- Hx']].
    assert (Hnx : ~ In (b, bridge_score g ids b) (firstn 5 (sort_desc snd L))).
    { intro Hin. apply Hnb. apply in_map_iff. eexists; split; [|exact Hin]. reflexivity. }
    assert (Hle := top_k_sort_desc snd 5 L _ _ (HinL b Hb) Hnx Hx'). simpl in Hle.
    rewrite (proj1 (HL x' (top_k_in _ _ _ _ Hx'))) in Hle. exact Hle.
  - intros Hlen b Hb.
    rewrite firstn_all2.
    + apply in_map_iff. exists (b, bridge_score g ids b). split; [reflexivity|].
      apply (Permutation_in _ (Permutation_sym (sort_desc_perm snd L))). now apply HinL.
    + rewrite (Permutation_length (sort_desc_perm snd L)). unfold L.
      rewrite length_map, (Permutation_length (Hperm cands)). exact Hlen.
Qed.

Lemma find_bridges_two_hop_top5_witness :
  find_bridges (fun l => l) g_chain ["A"; "C"] = ["B"] /\
  In "B" (find_bridges (fun l => l) g_chain ["A"; "C"]).
Proof.
  split; [vm_compute; reflexivity|].
  destruct (find_bridges_two_hop_top5 (fun l => l) g_chain ["A"; "C"]
              (fun l => Permutation_refl l)) as (H1 & _ & _ & _ & _ & _ & _ & H8).
  apply H8; [vm_compute; lia|].
  apply H1. exists [], [], [], "A", "C". split; [reflexivity|].
  unfold two_hop. split; [vm_compute; reflexivity|]. exists "C".
  split; [rewrite targets_of_node by (vm_compute; reflexivity); now left|].
  vm_compute. repeat split; discriminate.
Defined.

(** ** C9: [get_lens_recommendations] *)

Lemma dict_add_val k k' w D :
  fold_right Qplus 0 (map snd (filter (fun p => String.eqb (fst p) k) (dict_add k' w D))) ==
  fold_right Qplus 0 (map snd (filter (fun p => String.eqb (fst p) k) D)) +
  (if String.eqb k' k then w else 0).
Proof.
  induction D as [|[k0 v] D IH]; simpl.
  - destruct (String.eqb k' k); simpl; ring.
  - destruct (String.eqb k0 k') eqn:E0; simpl.
    + apply String.eqb_eq in E0. subst k0. destruct (String.eqb k' k); simpl; ring.
    + destruct (String.eqb k0 k); simpl; rewrite IH; ring.
Qed.

Lemma dict_add_keys k w D x :
  In x (map fst (dict_add k w D)) <-> x = k \/ In x (map fst D).
Proof.
  induction D as [|[k0 v] D IH]; simpl.
  - split; [intros [<-|[]]; now left|intros [->|[]]; now left].
  - destruct (String.eqb k0 k) eqn:E; simpl.
    + apply String.eqb_eq in E. subst k0.
      split; [intros [<-|H]; [now left|right; now right]|intros [->|[<-|H]]; auto].
    + rewrite IH. split; intros [H|[H|H]]; auto.
Qed.

Lemma dict_add_nodup k w D : NoDup (map fst D) -> NoDup (map fst (dict_add k w D)).
Proof.
  induction D as [|[k0 v] D IH]; simpl; intro H.
  - constructor; [intros []|constructor].
  - inversion H as [|? ? Hn Hd]; subst. destruct (String.eqb k0 k) eqn:E; simpl.
    + constructor; assumption.
    + constructor; [|now apply IH]. rewrite dict_add_keys. intros [Hk|Hin].
      * subst k0. rewrite String.eqb_refl in E. discriminate.
      * contradiction.
Qed.

Lemma filter_key_absent k (D : list (string * Q)) :
  ~ In k (map fst D) -> filter (fun q => String.eqb (fst q) k) D = [].
Proof.
  induction D as [|[k0 v] D IH]; simpl; intro H; [reflexivity|].
  destruct (String.eqb k0 k) eqn:E.
  - apply String.eqb_eq in E. subst. tauto.
  - apply IH. tauto.
Qed.

Lemma dict_val_in D p : NoDup (map fst D) -> In p D ->
  snd p == fold_right Qplus 0 (map snd (filter (fun q => String.eqb (fst q) (fst p)) D)).
Proof.
  induction D as [|q D IH]; simpl; [tauto|]. intros Hn Hin.
  inversion Hn as [|? ? Hq Hd]; subst. destruct Hin as [<-|Hin].
  - rewrite String.eqb_refl, filter_key_absent by exact Hq. simpl. ring.
  - assert (Hne : String.eqb (fst q) (fst p) = false).
    { apply String.eqb_neq. intro E. apply Hq. rewrite E. now apply in_map. }
    rewrite Hne. now apply IH.
Qed.

Lemma sum_nodup (f : string -> Q) ns k : NoDup ns ->
  fold_right Qplus 0 (map (fun nb => if String.eqb nb k then f nb else 0) ns) ==
  if mem k ns then f k else 0.
Proof.
  induction ns as [|nb ns IH]; intro H; simpl; [reflexivity|].
  inversion H as [|? ? Hnb Hd]; subst. unfold mem; simpl.
  destruct (String.eqb nb k) eqn:E.
  - apply String.eqb_eq in E. subst nb. rewrite String.eqb_refl. simpl.
    rewrite IH by exact Hd. rewrite (not_in_mem_false k ns Hnb). ring.
  - rewrite String.eqb_sym, E. simpl. rewrite IH by exact Hd. unfold mem. ring.
Qed.

Lemma mem_succ_has_edge g l k : mem k (map fst (succ g l)) = has_edge g l k.
Proof.
  destruct (has_edge g l k) eqn:H.
  - apply has_edge_in, in_succ in H. unfold mem. apply existsb_exists.
    exists k. split; [exact H|apply String.eqb_refl].
  - apply not_in_mem_false. intro Hin. apply succ_in, has_edge_in in Hin. congruence.
Qed.

Lemma rec_inner g ids l ns R :
  (NoDup (map fst R) -> NoDup (map fst (fold_left (fun recs nb =>
      if mem nb ids then recs
      else dict_add nb (match get_edge_data g l nb with
                        | Some d => weight_or (1 # 2) d
                        | None => 1 # 2
                        end) recs) ns R))) /\
  (forall x, In x (map fst (fold_left (fun recs nb =>
      if mem nb ids then recs
      else dict_add nb (match get_edge_data g l nb with
                        | Some d => weight_or (1 # 2) d
                        | None => 1 # 2
                        end) recs) ns R)) <->
     In x (map fst R) \/ (In x ns /\ mem x ids = false)) /\
  (forall k, fold_right Qplus 0 (map snd (filter (fun p => String.eqb (fst p) k)
     (fold_left (fun recs nb =>
        if mem nb ids then recs
        else dict_add nb (match get_edge_data g l nb with
                          | Some d => weight_or (1 # 2) d
                          | None => 1 # 2
                          end) recs) ns R))) ==
     fold_right Qplus 0 (map snd (filter (fun p => String.eqb (fst p) k) R)) +
     (if mem k ids then 0
      else fold_right Qplus 0 (map (fun nb => if String.eqb nb k then
             match get_edge_data g l nb with
             | Some d => weight_or (1 # 2) d
             | None => 1 # 2
             end else 0) ns))).
Proof.
  revert R. induction ns as [|nb ns IH]; intro R; simpl.
  - split; [auto|split].
    + intro x. split; [now left|intros [H|[[] _]]; exact H].
    + intro k. destruct (mem k ids); ring.
  - destruct (IH (if mem nb ids then R else dict_add nb (match get_edge_data g l nb with
                        | Some d => weight_or (1 # 2) d
                        | None => 1 # 2
                        end) R)) as [H1 [H2 H3]].
    split; [|split].
    + intro Hn. apply H1. destruct (mem nb ids); [exact Hn|now apply dict_add_nodup].
    + intro x. rewrite H2. destruct (mem nb ids) eqn:M.
      * split; [intros [H|[Hx Hm]]; [now left|right; auto]|].
        intros [H|[[<-|Hx] Hm]]; [now left|congruence|right; auto].
      * rewrite dict_add_keys.
        split; [intros [[->|H]|[Hx Hm]]; [right; auto|now left|right; auto]|].
        intros [H|[[<-|Hx] Hm]]; [left; now right|left; now left|right; auto].
    + intro k. rewrite H3. destruct (mem nb ids) eqn:M.
      * destruct (String.eqb nb k) eqn:E.
        -- apply String.eqb_eq in E. subst nb. rewrite M. ring.
        -- destruct (mem k ids); ring.
      * rewrite dict_add_val. destruct (mem k ids) eqn:Mk.
        -- destruct (String.eqb nb k) eqn:E; [|ring].
           apply String.eqb_eq in E. subst nb. congruence.
        -- ring.
Qed.

Lemma accumulate_err g ids L e :
  fold_left (fun acc lens_id =>
    recs <- acc ;;
    ns <- neighbors g lens_id ;;
    Ok (fold_left (fun recs nb =>
          if mem nb ids then recs
          else dict_add nb (match get_edge_data g lens_id nb with
                            | Some d => weight_or (1 # 2) d
                            | None => 1 # 2
                            end) recs) ns recs)) L (Err e) = Err e.
Proof. induction L as [|l L IH]; [reflexivity|exact IH]. Qed.

Lemma accumulate_inv g ids L R D :
  (forall l, In l L -> NoDup (map fst (succ g l))) ->
  fold_left (fun acc lens_id =>
    recs <- acc ;;
    ns <- neighbors g lens_id ;;
    Ok (fold_left (fun recs nb =>
          if mem nb ids then recs
          else dict_add nb (match get_edge_data g lens_id nb with
                            | Some d => weight_or (1 # 2) d
                            | None => 1 # 2
                            end) recs) ns recs)) L (Ok R) = Ok D ->
  NoDup (map fst R) ->
  NoDup (map fst D) /\
  (forall x, In x (map fst D) <->
     In x (map fst R) \/ (mem x ids = false /\ exists l, In l L /\ has_edge g l x = true)) /\
  (forall k, fold_right Qplus 0 (map snd (filter (fun p => String.eqb (fst p) k) D)) ==
     fold_right Qplus 0 (map snd (filter (fun p => String.eqb (fst p) k) R)) +
     (if mem k ids then 0
      else fold_right Qplus 0 (map (fun l =>
             match get_edge_data g l k with Some d => weight_or (1 # 2) d | None => 0 end) L))).
Proof.
  revert R. induction L as [|l L IH]; intros R Hnd H HR.
  - simpl in H. inversion H; subst. split; [exact HR|split].
    + intro x. split; [now left|intros [Hx|[_ [l [[] _]]]]; exact Hx].
    + intro k. destruct (mem k ids); simpl; ring.
  - simpl fold_left in H. simpl bind in H.
    destruct (neighbors g l) as [ns|e] eqn:EN; simpl bind in H;
      [|rewrite accumulate_err in H; discriminate].
    assert (Ens : ns = map fst (succ g l))
      by (unfold neighbors in EN; destruct (has_node g l); congruence).
    subst ns.
    destruct (rec_inner g ids l (map fst (succ g l)) R) as [I1 [I2 I3]].
    destruct (IH _ (fun l' Hl' => Hnd l' (or_intror Hl')) H (I1 HR)) as [J1 [J2 J3]].
    split; [exact J1|split].
    + intro x. rewrite J2, I2. split.
      * intros [[Hx|[Hx Hm]]|[Hm [l' [Hl' He]]]];
          [now left| |right; split; [exact Hm|exists l'; split; [now right|exact He]]].
        right. split; [exact Hm|]. exists l. split; [now left|].
        apply has_edge_in, succ_in, Hx.
      * intros [Hx|[Hm [l' [[<-|Hl'] He]]]]; [left; now left| |right; split; [exact Hm|eauto]].
        left. right. split; [|exact Hm]. apply in_succ, has_edge_in, He.
    + intro k. rewrite J3, I3. destruct (mem k ids); [ring|].
      rewrite (sum_nodup _ _ k (Hnd l (or_introl eq_refl))), mem_succ_has_edge. simpl.
      unfold has_edge. destruct (get_edge_data g l k); ring.
Qed.

Lemma in_py_take {A} (x : A) l k : In x (py_take l k) -> In x l.
Proof. unfold py_take. destruct (0 <=? k)%Z; apply in_firstn_in. Qed.

Lemma sorted_py_take {A} (key : A -> Q) l k :
  Sorted (desc key) l -> Sorted (desc key) (py_take l k).
Proof. unfold py_take. destruct (0 <=? k)%Z; apply firstn_sorted. Qed.

Lemma sorted_map {A B} (R : A -> A -> Prop) (R' : B -> B -> Prop) (f : A -> B) l :
  (forall x y, R x y -> R' (f x) (f y)) -> Sorted R l -> Sorted R' (map f l).
Proof.
  intros Hf. induction 1 as [|x l Hs IH Hhd]; simpl; constructor; [exact IH|].
  inversion Hhd; subst; simpl; constructor. now apply Hf.
Qed.

(** C9 (counterexample): B -> A is the only edge, so B is a predecessor of
    A; yet [recommend [A]] recommends nothing, since only the successors of
    the current lenses are looked at. *)
Lemma recommend_ignores_predecessors :
  has_edge g_in "B" "A" = true /\ get_lens_recommendations g_in ["A"] 5 = Ok [].
Proof. vm_compute. split; reflexivity. Qed.

(** C9 (amended): [get_lens_recommendations ids limit] (on a graph with no
    parallel edges out of the current lenses) recommends only successors
    [k] of the current lenses (targets of an edge from one of them) that
    are not current lenses themselves; the score of [k] is the sum, over
    the current lenses, of the weight of their edge to [k] (0.5 when the
    weight is missing, 0 when there is no edge); the recommendations come
    in descending score order and, for [limit >= 0], there are exactly
    min(limit, number of such successors) of them, so at most [limit], and
    no successor left out scores more than one recommended. *)
Theorem recommend_successors_only g ids limit recs :
  (forall l, In l ids -> NoDup (map fst (succ g l))) ->
  get_lens_recommendations g ids limit = Ok recs ->
  (forall r, In r recs ->
     ~ In (r_id r) ids /\ (exists l, In l ids /\ has_edge g l (r_id r) = true) /\
     r_score r == fold_right Qplus 0 (map (fun l =>
       match get_edge_data g l (r_id r) with Some d => weight_or (1 # 2) d | None => 0 end) ids)) /\
  Sorted (fun r1 r2 => r_score r2 <= r_score r1) recs /\
  ((0 <= limit)%Z ->
     (length recs <= Z.to_nat limit)%nat /\
     (forall K, NoDup K ->
        (forall x, In x K <-> ~ In x ids /\ exists l, In l ids /\ has_edge g l x = true) ->
        length recs = Nat.min (Z.to_nat limit) (length K)) /\
     forall k l r, In l ids -> has_edge g l k = true -> ~ In k ids ->
       ~ In k (map r_id recs) -> In r recs ->
       fold_right Qplus 0 (map (fun l =>
         match get_edge_data g l k with Some d => weight_or (1 # 2) d | None => 0 end) ids)
       <= r_score r).
Proof.
  intros Hnd H. unfold get_lens_recommendations in H.
  destruct (accumulate g ids) as [D|e] eqn:EA; [|discriminate].
  simpl in H. inversion H; subst recs. clear H.
  unfold accumulate in EA.
  destruct (accumulate_inv g ids ids [] D Hnd EA (NoDup_nil _)) as [HD [Hkeys Hval]].
  assert (Hscore : forall p, In p D -> snd p ==
            fold_right Qplus 0 (map (fun l =>
              match get_edge_data g l (fst p) with Some d => weight_or (1 # 2) d | None => 0 end) ids)
            /\ mem (fst p) ids = false /\ exists l, In l ids /\ has_edge g l (fst p) = true).
  { intros p Hp. assert (Hk : In (fst p) (map fst D)) by now apply in_map.
    apply Hkeys in Hk. destruct Hk as [[]|[Hm Hex]].
    split; [|split; [exact Hm|exact Hex]].
    rewrite (dict_val_in D p HD Hp), Hval, Hm. simpl. ring. }
  split; [|split].
  - intros r Hr. apply in_map_iff in Hr. destruct Hr as [p [<- Hp]]. simpl.
    apply in_py_take, (Permutation_in _ (sort_desc_perm snd D)), Hscore in Hp.
    destruct Hp as [Hs [Hm Hex]]. split; [exact (mem_false_not_in _ _ Hm)|split; [exact Hex|exact Hs]].
  - eapply sorted_map; [|apply sorted_py_take, sort_desc_sorted].
    intros x y Hxy. exact Hxy.
  - intro Hlim. unfold py_take. replace (0 <=? limit)%Z with true by (symmetry; lia).
    split; [rewrite length_map; apply top_k_length|]. split.
    { intros K HK HKin. rewrite length_map, (proj1 (top_k_split snd _ D)).
      assert (HDK : forall x, In x (map fst D) <-> In x K).
      { intro x. rewrite Hkeys, HKin. simpl. split.
        - intros [[]|[Hm Hex]]. split; [exact (mem_false_not_in _ _ Hm)|exact Hex].
        - intros [Hm Hex]. right. split; [exact (not_in_mem_false _ _ Hm)|exact Hex]. }
      f_equal. rewrite <- (length_map fst D). apply Nat.le_antisymm.
      - apply NoDup_incl_length; [exact HD|intros x Hx; now apply HDK].
      - apply NoDup_incl_length; [exact HK|intros x Hx; now apply HDK]. }
    intros k l r Hl He Hk Hnk Hr.
    apply in_map_iff in Hr. destruct Hr as [p' [<- Hp']]. simpl.
    assert (HkD : In k (map fst D)).
    { apply Hkeys. right. split; [exact (not_in_mem_false _ _ Hk)|eauto]. }
    apply in_map_iff in HkD. destruct HkD as [p0 [Hp0k Hp0]].
    assert (Hnp0 : ~ In p0 (firstn (Z.to_nat limit) (sort_desc snd D))).
    { intro Hin. apply Hnk. rewrite map_map. apply in_map_iff. exists p0. split; [exact Hp0k|exact Hin]. }
    assert (Hle := top_k_sort_desc snd (Z.to_nat limit) D p0 p' Hp0 Hnp0 Hp').
    destruct (Hscore p0 Hp0) as [Hs0 _]. rewrite Hp0k in Hs0.
    rewrite <- Hs0. exact Hle.
Qed.

Lemma recommend_successors_only_witness :
  exists recs, get_lens_recommendations g_in ["B"] 5 = Ok recs /\
    map r_id recs = ["A"] /\ forall r, In r recs -> r_score r == 1 # 2.
Proof.
  assert (Hok : get_lens_recommendations g_in ["B"] 5 =
                Ok (match get_lens_recommendations g_in ["B"] 5 with
                    | Ok l => l | Err _ => [] end)) by (vm_compute; reflexivity).
  exists (match get_lens_recommendations g_in ["B"] 5 with Ok l => l | Err _ => [] end).
  split; [exact Hok|split; [vm_compute; reflexivity|]].
  intros r Hr.
  assert (Hnd : forall l, In l ["B"] -> NoDup (map fst (succ g_in l))).
  { intros l [<-|[]]. vm_compute. constructor; [intros []|constructor]. }
  destruct (recommend_successors_only g_in ["B"] 5 _ Hnd Hok) as [H1 _].
  destruct (H1 r Hr) as (_ & _ & Hs). rewrite Hs.
  assert (Hid : r_id r = "A").
  { vm_compute in Hr. destruct Hr as [<-|[]]. reflexivity. }
  rewrite Hid. vm_compute. reflexivity.
Defined.

(* ================================================================== *)
(** * Further properties of the module *)

(** ** [find_path]: the enumerated paths are exactly the simple paths *)

Lemma find_path_in g s t k p :
  In p (find_path g s t k) ->
  hd_error p = Some s /\ NoDup p /\ is_walk g p /\ In (last p "") (targets_of g t) /\
  (Z.of_nat (length p) <= k + 1)%Z.
Proof.
  unfold find_path. intro H.
  destruct (all_simple_paths g s t k) as [ps|e] eqn:E; [|destruct H].
  apply top_k_in in H. exact (proj1 (all_simple_paths_spec _ _ _ _ _ E p) H).
Qed.

(** A path of the search space makes the result non-empty. *)
Lemma find_path_nonempty g s t k p :
  has_node g s = true -> hd_error p = Some s -> NoDup p -> is_walk g p ->
  In (last p "") (targets_of g t) -> (Z.of_nat (length p) <= k + 1)%Z ->
  find_path g s t k <> [].
Proof.
  intros Hs Hhd Hnd Hw Hl Hk.
  destruct (all_simple_paths_node g s t k Hs) as [ps E].
  assert (Hin : In p ps) by (apply (all_simple_paths_spec _ _ _ _ _ E); auto).
  unfold find_path. rewrite E.
  assert (Hs' : In p (sort_desc (path_weight g) ps))
    by exact (Permutation_in _ (Permutation_sym (sort_desc_perm _ _)) Hin).
  destruct (sort_desc (path_weight g) ps); [destruct Hs'|]. discriminate.
Qed.

Lemma find_path_simple g s t k p :
  In p (find_path g s t k) ->
  hd_error p = Some s /\ NoDup p /\ is_walk g p /\ (Z.of_nat (length p) <= k + 1)%Z /\
  (has_node g t = true -> last p "" = t) /\
  (has_node g t = false ->
     exists c, last p "" = String c EmptyString /\ In c (list_ascii_of_string t)).
Proof.
  unfold find_path. intro H.
  destruct (all_simple_paths g s t k) as [ps|e] eqn:E; [|destruct H].
  apply top_k_in in H. apply (all_simple_paths_spec _ _ _ _ _ E) in H.
  destruct H as (Hhd & Hnd & Hw & Hlast & Hl).
  split; [exact Hhd|split; [exact Hnd|split; [exact Hw|split; [exact Hl|split]]]].
  - intro Ht. rewrite (targets_of_node _ _ Ht) in Hlast. now destruct Hlast as [<-|[]].
  - intro Ht. unfold targets_of in Hlast. rewrite Ht in Hlast.
    apply in_map_iff in Hlast. destruct Hlast as [c [Hc Hin]]. exists c. now split.
Qed.

(** X1: [find_path source target max_length] only returns simple paths of
    the graph from [source] with at most [max_length] edges: each starts at
    [source], has no repeated node and follows edges (the one-node path
    [[source]] when [source] is itself the target). When [target] is a node
    each ends at [target]; when it is not, networkx reads the string as the
    collection of its characters, and each returned path ends at a
    one-character node named by one of them. *)
Theorem find_path_returns_simple_paths g s t k p :
  In p (find_path g s t k) ->
  hd_error p = Some s /\ NoDup p /\ is_walk g p /\ (Z.of_nat (length p) <= k + 1)%Z /\
  (has_node g t = true -> last p "" = t) /\
  (has_node g t = false ->
     exists c, last p "" = String c EmptyString /\ In c (list_ascii_of_string t)).
Proof. exact (find_path_simple g s t k p). Qed.

Lemma find_path_returns_simple_paths_witness :
  In ["A"; "B"; "C"] (find_path g_chain "A" "C" 4) /\ last ["A"; "B"; "C"] "" = "C".
Proof.
  assert (H : In ["A"; "B"; "C"] (find_path g_chain "A" "C" 4)) by (vm_compute; now left).
  split; [exact H|].
  destruct (find_path_returns_simple_paths g_chain "A" "C" 4 _ H) as (_ & _ & _ & _ & Ht & _).
  apply Ht. vm_compute. reflexivity.
Defined.

Lemma find_path_heaviest g s t k p :
  has_node g s = true -> has_node g t = true ->
  hd_error p = Some s -> last p "" = t -> NoDup p -> is_walk g p ->
  (2 <= length p)%nat -> (Z.of_nat (length p) <= k + 1)%Z ->
  find_path g s t k <> [] /\
  (~ In p (find_path g s t k) ->
   forall q, In q (find_path g s t k) -> path_weight g p <= path_weight g q).
Proof.
  intros Hs Ht Hhd Hlast Hnd Hw Hl2 Hlk.
  destruct (all_simple_paths_node g s t k Hs) as [ps E].
  assert (Hin : In p ps).
  { apply (all_simple_paths_spec _ _ _ _ _ E). rewrite (targets_of_node _ _ Ht), Hlast.
    repeat split; auto. now left. }
  unfold find_path. rewrite E. split.
  - assert (Hs' : In p (sort_desc (path_weight g) ps))
      by exact (Permutation_in _ (Permutation_sym (sort_desc_perm _ _)) Hin).
    destruct (sort_desc (path_weight g) ps); [destruct Hs'|]. discriminate.
  - intros Hn r Hr. exact (top_k_sort_desc _ _ _ _ _ Hin Hn Hr).
Qed.

(** X2: Every simple path from [source] to [target] with at most [max_length]
    edges is enumerated: when one exists, [find_path] returns at least one
    path, and a simple path it leaves out weighs no more than any path it
    returns. *)
Theorem find_path_keeps_heaviest g s t k p :
  has_node g s = true -> has_node g t = true ->
  hd_error p = Some s -> last p "" = t -> NoDup p -> is_walk g p ->
  (2 <= length p)%nat -> (Z.of_nat (length p) <= k + 1)%Z ->
  find_path g s t k <> [] /\
  (~ In p (find_path g s t k) ->
   forall q, In q (find_path g s t k) -> path_weight g p <= path_weight g q).
Proof. exact (find_path_heaviest g s t k p). Qed.

Lemma find_path_keeps_heaviest_witness :
  find_path g_four "S" "T" 2 = [["S"; "m1"; "T"]; ["S"; "m2"; "T"]; ["S"; "m3"; "T"]] /\
  forall q, In q (find_path g_four "S" "T" 2) ->
    path_weight g_four ["S"; "m4"; "T"] <= path_weight g_four q.
Proof.
  split; [vm_compute; reflexivity|].
  apply (proj2 (find_path_keeps_heaviest g_four "S" "T" 2 ["S"; "m4"; "T"]
    eq_refl eq_refl eq_refl eq_refl ltac:(repeat constructor; simpl; intuition discriminate)
    ltac:(vm_compute; repeat split) ltac:(simpl; lia) ltac:(simpl; lia))).
  vm_compute. intros [H|[H|[H|[]]]]; discriminate.
Defined.

(** ** [find_contrasts]: both directions, filtered by edge type *)

Lemma pred_in g v u : In u (map fst (pred g v)) <-> exists d, In (u, v, d) (g_edges g).
Proof.
  unfold pred. rewrite map_map. rewrite in_map_iff. split.
  - intros [[[a b] d] [Ha Hin]]. simpl in Ha. subst a.
    apply filter_In in Hin. destruct Hin as [Hin Hb]. apply String.eqb_eq in Hb. subst b. eauto.
  - intros [d Hin]. exists (u, v, d). split; [reflexivity|].
    apply filter_In. split; [exact Hin|apply String.eqb_refl].
Qed.

Lemma get_edge_data_has g u v d : get_edge_data g u v = Some d -> has_edge g u v = true.
Proof. unfold has_edge. now intros ->. Qed.

Lemma contrast_side (g : graph) (l : string) (ns : list string) (ed : string -> option edge_attrs) nb i :
  (forall x, In x ns <-> exists d, ed x = Some d) ->
  In (nb, i) (flat_map (fun x =>
     match ed x with
     | Some d => if is_contrast d then [(x, insight_of d)] else []
     | None => []
     end) ns) <->
  exists d, ed nb = Some d /\ is_contrast d = true /\ insight_of d = i.
Proof.
  intro Hns. rewrite in_flat_map. split.
  - intros [x [Hx Hin]]. destruct (ed x) as [d|] eqn:E; [|destruct Hin].
    destruct (is_contrast d) eqn:C; [|destruct Hin].
    destruct Hin as [Hin|[]]. inversion Hin; subst. eauto.
  - intros [d [E [C I]]]. exists nb. split; [apply Hns; eauto|].
    rewrite E, C. left. now subst.
Qed.

Lemma find_contrasts_spec g l :
  (has_node g l = false -> find_contrasts g l = Err NetworkXError) /\
  (has_node g l = true -> exists res, find_contrasts g l = Ok res /\
     forall nb i, In (nb, i) res <->
       (exists d, get_edge_data g l nb = Some d /\ is_contrast d = true /\ insight_of d = i) \/
       (exists d, get_edge_data g nb l = Some d /\ is_contrast d = true /\ insight_of d = i)).
Proof.
  unfold find_contrasts, neighbors, predecessors. split; intro H; rewrite H; [reflexivity|].
  eexists. split; [reflexivity|]. intros nb i. rewrite in_app_iff.
  rewrite (contrast_side g l (map fst (succ g l)) (fun x => get_edge_data g l x)),
          (contrast_side g l (map fst (pred g l)) (fun x => get_edge_data g x l)).
  - reflexivity.
  - intro x. rewrite pred_in, <- has_edge_in. unfold has_edge.
    destruct (get_edge_data g x l); split; eauto; [discriminate|intros [d E]; discriminate].
  - intro x. split; [intro Hx; apply succ_in, has_edge_in in Hx|intros [d E];
      apply in_succ, has_edge_in; exact (get_edge_data_has _ _ _ _ E)].
    unfold has_edge in Hx. destruct (get_edge_data g l x); [eauto|discriminate].
Qed.

(** X3: [find_contrasts lens_id] raises [NetworkXError] for a lens absent from
    the graph; otherwise it lists exactly the pairs [(other, insight)] for
    the edges [lens_id -> other] and [other -> lens_id] whose type is
    'contrast' or 'paradox', with the edge's insight ('' when missing). *)
Theorem find_contrasts_both_directions g l :
  (has_node g l = false -> find_contrasts g l = Err NetworkXError) /\
  (has_node g l = true -> exists res, find_contrasts g l = Ok res /\
     forall nb i, In (nb, i) res <->
       (exists d, get_edge_data g l nb = Some d /\ is_contrast d = true /\ insight_of d = i) \/
       (exists d, get_edge_data g nb l = Some d /\ is_contrast d = true /\ insight_of d = i)).
Proof. exact (find_contrasts_spec g l). Qed.

(** ** [get_lens_neighborhood]: each node listed once, never the start *)

Lemma concat_assoc_append {K} (eqk : K -> K -> bool) k x (d : list (K * list string)) :
  Permutation (concat (map snd (assoc_append eqk k x d))) (x :: concat (map snd d)).
Proof.
  induction d as [|[k' xs] d IH]; simpl; [rewrite ?app_nil_r; apply Permutation_refl|].
  destruct (eqk k' k); simpl.
  - rewrite <- app_assoc. simpl. apply Permutation_sym, Permutation_middle.
  - eapply perm_trans; [apply Permutation_app_head, IH|].
    apply Permutation_sym, Permutation_middle.
Qed.

Lemma explore_distinct g n current depth ns q vis nb q' vis' nb' :
  fold_left (explore g current depth) ns (q, vis, nb) = (q', vis', nb') ->
  In n vis -> NoDup (concat (map snd nb)) ->
  (forall x, In x (concat (map snd nb)) -> In x vis /\ x <> n) ->
  In n vis' /\ NoDup (concat (map snd nb')) /\
  (forall x, In x (concat (map snd nb')) -> In x vis' /\ x <> n).
Proof.
  revert q vis nb. induction ns as [|v ns IH]; intros q vis nb Hf Hn Hnd Hsub.
  - simpl in Hf. inversion Hf; subst. auto.
  - simpl in Hf. destruct (mem v vis) eqn:M.
    + exact (IH _ _ _ Hf Hn Hnd Hsub).
    + apply mem_false_not_in in M. apply (IH _ _ _ Hf).
      * now right.
      * apply (Permutation_NoDup (Permutation_sym (concat_assoc_append _ _ _ _))).
        constructor; [intro Hin; apply M, (Hsub v Hin)|exact Hnd].
      * intros x Hx. apply (Permutation_in _ (concat_assoc_append _ _ _ _)) in Hx.
        destruct Hx as [<-|Hx]; [split; [now left|intros ->; contradiction]|].
        destruct (Hsub x Hx) as [H1 H2]. split; [now right|exact H2].
Qed.

Lemma bfs_distinct g n radius fuel q vis nb res :
  bfs g radius fuel q vis nb = Ok res ->
  In n vis -> NoDup (concat (map snd nb)) ->
  (forall x, In x (concat (map snd nb)) -> In x vis /\ x <> n) ->
  NoDup (concat (map snd res)) /\ ~ In n (concat (map snd res)).
Proof.
  revert q vis nb. induction fuel as [|fuel IH]; intros q vis nb Hb Hn Hnd Hsub; simpl in Hb.
  - inversion Hb; subst. split; [exact Hnd|intro Hin; now apply (Hsub n Hin)].
  - destruct q as [|[current depth] q'].
    + inversion Hb; subst. split; [exact Hnd|intro Hin; now apply (Hsub n Hin)].
    + destruct (radius <=? depth)%Z; [exact (IH _ _ _ Hb Hn Hnd Hsub)|].
      destruct (neighbors g current) as [ns|e]; simpl in Hb; [|discriminate].
      destruct (fold_left (explore g current depth) ns (q', vis, nb)) as [[q2 vis2] nb2] eqn:Ef.
      destruct (explore_distinct _ _ _ _ _ _ _ _ _ _ _ Ef Hn Hnd Hsub) as [H1 [H2 H3]].
      exact (IH _ _ _ Hb H1 H2 H3).
Qed.

(** X4: The neighborhood of a lens lists every node at most once over all its
    edge types, and never the lens itself. *)
Theorem neighborhood_distinct g n radius res :
  get_lens_neighborhood g n radius = Ok res ->
  NoDup (concat (map snd res)) /\ ~ In n (concat (map snd res)).
Proof.
  intro H. apply (bfs_distinct _ _ _ _ _ _ _ _ H); [now left|constructor|intros x []].
Qed.

Lemma neighborhood_distinct_witness :
  get_lens_neighborhood g_four "S" 2 =
    Ok [("curated", ["m1"; "m2"; "m3"; "m4"; "T"])] /\
  NoDup ["m1"; "m2"; "m3"; "m4"; "T"] /\ ~ In "S" ["m1"; "m2"; "m3"; "m4"; "T"].
Proof.
  assert (H : get_lens_neighborhood g_four "S" 2 =
    Ok [("curated", ["m1"; "m2"; "m3"; "m4"; "T"])]) by (vm_compute; reflexivity).
  split; [exact H|exact (neighborhood_distinct _ _ _ _ H)].
Defined.

(** X5: With [radius <= 0], [get_lens_neighborhood] returns an empty dict
    without looking the lens up, even for a lens absent from the graph;
    with [radius >= 1] an absent lens raises [NetworkXError]. *)
Theorem neighborhood_radius_edge g n radius :
  ((radius <= 0)%Z -> get_lens_neighborhood g n radius = Ok []) /\
  ((1 <= radius)%Z -> has_node g n = false -> get_lens_neighborhood g n radius = Err NetworkXError).
Proof.
  unfold get_lens_neighborhood. simpl. split.
  - intro Hr. replace (radius <=? 0)%Z with true by (symmetry; lia).
    destruct (length (g_edges g)); reflexivity.
  - intros Hr Hn. replace (radius <=? 0)%Z with false by (symmetry; lia).
    unfold neighbors. rewrite Hn. reflexivity.
Qed.

(** ** [nx.shortest_path]: the path returned follows the edges *)

Lemma dict_get_set {V} k k' (v : V) d :
  dict_get k (dict_set k' v d) = if String.eqb k' k then Some v else dict_get k d.
Proof.
  unfold dict_get. induction d as [|[k0 v0] d IH]; simpl.
  - destruct (String.eqb k' k); reflexivity.
  - destruct (String.eqb k0 k') eqn:E0; simpl.
    + apply String.eqb_eq in E0. subst k0. destruct (String.eqb k' k); reflexivity.
    + rewrite IH. destruct (String.eqb k0 k) eqn:E1; [|reflexivity].
      apply String.eqb_eq in E1. subst k0.
      destruct (String.eqb k' k) eqn:E2; [|reflexivity].
      apply String.eqb_eq in E2. subst. rewrite String.eqb_refl in E0. discriminate.
Qed.

Lemma last_app_ne (p r : list string) d : r <> [] -> last (p ++ r) d = last r d.
Proof.
  intro Hr. induction p as [|a p IH]; [reflexivity|].
  change ((a :: p) ++ r) with (a :: (p ++ r)). rewrite last_cons_ne; [exact IH|].
  destruct p, r; simpl; congruence.
Qed.

Lemma is_walk_app g p r :
  p <> [] -> is_walk g p -> is_walk g (last p "" :: r) -> is_walk g (p ++ r).
Proof.
  induction p as [|a p IH]; intros Hne Hp Hr; [congruence|].
  destruct p as [|b p].
  - simpl in *. exact Hr.
  - destruct Hp as [Hab Hp]. change ((a :: b :: p) ++ r) with (a :: ((b :: p) ++ r)).
    simpl. split; [exact Hab|]. apply IH; [discriminate|exact Hp|exact Hr].
Qed.

Lemma is_walk_snoc g p w :
  p <> [] -> is_walk g p -> has_edge g (last p "") w = true -> is_walk g (p ++ [w]).
Proof. intros Hne Hp He. apply is_walk_app; [exact Hne|exact Hp|simpl; auto]. Qed.

Lemma rev_last (p : list string) : p <> [] -> rev p = last p "" :: tl (rev p).
Proof.
  intro Hne. destruct (exists_last Hne) as [l [x ->]].
  rewrite rev_app_distr, last_last. reflexivity.
Qed.

Lemma last_rev_hd (p : list string) x : hd_error p = Some x -> last (rev p) "" = x.
Proof. destruct p as [|a p]; [discriminate|]. simpl. intro H; inversion H; subst. apply last_last. Qed.

Lemma join_walk g p0 p1 w s t :
  hd_error p0 = Some s -> last p0 "" = w -> is_walk g p0 ->
  hd_error p1 = Some t -> last p1 "" = w -> is_walk g (rev p1) ->
  hd_error (p0 ++ tl (rev p1)) = Some s /\ last (p0 ++ tl (rev p1)) "" = t /\
  is_walk g (p0 ++ tl (rev p1)).
Proof.
  intros H0 L0 W0 H1 L1 W1.
  assert (N0 : p0 <> []) by (intros ->; discriminate).
  assert (N1 : p1 <> []) by (intros ->; discriminate).
  assert (R : rev p1 = w :: tl (rev p1)) by (rewrite <- L1; now apply rev_last).
  assert (T : last (rev p1) "" = t) by now apply last_rev_hd.
  split; [destruct p0; [congruence|exact H0]|split].
  - rewrite R in T. destruct (tl (rev p1)) as [|x r] eqn:E.
    + rewrite app_nil_r. simpl in T. congruence.
    + rewrite last_app_ne by discriminate. rewrite last_cons_ne in T by discriminate. exact T.
  - apply is_walk_app; [exact N0|exact W0|]. rewrite L0, <- R. exact W1.
Qed.

Lemma hmin_in (l : list hentry) e : hmin l = Some e -> In e l.
Proof.
  unfold hmin.
  assert (G : forall (l : list hentry) (m : option hentry),
             fold_left (fun (m : option hentry) (e : hentry) => match m with
                        | None => Some e
                        | Some m' => if hlt e m' then Some e else Some m'
                        end) l m = Some e -> m = Some e \/ In e l).
  { induction l0 as [|x l0 IH]; intros m H; simpl in H; [now left|].
    destruct (IH _ H) as [Hm|Hin]; [|now right; right].
    destruct m as [m'|]; [destruct (hlt x m')|]; inversion Hm; subst; auto with datatypes. }
  intro H. destruct (G l None H) as [Hn|Hin]; [discriminate|exact Hin].
Qed.

Lemma heappop_in l e fr :
  heappop l = Some (e, fr) -> In e l /\ (forall x, In x fr -> In x l).
Proof.
  unfold heappop. destruct (hmin l) as [[[d c] v]|] eqn:H; [|discriminate].
  intro E. injection E as <- <-. split; [now apply hmin_in|].
  intros x Hx. apply filter_In in Hx. exact (proj1 Hx).
Qed.

Lemma get_set_side st d s d' :
  get_side (set_side st d s) d' = if Bool.eqb d d' then s else get_side st d'.
Proof. destruct d, d'; reflexivity. Qed.

Lemma bd_ok_get g src tgt st (d : bool) :
  bd_ok g src tgt st -> side_ok g (if d then tgt else src) d (get_side st d).
Proof. intros [Hf [Hb _]]. destruct d; assumption. Qed.

Lemma bd_ok_set g src tgt st (d : bool) s :
  bd_ok g src tgt st -> side_ok g (if d then tgt else src) d s -> bd_ok g src tgt (set_side st d s).
Proof. intros [Hf [Hb Hfin]] Hs. destruct d; unfold bd_ok; simpl; auto. Qed.

Lemma side_sub g r d s ds fr :
  side_ok g r d s -> (forall x, In x fr -> In x (s_fringe s)) ->
  side_ok g r d {| s_dists := ds; s_seen := s_seen s; s_paths := s_paths s; s_fringe := fr |}.
Proof. intros [Hp [Hs Hf]] Hsub. split; [exact Hp|split; [exact Hs|]]. intros e He. exact (Hf e (Hsub e He)). Qed.

Lemma side_relax g root (dir : bool) s v w vw c pv :
  side_ok g root dir s -> dict_get v (s_paths s) = Some pv ->
  (if dir then has_edge g w v else has_edge g v w) = true ->
  side_ok g root dir {| s_dists := s_dists s; s_seen := dict_set w vw (s_seen s);
                        s_paths := dict_set w (pv ++ [w]) (s_paths s);
                        s_fringe := (vw, c, w) :: s_fringe s |}.
Proof.
  intros [Hp [Hs Hf]] Hpv He.
  destruct (Hp _ _ Hpv) as [Hh [Hl Hw]].
  assert (Hne : pv <> []) by (intros ->; discriminate).
  assert (Hnew : hd_error (pv ++ [w]) = Some root /\ last (pv ++ [w]) "" = w /\
                 is_walk g (if dir then rev (pv ++ [w]) else pv ++ [w])).
  { split; [destruct pv; [congruence|exact Hh]|split; [apply last_last|]].
    destruct dir.
    - rewrite rev_app_distr. rewrite (rev_last pv Hne) in Hw |- *. simpl.
      split; [rewrite Hl; exact He|exact Hw].
    - apply is_walk_snoc; [exact Hne|exact Hw|rewrite Hl; exact He]. }
  split; [|split]; simpl.
  - intros k p. rewrite dict_get_set. destruct (String.eqb w k) eqn:E.
    + apply String.eqb_eq in E. subst k. intro H. injection H as <-. exact Hnew.
    + apply Hp.
  - intros k c0. rewrite !dict_get_set. destruct (String.eqb w k); [eauto|apply Hs].
  - intros e [<-|Hin].
    + simpl. rewrite dict_get_set, String.eqb_refl. eauto.
    + destruct (Hf e Hin) as [p Hp']. rewrite dict_get_set. destruct (String.eqb w (snd e)); eauto.
Qed.

Lemma relax_side dir v w vw st d :
  get_side (relax dir v w vw st) d =
  if Bool.eqb dir d then
    {| s_dists := s_dists (get_side st dir); s_seen := dict_set w vw (s_seen (get_side st dir));
       s_paths := dict_set w ((match dict_get v (s_paths (get_side st dir)) with
                               Some p => p | None => [] end) ++ [w]) (s_paths (get_side st dir));
       s_fringe := (vw, bd_count st, w) :: s_fringe (get_side st dir) |}
  else get_side st d.
Proof.
  unfold relax. destruct dir, d; cbv zeta; cbn [Bool.eqb];
  repeat match goal with |- context [match ?x with _ => _ end] =>
    lazymatch x with
    | dict_get _ (s_paths _) => fail
    | _ => destruct x
    end end; reflexivity.
Qed.

Lemma relax_ok g src tgt (dir : bool) v w vw st :
  bd_ok g src tgt st ->
  (if dir then has_edge g w v else has_edge g v w) = true ->
  (exists p, dict_get v (s_paths (get_side st dir)) = Some p) ->
  bd_ok g src tgt (relax dir v w vw st).
Proof.
  intros Hok He [pv Hpv].
  assert (Hs : forall d : bool, side_ok g (if d then tgt else src) d (get_side (relax dir v w vw st) d)).
  { intro d. rewrite relax_side. destruct (Bool.eqb dir d) eqn:E; [|now apply bd_ok_get].
    apply Bool.eqb_prop in E. subst d. rewrite Hpv.
    apply (side_relax g _ dir (get_side st dir) v w vw (bd_count st) pv);
      [apply bd_ok_get; exact Hok|exact Hpv|exact He]. }
  assert (Hf : side_ok g src false (bd_fwd (relax dir v w vw st))) by exact (Hs false).
  assert (Hb : side_ok g tgt true (bd_bwd (relax dir v w vw st))) by exact (Hs true).
  split; [exact Hf|split; [exact Hb|]].
  destruct Hok as [_ [_ Hfin]].
  revert Hf Hb. unfold relax. cbv zeta.
  destruct (dict_get w (s_seen (bd_fwd _))) as [d0|] eqn:E0; [|intros _ _ c p Hc; apply (Hfin c p); destruct dir; exact Hc].
  destruct (dict_get w (s_seen (bd_bwd _))) as [d1|] eqn:E1; [|intros _ _ c p Hc; apply (Hfin c p); destruct dir; exact Hc].
  destruct (match bd_final _ with None => true | Some (fd, _) => _ end);
    [|intros _ _ c p Hc; apply (Hfin c p); destruct dir; exact Hc].
  simpl. intros [Pf [Sf _]] [Pb [Sb _]] c p H. injection H as _ <-.
  simpl in E0, E1.
  destruct (Sf _ _ E0) as [p0 Ep0]. destruct (Sb _ _ E1) as [p1 Ep1].
  simpl in Ep0, Ep1. rewrite Ep0, Ep1.
  destruct (Pf _ _ Ep0) as [H0 [L0 W0]]. destruct (Pb _ _ Ep1) as [H1 [L1 W1]].
  exact (join_walk g p0 p1 w src tgt H0 L0 W0 H1 L1 W1).
Qed.

Lemma relax_keeps_path dir v w vw st d k :
  (exists p, dict_get k (s_paths (get_side st d)) = Some p) ->
  exists p, dict_get k (s_paths (get_side (relax dir v w vw st) d)) = Some p.
Proof.
  intros [p Hp]. rewrite relax_side. destruct (Bool.eqb dir d) eqn:E; [|eauto].
  apply Bool.eqb_prop in E. subst d. simpl. rewrite dict_get_set.
  destruct (String.eqb w k); eauto.
Qed.

Lemma neighbour_edge g (dir : bool) v w d :
  In (w, d) (if dir then pred g v else succ g v) ->
  (if dir then has_edge g w v else has_edge g v w) = true.
Proof.
  intro H. apply (in_map fst) in H. simpl in H.
  destruct dir; apply has_edge_in; [now apply pred_in|now apply succ_in].
Qed.

Lemma scan_edges_ok g src tgt weight (dir : bool) v dist l st st' :
  bd_ok g src tgt st ->
  (forall wd, In wd l -> In wd (if dir then pred g v else succ g v)) ->
  (exists p, dict_get v (s_paths (get_side st dir)) = Some p) ->
  scan_edges weight dir v dist st l = Ok st' ->
  bd_ok g src tgt st' /\ exists p, dict_get v (s_paths (get_side st' dir)) = Some p.
Proof.
  revert st. induction l as [|[w d] l IH]; intros st Hok Hl Hv H; cbn [scan_edges] in H.
  - injection H as <-. now split.
  - destruct (scan_edge weight dir v dist st (w, d)) as [st1|e] eqn:E; simpl in H; [|discriminate].
    assert (Hst1 : bd_ok g src tgt st1 /\ exists p, dict_get v (s_paths (get_side st1 dir)) = Some p).
    { pose proof (neighbour_edge g dir v w d (Hl _ (or_introl eq_refl))) as He.
      unfold scan_edge in E. destruct (weight d) as [cost|e]; simpl in E; [|discriminate].
      destruct (dict_get w (s_dists (get_side st dir))) as [dw|].
      - destruct (Qltb (dist + cost) dw); [discriminate|]. injection E as <-. now split.
      - destruct (dict_get w (s_seen (get_side st dir))) as [sw|];
          [destruct (Qltb (dist + cost) sw)|];
          injection E as <-;
          try (split; [now apply relax_ok|now apply relax_keeps_path]).
        now split. }
    destruct Hst1 as [Hok1 Hv1].
    apply (IH st1 Hok1); [intros wd Hwd; apply Hl; now right|exact Hv1|exact H].
Qed.

Lemma bd_loop_ok g weight src tgt fuel dir st c p :
  bd_ok g src tgt st -> bd_loop g weight fuel dir st = Ok (c, p) ->
  hd_error p = Some src /\ last p "" = tgt /\ is_walk g p.
Proof.
  revert dir st. induction fuel as [|f IH]; intros dir st Hok H; [discriminate|].
  cbn [bd_loop] in H.
  destruct (s_fringe (bd_fwd st)) eqn:F1; [discriminate|].
  destruct (s_fringe (bd_bwd st)) eqn:F2; [discriminate|].
  cbv zeta in H.
  destruct (heappop (s_fringe (get_side st (negb dir)))) as [[[[dist c0] v] fr]|] eqn:Hpop;
    [|discriminate].
  apply heappop_in in Hpop. destruct Hpop as [Hin Hsub].
  pose proof (bd_ok_get g src tgt st (negb dir) Hok) as Hside.
  assert (Hv : exists p, dict_get v (s_paths (get_side st (negb dir))) = Some p)
    by exact (proj2 (proj2 Hside) _ Hin).
  set (s1 := {| s_dists := s_dists (get_side st (negb dir)); s_seen := s_seen (get_side st (negb dir));
                s_paths := s_paths (get_side st (negb dir)); s_fringe := fr |}) in H.
  assert (Hok1 : bd_ok g src tgt (set_side st (negb dir) s1))
    by (apply bd_ok_set; [exact Hok|apply side_sub; [exact Hside|exact Hsub]]).
  destruct (dict_get v (s_dists s1)) eqn:D1; [exact (IH _ _ Hok1 H)|].
  set (s2 := {| s_dists := dict_set v dist (s_dists s1); s_seen := s_seen s1;
                s_paths := s_paths s1; s_fringe := s_fringe s1 |}) in H.
  assert (Hok2 : bd_ok g src tgt (set_side (set_side st (negb dir) s1) (negb dir) s2)).
  { apply bd_ok_set; [exact Hok1|]. apply side_sub; [|auto].
    pose proof (bd_ok_get g src tgt _ (negb dir) Hok1) as Hs1.
    rewrite get_set_side, Bool.eqb_reflx in Hs1. exact Hs1. }
  destruct (dict_get v (s_dists (get_side (set_side (set_side st (negb dir) s1) (negb dir) s2)
                                           (negb (negb dir))))) eqn:D2.
  - destruct (bd_final (set_side (set_side st (negb dir) s1) (negb dir) s2)) as [r|] eqn:Fin;
      [|discriminate].
    injection H as ->. destruct Hok2 as [_ [_ Hfin]]. exact (Hfin c p Fin).
  - destruct (scan_edges weight (negb dir) v dist _ _) as [st3|e] eqn:Sc; simpl in H; [|discriminate].
    apply (scan_edges_ok g src tgt) in Sc; [|exact Hok2|auto|].
    + exact (IH _ _ (proj1 Sc) H).
    + rewrite !get_set_side, Bool.eqb_reflx. exact Hv.
Qed.

Lemma shortest_path_walk g s t weight p :
  shortest_path g s t weight = Ok p ->
  hd_error p = Some s /\ last p "" = t /\ is_walk g p.
Proof.
  unfold shortest_path, bidirectional_dijkstra.
  destruct (has_node g s), (has_node g t); cbn [negb]; try discriminate.
  destruct (String.eqb s t) eqn:E.
  - intro H. injection H as <-. apply String.eqb_eq in E. subst. simpl. auto.
  - match goal with |- context [bd_loop ?a1 ?a2 ?a3 ?a4 ?a5] =>
      destruct (bd_loop a1 a2 a3 a4 a5) as [[c q]|e] eqn:L end; cbn [bind]; [|discriminate].
    intro H. injection H as <-. eapply bd_loop_ok; [|exact L].
    assert (Init : forall r (b : nat) (dir : bool), side_ok g r dir
              {| s_dists := []; s_seen := [(r, 0)]; s_paths := [(r, [r])];
                 s_fringe := [(0, b, r)] |}).
    { intros r b dir. split; [|split]; simpl.
      - intros k p. unfold dict_get. simpl. destruct (String.eqb r k) eqn:Er; [|discriminate].
        apply String.eqb_eq in Er. subst k. intro H. injection H as <-.
        destruct dir; simpl; auto.
      - intros k c0. unfold dict_get. simpl. destruct (String.eqb r k) eqn:Er; [|discriminate].
        intros _. eauto.
      - intros e [<-|[]]. simpl. unfold dict_get. simpl. rewrite String.eqb_refl. eauto. }
    split; [apply (Init s 0%nat)|split; [apply (Init t 1%nat)|]]. simpl. discriminate.
Qed.

(** X6: whatever [nx.shortest_path] returns, for any weight function, is a
    walk along the edges of the graph from [s] to [t]. *)
Theorem shortest_path_is_walk g s t weight p :
  shortest_path g s t weight = Ok p ->
  hd_error p = Some s /\ last p "" = t /\ is_walk g p.
Proof. exact (shortest_path_walk g s t weight p). Qed.

Lemma shortest_path_is_walk_witness :
  shortest_path g_chain "A" "C" journey_weight = Ok ["A"; "B"; "C"] /\
  hd_error ["A"; "B"; "C"] = Some "A" /\ last ["A"; "B"; "C"] "" = "C" /\
  is_walk g_chain ["A"; "B"; "C"].
Proof.
  assert (H : shortest_path g_chain "A" "C" journey_weight = Ok ["A"; "B"; "C"]) by (vm_compute; reflexivity).
  exact (conj H (shortest_path_is_walk g_chain "A" "C" journey_weight _ H)).
Defined.

(** ** [LensGraph.suggest_lens_journey]: what a journey is *)






(** ** [GraphEnhancedRetrieval.get_lens_recommendations]: when it raises *)

Lemma accumulate_cases g ids L R :
  ((forall l, In l L -> has_node g l = true) ->
   exists D, fold_left (fun acc lens_id =>
    recs <- acc ;;
    ns <- neighbors g lens_id ;;
    Ok (fold_left (fun recs nb =>
          if mem nb ids then recs
          else dict_add nb (match get_edge_data g lens_id nb with
                            | Some d => weight_or (1 # 2) d
                            | None => 1 # 2
                            end) recs) ns recs)) L (Ok R) = Ok D) /\
  ((exists l, In l L /\ has_node g l = false) ->
   fold_left (fun acc lens_id =>
    recs <- acc ;;
    ns <- neighbors g lens_id ;;
    Ok (fold_left (fun recs nb =>
          if mem nb ids then recs
          else dict_add nb (match get_edge_data g lens_id nb with
                            | Some d => weight_or (1 # 2) d
                            | None => 1 # 2
                            end) recs) ns recs)) L (Ok R) = Err NetworkXError).
Proof.
  revert R. induction L as [|l L IH]; intro R; split.
  - intros _. exists R. reflexivity.
  - intros [x [[] _]].
  - intro Hall. cbn [fold_left bind].
    assert (En : neighbors g l = Ok (map fst (succ g l)))
      by (unfold neighbors; now rewrite (Hall l (or_introl eq_refl))).
    rewrite En. cbn [bind].
    apply IH. intros x Hx. apply Hall. now right.
  - intros [x [[<-|Hx] Hn]]; cbn [fold_left bind].
    + assert (En : neighbors g l = Err NetworkXError) by (unfold neighbors; now rewrite Hn).
      rewrite En. cbn [bind]. apply accumulate_err.
    + destruct (neighbors g l) as [ns|e] eqn:En; cbn [bind].
      * apply IH. eauto.
      * unfold neighbors in En. destruct (has_node g l); [discriminate|].
        injection En as <-. apply accumulate_err.
Qed.

(** X9: [get_lens_recommendations] raises [NetworkXError] exactly when one
    of the current ids is not a node (from [self.graph.neighbors]); when
    all are nodes it returns a list. *)
Theorem recommendations_raise_iff_absent g ids limit :
  ((forall l, In l ids -> has_node g l = true) ->
   exists recs, get_lens_recommendations g ids limit = Ok recs) /\
  ((exists l, In l ids /\ has_node g l = false) ->
   get_lens_recommendations g ids limit = Err NetworkXError).
Proof.
  unfold get_lens_recommendations, accumulate.
  destruct (accumulate_cases g ids ids []) as [Hok Herr]. split.
  - intro Hall. destruct (Hok Hall) as [D HD]. rewrite HD. cbn [bind]. eauto.
  - intro Hex. rewrite (Herr Hex). reflexivity.
Qed.

(** ** [LensGraph.get_central_lenses]: the ten best of one centrality *)



(** ** Construction: what each step leaves in the graph *)

Ltac eqb_cases :=
  repeat match goal with
  | H : String.eqb _ _ = true |- _ => apply String.eqb_eq in H; subst
  end;
  repeat match goal with
  | H : String.eqb ?a ?a = false |- _ => rewrite String.eqb_refl in H; discriminate
  end.

Lemma lookup_edges_update l u v a x y :
  lookup_edges (map (fun e => match e with (p, q, d) =>
                   if String.eqb p u && String.eqb q v then (p, q, attrs_update d a) else e end) l) x y =
  if String.eqb u x && String.eqb v y then option_map (fun d => attrs_update d a) (lookup_edges l u v)
  else lookup_edges l x y.
Proof.
  induction l as [|[[p q] d] l IH]; simpl.
  - destruct (String.eqb u x && String.eqb v y); reflexivity.
  - unfold lookup_edges in *. simpl.
    destruct (String.eqb p u) eqn:Pu, (String.eqb q v) eqn:Qv; simpl;
    destruct (String.eqb p x) eqn:Px, (String.eqb q y) eqn:Qy; simpl;
    destruct (String.eqb u x) eqn:Ux, (String.eqb v y) eqn:Vy; simpl;
    rewrite ?IH; eqb_cases; rewrite ?String.eqb_refl in *; simpl; try reflexivity;
    try discriminate; try congruence.
Qed.

Lemma get_edge_data_add_edge g u v a x y :
  get_edge_data (add_edge g u v a) x y =
  if String.eqb u x && String.eqb v y
  then Some (match get_edge_data g u v with Some d => attrs_update d a | None => a end)
  else get_edge_data g x y.
Proof.
  unfold add_edge.
  set (g1 := ensure_node (ensure_node g u) v).
  assert (E1 : g_edges g1 = g_edges g) by (unfold g1; now rewrite !ensure_node_edges).
  rewrite (has_edge_edges g g1 u v E1). unfold has_edge.
  rewrite !get_edge_data_lookup. simpl. rewrite E1.
  destruct (lookup_edges (g_edges g) u v) as [d|] eqn:L.
  - cbn [g_edges]. rewrite lookup_edges_update, L. reflexivity.
  - cbn [g_edges]. rewrite lookup_edges_app.
    destruct (String.eqb u x) eqn:Ux, (String.eqb v y) eqn:Vy; simpl; eqb_cases;
      rewrite ?L; unfold lookup_edges; simpl; rewrite ?Ux, ?Vy, ?String.eqb_refl; simpl;
      try reflexivity;
      destruct (find _ (g_edges g)) as [[[? ?] ?]|]; reflexivity.
Qed.

Lemma load_lenses_edges doc g : g_edges (_load_lenses doc g) = g_edges g.
Proof.
  destruct doc as [lenses|]; [|reflexivity]. simpl. revert g.
  induction lenses as [|l lenses IH]; intro g; [reflexivity|].
  simpl. rewrite IH. unfold add_node. now destruct (has_node g (l_id l)).
Qed.

Lemma attrs_update_curated d c :
  e_frame d = None -> e_episodes d = None -> e_shared_concept d = None ->
  attrs_update d (curated_attrs c) = curated_attrs c.
Proof. destruct d; simpl; intros -> -> ->; reflexivity. Qed.

Lemma load_conns_plain conns g :
  (forall x y d, get_edge_data g x y = Some d ->
     e_frame d = None /\ e_episodes d = None /\ e_shared_concept d = None) ->
  forall x y d,
    get_edge_data (fold_left (fun g c => add_edge g (c_source c) (c_target c) (curated_attrs c))
                             conns g) x y = Some d ->
    e_frame d = None /\ e_episodes d = None /\ e_shared_concept d = None.
Proof.
  revert g. induction conns as [|c conns IH]; intros g Hg; simpl; [exact Hg|].
  apply IH. intros x y d. rewrite get_edge_data_add_edge.
  destruct (String.eqb (c_source c) x && String.eqb (c_target c) y); [|apply Hg].
  intro E. injection E as <-.
  destruct (get_edge_data g (c_source c) (c_target c)) as [d0|] eqn:E0.
  - destruct (Hg _ _ _ E0) as [F [Ep S]]. rewrite attrs_update_curated by assumption.
    simpl. auto.
  - simpl. auto.
Qed.

Lemma load_conns_other conns g u v :
  (forall c', In c' conns -> ~ (c_source c' = u /\ c_target c' = v)) ->
  get_edge_data (fold_left (fun g c => add_edge g (c_source c) (c_target c) (curated_attrs c))
                           conns g) u v = get_edge_data g u v.
Proof.
  revert g. induction conns as [|c conns IH]; intros g H; simpl; [reflexivity|].
  rewrite IH by (intros; apply H; now right).
  rewrite get_edge_data_add_edge.
  destruct (String.eqb (c_source c) u) eqn:Eu, (String.eqb (c_target c) v) eqn:Ev;
    simpl; try reflexivity.
  apply String.eqb_eq in Eu, Ev. exfalso. apply (H c); [now left|auto].
Qed.

Lemma build_keeps set_iter g u v d :
  get_edge_data g u v = Some d -> get_edge_data (_build_graph set_iter g) u v = Some d.
Proof.
  intro H. unfold _build_graph.
  apply (fresh_ext_keeps _ _ _ (concept_step_fresh set_iter _)).
  exact (fresh_ext_keeps _ _ _ (temporal_step_fresh g) u v d H).
Qed.

Lemma build_keeps_has set_iter g u v :
  has_edge g u v = true -> has_edge (_build_graph set_iter g) u v = true.
Proof.
  unfold has_edge. destruct (get_edge_data g u v) as [d|] eqn:E; [|discriminate].
  now rewrite (build_keeps set_iter g u v d E).
Qed.

(** X11: after construction, the edge of a pair named by a curated
    connection carries exactly the attributes of the last connection listed
    for that pair (weight, type, insight defaulting to ['']): an earlier
    connection for the same pair is overwritten, and the frame, temporal and
    concept steps never change it. *)
Theorem curated_edge_last_wins set_iter lenses frames pre c post :
  (forall c', In c' post -> ~ (c_source c' = c_source c /\ c_target c' = c_target c)) ->
  get_edge_data (LensGraph_init set_iter lenses (Some (pre ++ c :: post)) frames)
                (c_source c) (c_target c) = Some (curated_attrs c).
Proof.
  intro Hpost. unfold LensGraph_init, _load_relationships.
  apply build_keeps.
  apply (fresh_ext_keeps _ _ _ (load_frames_fresh frames _)).
  simpl load_connections. rewrite fold_left_app. simpl fold_left.
  rewrite load_conns_other by exact Hpost.
  rewrite get_edge_data_add_edge, !String.eqb_refl. simpl.
  set (g0 := fold_left _ pre _).
  destruct (get_edge_data g0 (c_source c) (c_target c)) as [d|] eqn:E; [|reflexivity].
  assert (Hp : forall x y d, get_edge_data g0 x y = Some d ->
                 e_frame d = None /\ e_episodes d = None /\ e_shared_concept d = None).
  { apply load_conns_plain. intros x y d'.
    rewrite get_edge_data_lookup, load_lenses_edges. discriminate. }
  destruct (Hp _ _ _ E) as [F [Ep S]]. now rewrite attrs_update_curated.
Qed.

Lemma curated_edge_last_wins_witness :
  get_edge_data (LensGraph_init (fun l => l) None (Some ([conn_AB1] ++ conn_AB2 :: [conn_BA]))
                                (Some [frame_AB])) "A" "B" = Some (curated_attrs conn_AB2).
Proof.
  apply (curated_edge_last_wins (fun l => l) None (Some [frame_AB]) [conn_AB1] conn_AB2 [conn_BA]).
  intros c' [<-|[]]. simpl. intros [H _]. discriminate.
Defined.

Lemma fold_has {X} (P : edge_attrs -> Prop) (f : graph -> X -> graph) (l : list X) z u v g :
  (forall x g, In x l -> fresh_ext P g (f g x)) -> In z l ->
  (forall g, has_edge (f g z) u v = true) -> has_edge (fold_left f l g) u v = true.
Proof.
  revert g. induction l as [|x l IH]; intros g Hf Hz Hh; [destruct Hz|].
  simpl. destruct Hz as [->|Hz].
  - eapply has_edge_keeps; [|apply Hh].
    apply fresh_ext_fold. intros. apply Hf. now right.
  - apply IH; auto. intros. apply Hf. now right.
Qed.

Lemma add_pairs_ordered a pre x mid y post g :
  has_edge (add_pairs a (pre ++ x :: mid ++ y :: post) g) x y = true.
Proof.
  revert g. induction pre as [|p pre IH]; intro g; simpl; [|apply IH].
  eapply has_edge_keeps; [apply add_pairs_fresh|].
  apply fold_pairs_has. apply in_or_app. right. now left.
Qed.

(** X12: after construction, a frame listing lens ids connects each id to
    every id listed after it, in list order (a repeated id gives a
    self-loop): each such pair has an edge, whatever its kind. *)
Theorem frame_pairs_connected set_iter lenses conns frs fr pre x mid y post :
  In fr frs -> f_lens_ids fr = Some (pre ++ x :: mid ++ y :: post) ->
  has_edge (LensGraph_init set_iter lenses conns (Some frs)) x y = true.
Proof.
  intros Hin Hids. unfold LensGraph_init, _load_relationships.
  apply build_keeps_has. simpl load_frames.
  apply (fold_has (fun d => exists fid, d = frame_attrs fid) _ _ fr); [|exact Hin|].
  - intros fr' g' _. eapply fresh_ext_weaken; [|apply add_pairs_fresh]. intros d ->. eauto.
  - intro g'. rewrite Hids. apply add_pairs_ordered.
Qed.

Lemma frame_pairs_connected_witness :
  has_edge (LensGraph_init (fun l => l) None None
     (Some [{| f_id := "f2"; f_lens_ids := Some ([] ++ "C" :: ["A"] ++ "B" :: []) |}])) "C" "B" = true.
Proof.
  apply (frame_pairs_connected (fun l => l) None None _
           {| f_id := "f2"; f_lens_ids := Some ([] ++ "C" :: ["A"] ++ "B" :: []) |}
           [] "C" ["A"] "B" []); [now left|reflexivity].
Defined.

Lemma assoc_append_lookup (d : list (Z * list string)) k x e :
  assoc_lookup Z.eqb e (assoc_append Z.eqb k x d) =
  if Z.eqb k e
  then Some (match assoc_lookup Z.eqb e d with Some l => l ++ [x] | None => [x] end)
  else assoc_lookup Z.eqb e d.
Proof.
  induction d as [|[k' xs] d IH]; simpl.
  - destruct (Z.eqb k e); reflexivity.
  - destruct (Z.eqb k' k) eqn:E1; simpl.
    + apply Z.eqb_eq in E1. subst k'. destruct (Z.eqb k e); reflexivity.
    + destruct (Z.eqb k' e) eqn:E2; [|exact IH].
      apply Z.eqb_eq in E2. subst k'. rewrite Z.eqb_sym, E1. reflexivity.
Qed.

Lemma nodes_by_episode_in g n a e :
  In (n, Some a) (g_nodes g) -> py_int (na_episode a) = Some e ->
  exists l, assoc_lookup Z.eqb e (nodes_by_episode g) = Some l /\ In n l.
Proof.
  intros Hin Hep. unfold nodes_by_episode.
  assert (Keep : forall d k x, (exists l, assoc_lookup Z.eqb e d = Some l /\ In n l) ->
            exists l, assoc_lookup Z.eqb e (assoc_append Z.eqb k x d) = Some l /\ In n l).
  { intros d k x [l [Hl Hn]]. rewrite assoc_append_lookup, Hl.
    destruct (Z.eqb k e); eauto. eexists; split; [reflexivity|]. apply in_or_app; now left. }
  generalize (@nil (Z * list string)).
  assert (G : forall L d, In (n, Some a) L \/ (exists l, assoc_lookup Z.eqb e d = Some l /\ In n l) ->
     exists l, assoc_lookup Z.eqb e (fold_left (fun d p =>
      match snd p with
      | Some a => match py_int (na_episode a) with
                  | Some ep => assoc_append Z.eqb ep (fst p) d
                  | None => d
                  end
      | None => d
      end) L d) = Some l /\ In n l).
  { induction L as [|p L IH]; intros d H; simpl.
    - destruct H as [[]|H]; exact H.
    - apply IH. destruct H as [[->|H]|H]; [right|now left|right].
      + simpl. rewrite Hep, assoc_append_lookup, Z.eqb_refl. eexists; split; [reflexivity|].
        destruct (assoc_lookup Z.eqb e d); [apply in_or_app; right|]; now left.
      + destruct p as [m [b|]]; simpl; [|exact H].
        destruct (py_int (na_episode b)); [now apply Keep|exact H]. }
  intro d. apply G. now left.
Qed.

Lemma lookup_key {V} (d : list (Z * V)) e v : assoc_lookup Z.eqb e d = Some v -> In e (map fst d).
Proof.
  induction d as [|[k w] d IH]; simpl; [discriminate|].
  destruct (Z.eqb k e) eqn:E; [apply Z.eqb_eq in E; now left|intro H; right; now apply IH].
Qed.

Lemma sort_Z_in x l : In x (sort_Z l) <-> In x l.
Proof.
  unfold sort_Z. induction l as [|y l IH]; simpl; [tauto|].
  assert (Ins : forall m, In x (insert_Z y m) <-> y = x \/ In x m).
  { induction m as [|z m IHm]; simpl; [tauto|].
    destruct (z <? y)%Z; simpl; rewrite ?IHm; tauto. }
  rewrite Ins, IH. tauto.
Qed.

Lemma temporal_body_fresh g ep g' :
  fresh_ext (fun _ => True) g'
    (match assoc_lookup Z.eqb ep (nodes_by_episode g), assoc_lookup Z.eqb (ep + 1)%Z (nodes_by_episode g) with
     | Some l1s, Some l2s =>
         fold_left (fun g l1 =>
           fold_left (fun g l2 => add_if_absent g l1 l2 (temporal_attrs ep)) l2s g) l1s g'
     | _, _ => g'
     end).
Proof.
  destruct (assoc_lookup Z.eqb ep (nodes_by_episode g)) as [l1s|]; [|apply fresh_ext_refl].
  destruct (assoc_lookup Z.eqb (ep + 1)%Z (nodes_by_episode g)) as [l2s|]; [|apply fresh_ext_refl].
  apply fresh_ext_fold. intros l1 g1 _. apply fresh_ext_fold. intros l2 g2 _.
  eapply fresh_ext_weaken; [|apply add_if_absent_fresh]. auto.
Qed.

(** [int()] on episode values: surrounding whitespace and single
    underscores between digits are accepted, floats truncate toward zero,
    booleans give 0 or 1; a doubled underscore is refused. *)
Lemma py_int_examples :
  (py_int (JStr " +1_0") = Some 10%Z) /\ (py_int (JStr "1__0") = None) /\
  (py_int (JFloat (Qmake (-5) 2)) = Some (-2)%Z) /\ (py_int (JBool true) = Some 1%Z) /\
  (py_int JNonFinite = None).
Proof. vm_compute. repeat split. Qed.

(** X13: [_build_graph] connects every lens whose episode converts with
    [int] to [e] to every lens whose episode converts to [e + 1] (an edge
    in that direction, whatever its kind). *)
Theorem adjacent_episodes_connected set_iter g n1 n2 a1 a2 e :
  In (n1, Some a1) (g_nodes g) -> In (n2, Some a2) (g_nodes g) ->
  py_int (na_episode a1) = Some e -> py_int (na_episode a2) = Some (e + 1)%Z ->
  has_edge (_build_graph set_iter g) n1 n2 = true.
Proof.
  intros H1 H2 E1 E2.
  destruct (nodes_by_episode_in g n1 a1 e H1 E1) as [l1s [L1 I1]].
  destruct (nodes_by_episode_in g n2 a2 (e + 1) H2 E2) as [l2s [L2 I2]].
  unfold _build_graph. eapply has_edge_keeps; [apply concept_step_fresh|].
  unfold temporal_step.
  apply (fold_has (fun _ => True) _ _ e).
  - intros ep g' _. apply temporal_body_fresh.
  - apply sort_Z_in. now apply lookup_key in L1.
  - intro g'. cbv beta. rewrite L1, L2.
    apply (fold_has (fun _ => True) _ _ n1); [|exact I1|].
    + intros l1 g1 _. apply fresh_ext_fold. intros l2 g2 _.
      eapply fresh_ext_weaken; [|apply add_if_absent_fresh]. auto.
    + intro g1. apply (fold_has (fun _ => True) _ _ n2); [|exact I2|].
      * intros l2 g2 _. eapply fresh_ext_weaken; [|apply add_if_absent_fresh]. auto.
      * intro g2. apply add_if_absent_has.
Qed.

Lemma adjacent_episodes_connected_witness :
  has_edge (_build_graph (fun l => l) g_eps) "A" "B" = true.
Proof.
  apply (adjacent_episodes_connected (fun l => l) g_eps "A" "B"
           (lens_named "A" "" [])
           {| na_name := "B"; na_episode := JStr "2"; na_type := "lens";
              na_definition := ""; na_related := [] |} 1);
    [vm_compute; auto|vm_compute; auto|reflexivity|reflexivity].
Defined.

Lemma find_snoc {X} (P : X -> bool) l x :
  find P (l ++ [x]) = match find P l with Some y => Some y | None => if P x then Some x else None end.
Proof. induction l as [|y l IH]; simpl; [reflexivity|]. destruct (P y); [reflexivity|exact IH]. Qed.

Lemma find_key_absent (l : list (string * option lens_attrs)) n :
  existsb (fun p => String.eqb (fst p) n) l = false -> find (fun p => String.eqb (fst p) n) l = None.
Proof.
  induction l as [|p l IH]; simpl; [reflexivity|].
  destruct (String.eqb (fst p) n); [discriminate|exact IH].
Qed.

Lemma node_data_nodes g g' m : g_nodes g' = g_nodes g -> node_data g' m = node_data g m.
Proof. unfold node_data. intros ->. reflexivity. Qed.

Lemma node_data_ensure g n m : node_data (ensure_node g n) m = node_data g m.
Proof.
  unfold ensure_node. destruct (has_node g n) eqn:H; [reflexivity|].
  unfold node_data. simpl. rewrite find_snoc.
  destruct (find _ (g_nodes g)) as [[? ?]|]; [reflexivity|].
  destruct (String.eqb (fst (n, @None lens_attrs)) m); reflexivity.
Qed.

Lemma node_data_add_edge g u v a m : node_data (add_edge g u v a) m = node_data g m.
Proof.
  unfold add_edge. transitivity (node_data (ensure_node (ensure_node g u) v) m).
  - destruct (has_edge _ u v); apply node_data_nodes; reflexivity.
  - now rewrite !node_data_ensure.
Qed.

Lemma node_data_add_if_absent g u v a m : node_data (add_if_absent g u v a) m = node_data g m.
Proof. unfold add_if_absent. destruct (has_edge g u v); [reflexivity|apply node_data_add_edge]. Qed.

Lemma node_data_fold {X} (f : graph -> X -> graph) l g m :
  (forall x g, node_data (f g x) m = node_data g m) -> node_data (fold_left f l g) m = node_data g m.
Proof.
  intro H. revert g. induction l as [|x l IH]; intro g; simpl; [reflexivity|].
  rewrite IH. apply H.
Qed.

Lemma node_data_fold_in {X} (f : graph -> X -> graph) l g m :
  (forall x g, In x l -> node_data (f g x) m = node_data g m) ->
  node_data (fold_left f l g) m = node_data g m.
Proof.
  revert g. induction l as [|x l IH]; intros g H; simpl; [reflexivity|].
  rewrite IH by (intros; apply H; now right). apply H. now left.
Qed.

Lemma node_data_add_pairs a ids g m : node_data (add_pairs a ids g) m = node_data g m.
Proof.
  revert g. induction ids as [|x ids IH]; intro g; simpl; [reflexivity|].
  rewrite IH. apply node_data_fold. intros. apply node_data_add_if_absent.
Qed.

Lemma node_data_add_node g n a m :
  node_data (add_node g n a) m = if String.eqb n m then Some a else node_data g m.
Proof.
  unfold add_node, node_data, has_node. destruct (existsb _ (g_nodes g)) eqn:H; simpl.
  - assert (G : forall l, find (fun p => String.eqb (fst p) m)
                   (map (fun p => if String.eqb (fst p) n then (n, Some a) else p) l) =
                 if String.eqb n m
                 then (if existsb (fun p => String.eqb (fst p) n) l then Some (n, Some a) else None)
                 else find (fun p => String.eqb (fst p) m) l).
    { induction l as [|[k o] l IH]; simpl.
      - destruct (String.eqb n m); reflexivity.
      - destruct (String.eqb k n) eqn:Kn; simpl.
        + apply String.eqb_eq in Kn. subst k.
          destruct (String.eqb n m); [reflexivity|exact IH].
        + destruct (String.eqb k m) eqn:Km.
          * apply String.eqb_eq in Km. subst k. rewrite String.eqb_sym, Kn. simpl.
            now rewrite ?String.eqb_refl.
          * rewrite IH. destruct (String.eqb n m); [reflexivity|]. simpl. now rewrite ?Km. }
    rewrite G, H. destruct (String.eqb n m); reflexivity.
  - rewrite find_snoc. destruct (String.eqb n m) eqn:E.
    + apply String.eqb_eq in E. subst m. rewrite find_key_absent by exact H.
      simpl. now rewrite String.eqb_refl.
    + destruct (find _ (g_nodes g)) as [[? ?]|]; [reflexivity|]. simpl. now rewrite E.
Qed.

Lemma node_data_relationships conns frames g m :
  node_data (_load_relationships conns frames g) m = node_data g m.
Proof.
  unfold _load_relationships. destruct frames as [frs|]; simpl.
  - rewrite node_data_fold by (intros; apply node_data_add_pairs).
    destruct conns; simpl; [|reflexivity].
    apply node_data_fold. intros. apply node_data_add_edge.
  - destruct conns; simpl; [|reflexivity].
    apply node_data_fold. intros. apply node_data_add_edge.
Qed.

Lemma node_data_build set_iter g m : node_data (_build_graph set_iter g) m = node_data g m.
Proof.
  unfold _build_graph, concept_step, temporal_step.
  rewrite node_data_fold.
  - apply node_data_fold. intros ep g'.
    destruct (assoc_lookup Z.eqb ep _); [|reflexivity].
    destruct (assoc_lookup Z.eqb (ep + 1)%Z _); [|reflexivity].
    apply node_data_fold. intros. apply node_data_fold. intros. apply node_data_add_if_absent.
  - intros [c lenses] g'. cbv beta iota.
    destruct (Nat.leb 2 (length lenses) && Nat.leb (length lenses) 5);
      [apply node_data_add_pairs|reflexivity].
Qed.

(** X14: after construction, a lens keeps the attributes of the last record
    with its id in the lens file (a later record with the same id replaces
    them; definition defaults to [''], related concepts to [[]]); loading
    connections, frames and the temporal and concept edges never changes
    them. *)
Theorem lens_attrs_survive_init set_iter pre l post conns frames :
  (forall l', In l' post -> l_id l' <> l_id l) ->
  node_data (LensGraph_init set_iter (Some (pre ++ l :: post)) conns frames) (l_id l) =
  Some {| na_name := l_name l; na_episode := l_episode l; na_type := l_type l;
          na_definition := match l_definition l with Some d => d | None => "" end;
          na_related := match l_related l with Some r => r | None => [] end |}.
Proof.
  intro Hpost. unfold LensGraph_init.
  rewrite node_data_build, node_data_relationships. simpl _load_lenses.
  rewrite fold_left_app. simpl fold_left.
  set (g1 := add_node _ (l_id l) _).
  assert (E1 : node_data g1 (l_id l) =
    Some {| na_name := l_name l; na_episode := l_episode l; na_type := l_type l;
            na_definition := match l_definition l with Some d => d | None => "" end;
            na_related := match l_related l with Some r => r | None => [] end |})
    by (unfold g1; now rewrite node_data_add_node, String.eqb_refl).
  rewrite <- E1. clear E1. apply node_data_fold_in.
  intros l' g' Hin. rewrite node_data_add_node.
  destruct (String.eqb (l_id l') (l_id l)) eqn:E; [|reflexivity].
  apply String.eqb_eq in E. exfalso. exact (Hpost l' Hin E).
Qed.

Lemma lens_attrs_survive_init_witness :
  node_data (LensGraph_init (fun l => l)
               (Some ([lens_rec_of "A"] ++ {| l_id := "A"; l_name := "Alpha"; l_episode := JInt 2;
                                              l_type := "lens"; l_definition := Some "first letter";
                                              l_related := None |} :: [lens_rec_of "B"]))
               (Some [conn_AB1]) (Some [frame_AB])) "A" =
  Some {| na_name := "Alpha"; na_episode := JInt 2; na_type := "lens";
          na_definition := "first letter"; na_related := [] |}.
Proof.
  apply (lens_attrs_survive_init (fun l => l) [lens_rec_of "A"]
           {| l_id := "A"; l_name := "Alpha"; l_episode := JInt 2;
              l_type := "lens"; l_definition := Some "first letter"; l_related := None |}
           [lens_rec_of "B"] (Some [conn_AB1]) (Some [frame_AB])).
  intros l' [<-|[]]. simpl. discriminate.
Defined.

(** ** [find_lens_synthesis_path]: pairs, ordering and the insight *)

Lemma find_path_nodes g s t k :
  find_path g s t k <> [] -> has_node g s = true.
Proof.
  unfold find_path. destruct (all_simple_paths g s t k) as [ps|e] eqn:E.
  - intros _. destruct (has_node g s) eqn:N; [reflexivity|].
    unfold all_simple_paths in E. rewrite N in E. discriminate.
  - intros H. now contradiction H.
Qed.

Lemma pair_paths_in g l1 rest pi :
  In pi (pair_paths g l1 rest) <->
  exists mid l2 post p r, rest = mid ++ l2 :: post /\ find_path g l1 l2 4 = p :: r /\
    pi = {| pi_from := l1; pi_to := l2; pi_path := p; pi_length := length p |}.
Proof.
  induction rest as [|l2 rest IH]; simpl.
  - split; [intros []|]. intros (mid & l2 & post & p & r & E & _). destruct mid; discriminate.
  - destruct (find_path g l1 l2 4) as [|p r] eqn:Ef.
    + rewrite IH. split.
      * intros (mid & l2' & post & p & r & -> & H1 & H2).
        exists (l2 :: mid), l2', post, p, r. auto.
      * intros ([|m mid] & l2' & post & p & r & E & H1 & H2); simpl in E; inversion E; subst.
        -- rewrite Ef in H1; discriminate.
        -- exists mid, l2', post, p, r. auto.
    + split.
      * intros [<-|H].
        -- exists [], l2, rest, p, r. auto.
        -- apply IH in H. destruct H as (mid & l2' & post & p' & r' & -> & H1 & H2).
           exists (l2 :: mid), l2', post, p', r'. auto.
      * intros ([|m mid] & l2' & post & p' & r' & E & H1 & H2); simpl in E; inversion E; subst.
        -- left. rewrite Ef in H1. inversion H1. subst. reflexivity.
        -- right. apply IH. exists mid, l2', post, p', r'. auto.
Qed.

Lemma collect_pair_paths_in g ids pi :
  In pi (collect_pair_paths g ids) <->
  exists pre l1 mid l2 post p r,
    ids = pre ++ l1 :: mid ++ l2 :: post /\ find_path g l1 l2 4 = p :: r /\
    pi = {| pi_from := l1; pi_to := l2; pi_path := p; pi_length := length p |}.
Proof.
  induction ids as [|l1 rest IH]; simpl.
  - split; [intros []|]. intros (pre & l1 & mid & l2 & post & p & r & E & _).
    destruct pre; discriminate.
  - rewrite in_app_iff, IH, pair_paths_in. split.
    + intros [(mid & l2 & post & p & r & -> & H1 & H2)
             |(pre & l1' & mid & l2 & post & p & r & -> & H1 & H2)].
      * exists [], l1, mid, l2, post, p, r. auto.
      * exists (l1 :: pre), l1', mid, l2, post, p, r. auto.
    + intros ([|x pre] & l1' & mid & l2 & post & p & r & E & H1 & H2); simpl in E;
        inversion E; subst.
      * left. exists mid, l2, post, p, r. auto.
      * right. exists pre, l1', mid, l2, post, p, r. auto.
Qed.

Lemma insert_pi_perm x l : Permutation (insert_pi x l) (x :: l).
Proof.
  induction l as [|y l IH]; simpl; [auto|].
  destruct (Nat.ltb (pi_length y) (pi_length x)); [|auto].
  eapply perm_trans; [apply perm_skip, IH|apply perm_swap].
Qed.

Lemma sort_pi_perm l : Permutation (sort_pi l) l.
Proof.
  induction l as [|x l IH]; [constructor|]. unfold sort_pi in *; simpl.
  eapply perm_trans; [apply insert_pi_perm|]. now apply perm_skip.
Qed.

Lemma insert_pi_sorted x l :
  Sorted (fun a b => (pi_length a <= pi_length b)%nat) l ->
  Sorted (fun a b => (pi_length a <= pi_length b)%nat) (insert_pi x l).
Proof.
  induction 1 as [|y l Hs IH Hhd]; simpl; [auto|].
  destruct (Nat.ltb (pi_length y) (pi_length x)) eqn:E.
  - apply Nat.ltb_lt in E. constructor; [exact IH|].
    destruct l as [|z l]; simpl; [constructor; lia|].
    inversion Hhd; subst.
    destruct (Nat.ltb (pi_length z) (pi_length x)); constructor; lia.
  - apply Nat.ltb_ge in E. constructor; [constructor; auto|constructor; lia].
Qed.

Lemma sort_pi_sorted l : Sorted (fun a b => (pi_length a <= pi_length b)%nat) (sort_pi l).
Proof.
  induction l as [|x l IH]; [constructor|]. unfold sort_pi in *; simpl.
  now apply insert_pi_sorted.
Qed.

Lemma sort_pi_head_min l p rest :
  sort_pi l = p :: rest -> forall q, In q l -> (pi_length p <= pi_length q)%nat.
Proof.
  intros E q Hq. assert (Hs := sort_pi_sorted l). rewrite E in Hs.
  apply Sorted_StronglySorted in Hs; [|intros a b c; lia].
  apply (Permutation_in q (Permutation_sym (sort_pi_perm l))) in Hq.
  rewrite E in Hq. destruct Hq as [<-|Hq]; [lia|].
  inversion Hs as [|? ? _ Hall]; subst. rewrite Forall_forall in Hall. now apply Hall.
Qed.

Lemma firstn_sorted_le {X} (f : X -> nat) k l :
  Sorted (fun a b => (f a <= f b)%nat) l -> Sorted (fun a b => (f a <= f b)%nat) (firstn k l).
Proof.
  intro H. apply Sorted_StronglySorted in H; [|intros a b c; lia].
  apply StronglySorted_Sorted.
  rewrite <- (firstn_skipn k l) in H. clear -H. induction (firstn k l) as [|a m IH].
  - constructor.
  - simpl in H. inversion H as [|? ? Hs Hall]; subst. constructor.
    + now apply IH.
    + rewrite Forall_forall in *. intros z Hz. apply Hall, in_or_app. now left.
Qed.

(** The shape of a [Some] result: the sorted pair paths, non-empty. *)
Lemma synthesis_some g ids s :
  find_lens_synthesis_path g ids = Some s ->
  exists first rest, sort_pi (collect_pair_paths g ids) = first :: rest /\
    s = {| sy_type := "path_synthesis"; sy_paths := firstn 3 (first :: rest);
           sy_insight := _generate_path_insight g first |}.
Proof.
  unfold find_lens_synthesis_path.
  destruct (Nat.ltb (length ids) 2); [discriminate|].
  destruct (collect_pair_paths g ids) as [|x l]; [discriminate|].
  destruct (sort_pi (x :: l)) as [|first rest]; [discriminate|].
  intros H. injection H as <-. eauto.
Qed.

Lemma synthesis_none_collect g ids :
  find_lens_synthesis_path g ids = None <-> collect_pair_paths g ids = [].
Proof.
  unfold find_lens_synthesis_path.
  destruct (Nat.ltb (length ids) 2) eqn:L.
  - split; [intros _|reflexivity]. apply Nat.ltb_lt in L.
    destruct ids as [|a [|b ids]]; simpl in *; [reflexivity|reflexivity|lia].
  - destruct (collect_pair_paths g ids) as [|x l] eqn:C; [tauto|].
    destruct (sort_pi (x :: l)) as [|first rest] eqn:S.
    + exfalso. assert (Hl := Permutation_length (sort_pi_perm (x :: l))).
      rewrite S in Hl. discriminate.
    + split; discriminate.
Qed.

(** X15: [find_lens_synthesis_path lens_ids] returns [None] exactly when no
    two of the ids, [l1] listed before [l2], are joined by a simple path of
    0 to 4 edges from the graph lens [l1] to a target of [l2]: [l2] itself
    when it is a node, else a one-character node named by one of its
    characters (in particular with fewer than two ids). *)
Theorem synthesis_none_iff_unconnected g ids :
  find_lens_synthesis_path g ids = None <->
  ~ exists pre l1 mid l2 post p,
      ids = pre ++ l1 :: mid ++ l2 :: post /\ has_node g l1 = true /\
      hd_error p = Some l1 /\ In (last p "") (targets_of g l2) /\ NoDup p /\ is_walk g p /\
      (1 <= length p <= 5)%nat.
Proof.
  rewrite synthesis_none_collect. split.
  - intros C (pre & l1 & mid & l2 & post & p & E & H1 & Hhd & Hl & Hnd & Hw & Hlen).
    assert (Hne := find_path_nonempty g l1 l2 4 p H1 Hhd Hnd Hw Hl ltac:(lia)).
    destruct (find_path g l1 l2 4) as [|q r] eqn:F; [now apply Hne|].
    assert (Hin : In {| pi_from := l1; pi_to := l2; pi_path := q; pi_length := length q |}
                     (collect_pair_paths g ids))
      by (apply collect_pair_paths_in; exists pre, l1, mid, l2, post, q, r; auto).
    rewrite C in Hin. destruct Hin.
  - intros Hno. destruct (collect_pair_paths g ids) as [|pi l] eqn:C; [reflexivity|].
    exfalso. apply Hno.
    assert (Hin : In pi (collect_pair_paths g ids)) by (rewrite C; now left).
    apply collect_pair_paths_in in Hin.
    destruct Hin as (pre & l1 & mid & l2 & post & q & r & E & F & _).
    assert (Hq : In q (find_path g l1 l2 4)) by (rewrite F; now left).
    assert (H1 : has_node g l1 = true) by (apply (find_path_nodes g l1 l2 4); rewrite F; discriminate).
    destruct (find_path_in g l1 l2 4 q Hq) as (Hhd & Hnd & Hw & Hl & Hlk).
    assert (Hq1 : (1 <= length q)%nat) by (destruct q; [discriminate|simpl; lia]).
    exists pre, l1, mid, l2, post, q. repeat split; auto; lia.
Qed.

(** X16: a synthesis keeps at most 3 pair paths, non-empty and sorted by
    length; each is the best path [find_path] returns between two ids
    listed in that order: a simple path of 0 to 4 edges from the graph lens
    [pi_from] to a target of [pi_to] ([pi_to] itself when it is a node, else
    a one-character node named by one of its characters), and its
    ['length'] is its number of nodes. *)
Theorem synthesis_paths_sound g ids s :
  find_lens_synthesis_path g ids = Some s ->
  sy_type s = "path_synthesis" /\
  (1 <= length (sy_paths s) <= 3)%nat /\
  Sorted (fun a b => (pi_length a <= pi_length b)%nat) (sy_paths s) /\
  forall pi, In pi (sy_paths s) ->
    (exists pre mid post r, ids = pre ++ pi_from pi :: mid ++ pi_to pi :: post /\
       find_path g (pi_from pi) (pi_to pi) 4 = pi_path pi :: r) /\
    pi_length pi = length (pi_path pi) /\ has_node g (pi_from pi) = true /\
    hd_error (pi_path pi) = Some (pi_from pi) /\
    In (last (pi_path pi) "") (targets_of g (pi_to pi)) /\
    NoDup (pi_path pi) /\ is_walk g (pi_path pi) /\ (1 <= length (pi_path pi) <= 5)%nat.
Proof.
  intros H. destruct (synthesis_some g ids s H) as (first & rest & S & ->).
  cbn [sy_type sy_paths sy_insight].
  split; [reflexivity|]. split; [destruct rest as [|a [|b rest]]; simpl; lia|].
  split.
  - apply firstn_sorted_le. rewrite <- S. apply sort_pi_sorted.
  - intros pi Hpi. apply in_firstn_in in Hpi. rewrite <- S in Hpi.
    apply (Permutation_in pi (sort_pi_perm _)) in Hpi.
    apply collect_pair_paths_in in Hpi.
    destruct Hpi as (pre & l1 & mid & l2 & post & p & r & E & F & ->). simpl.
    split; [exists pre, mid, post, r; auto|]. split; [reflexivity|].
    split; [apply (find_path_nodes g l1 l2 4); rewrite F; discriminate|].
    assert (Hp : In p (find_path g l1 l2 4)) by (rewrite F; now left).
    destruct (find_path_in g l1 l2 4 p Hp) as (Hhd & Hnd & Hw & Hl & Hlk).
    assert (Hp1 : (1 <= length p)%nat) by (destruct p; [discriminate|simpl; lia]).
    repeat split; auto; lia.
Qed.

Lemma synthesis_paths_sound_witness :
  find_lens_synthesis_path g_chain ["A"; "C"; "B"] = Some syn_ACB /\
  sy_type syn_ACB = "path_synthesis" /\
  (1 <= length (sy_paths syn_ACB) <= 3)%nat /\
  Sorted (fun a b => (pi_length a <= pi_length b)%nat) (sy_paths syn_ACB) /\
  forall pi, In pi (sy_paths syn_ACB) ->
    (exists pre mid post r, ["A"; "C"; "B"] = pre ++ pi_from pi :: mid ++ pi_to pi :: post /\
       find_path g_chain (pi_from pi) (pi_to pi) 4 = pi_path pi :: r) /\
    pi_length pi = length (pi_path pi) /\ has_node g_chain (pi_from pi) = true /\
    hd_error (pi_path pi) = Some (pi_from pi) /\
    In (last (pi_path pi) "") (targets_of g_chain (pi_to pi)) /\
    NoDup (pi_path pi) /\ is_walk g_chain (pi_path pi) /\ (1 <= length (pi_path pi) <= 5)%nat.
Proof.
  assert (H : find_lens_synthesis_path g_chain ["A"; "C"; "B"] = Some syn_ACB)
    by (vm_compute; reflexivity).
  split; [exact H|exact (synthesis_paths_sound g_chain ["A"; "C"; "B"] syn_ACB H)].
Defined.

(** X17: the first kept path is the shortest (fewest nodes) best path over
    all pairs of ids, and the insight is generated from it. *)
Theorem synthesis_first_shortest g ids s :
  find_lens_synthesis_path g ids = Some s ->
  exists first rest, sy_paths s = first :: rest /\
    sy_insight s = _generate_path_insight g first /\
    forall pre l1 mid l2 post p r,
      ids = pre ++ l1 :: mid ++ l2 :: post -> find_path g l1 l2 4 = p :: r ->
      (pi_length first <= length p)%nat.
Proof.
  intros H. destruct (synthesis_some g ids s H) as (first & rest & S & ->).
  cbn [sy_type sy_paths sy_insight].
  exists first, (firstn 2 rest). split; [reflexivity|]. split; [reflexivity|].
  intros pre l1 mid l2 post p r E F.
  apply (sort_pi_head_min _ _ _ S
           {| pi_from := l1; pi_to := l2; pi_path := p; pi_length := length p |}).
  apply collect_pair_paths_in. exists pre, l1, mid, l2, post, p, r. auto.
Qed.

Lemma synthesis_first_shortest_witness :
  find_lens_synthesis_path g_chain ["A"; "C"; "B"] = Some syn_ACB /\
  exists first rest, sy_paths syn_ACB = first :: rest /\
    sy_insight syn_ACB = _generate_path_insight g_chain first /\
    forall pre l1 mid l2 post p r,
      ["A"; "C"; "B"] = pre ++ l1 :: mid ++ l2 :: post -> find_path g_chain l1 l2 4 = p :: r ->
      (pi_length first <= length p)%nat.
Proof.
  assert (H : find_lens_synthesis_path g_chain ["A"; "C"; "B"] = Some syn_ACB)
    by (vm_compute; reflexivity).
  split; [exact H|exact (synthesis_first_shortest g_chain ["A"; "C"; "B"] syn_ACB H)].
Defined.

(** ** [enhance_retrieval]: errors, and what it appends *)

Lemma set_union_in a b y : In y (set_union a b) <-> In y a \/ In y b.
Proof.
  unfold set_union. revert a. induction b as [|x b IH]; intro a; simpl.
  - tauto.
  - rewrite IH, set_add_in. intuition.
Qed.

Lemma set_union_nodup a b : NoDup a -> NoDup (set_union a b).
Proof.
  unfold set_union. revert a. induction b as [|x b IH]; intros a H; simpl; [exact H|].
  apply IH, set_add_nodup, H.
Qed.

Lemma py_set_in l y : In y (py_set l) <-> In y l.
Proof. unfold py_set. fold (set_union [] l). rewrite set_union_in. simpl. tauto. Qed.

Lemma py_set_nodup l : NoDup (py_set l).
Proof. unfold py_set. fold (set_union [] l). apply set_union_nodup. constructor. Qed.

Lemma fold_union_in (L : list (list string)) ids y :
  In y (fold_left set_union L ids) <-> In y ids \/ exists ll, In ll L /\ In y ll.
Proof.
  revert ids. induction L as [|ll L IH]; intro ids; simpl.
  - split; [now left|]. intros [H|[ll [[] _]]]. exact H.
  - rewrite IH, set_union_in. split.
    + intros [[H|H]|[ll' [H1 H2]]]; [now left|right; eauto|right; eauto].
    + intros [H|[ll' [[<-|H1] H2]]]; auto. right. eauto.
Qed.

Lemma fold_bind_err {X Y} (F : X -> Y -> result X) L e :
  fold_left (fun acc y => x <- acc ;; F x y) L (Err e) = Err e.
Proof. induction L as [|y L IH]; simpl; auto. Qed.

Lemma fold_bind_total {X Y} (F : X -> Y -> result X) L a :
  (forall x y, In y L -> exists x', F x y = Ok x') ->
  exists r, fold_left (fun acc y => x <- acc ;; F x y) L (Ok a) = Ok r.
Proof.
  revert a. induction L as [|y L IH]; intros a H; simpl; [eauto|].
  destruct (H a y (or_introl eq_refl)) as [x' ->]. apply IH.
  intros x z Hz. apply H. now right.
Qed.

Lemma fold_bind_fail {X Y} (F : X -> Y -> result X) L a y e :
  In y L -> (forall x, F x y = Err e) ->
  (forall x y', In y' L -> (exists x', F x y' = Ok x') \/ F x y' = Err e) ->
  fold_left (fun acc y => x <- acc ;; F x y) L (Ok a) = Err e.
Proof.
  revert a. induction L as [|z L IH]; intros a Hy Hf Hall; [destruct Hy|]. simpl.
  destruct Hy as [<-|Hy].
  - rewrite Hf. apply fold_bind_err.
  - destruct (Hall a z (or_introl eq_refl)) as [[x' ->]| ->]; [|apply fold_bind_err].
    apply IH; auto. intros x y' Hy'. apply Hall. now right.
Qed.

Lemma fold_bind_inv {X Y} (F : X -> Y -> result X) (P : X -> Prop) L a r :
  fold_left (fun acc y => x <- acc ;; F x y) L (Ok a) = Ok r -> P a ->
  (forall x y x', In y L -> P x -> F x y = Ok x' -> P x') -> P r.
Proof.
  revert a. induction L as [|y L IH]; intros a Hf Ha Hstep; simpl in Hf.
  - injection Hf as <-. exact Ha.
  - destruct (F a y) as [x'|e] eqn:E.
    + apply (IH x' Hf).
      * exact (Hstep a y x' (or_introl eq_refl) Ha E).
      * intros x z x'' Hz. apply Hstep. now right.
    + rewrite fold_bind_err in Hf. discriminate.
Qed.

Lemma contrast_step_cases g ids l :
  (has_node g l = true -> exists r, contrast_step g ids l = Ok r) /\
  (has_node g l = false -> contrast_step g ids l = Err NetworkXError).
Proof.
  unfold contrast_step. split; intro Hn.
  - destruct (proj2 (find_contrasts_spec g l) Hn) as [res [E _]]. rewrite E. cbn [bind]. eauto.
  - rewrite (proj1 (find_contrasts_spec g l) Hn). reflexivity.
Qed.

Lemma contrast_step_in g ids l r y :
  contrast_step g ids l = Ok r -> In y r ->
  In y ids \/ exists d, (get_edge_data g l y = Some d \/ get_edge_data g y l = Some d) /\
                        is_contrast d = true.
Proof.
  unfold contrast_step. destruct (has_node g l) eqn:Hn.
  - destruct (proj2 (find_contrasts_spec g l) Hn) as [res [E Hres]]. rewrite E. cbn [bind].
    intros Hr. injection Hr as <-.
    rewrite set_union_in. intros [H|H]; [now left|right].
    apply in_map_iff in H. destruct H as [[nb i] [Hnb Hin]]. simpl in Hnb. subst nb.
    apply Hres in Hin.
    destruct Hin as [[d [E1 [C _]]]|[d [E1 [C _]]]]; eauto.
  - rewrite (proj1 (find_contrasts_spec g l) Hn). discriminate.
Qed.

Lemma bfs_skip_ok g radius fuel q vis nb :
  (forall x d, In (x, d) q -> (radius <= d)%Z) -> exists r, bfs g radius fuel q vis nb = Ok r.
Proof.
  revert q vis nb. induction fuel as [|fuel IH]; intros q vis nb H; simpl; [eauto|].
  destruct q as [|[c d] q']; [eauto|].
  rewrite (proj2 (Z.leb_le _ _) (H c d (or_introl eq_refl))).
  apply IH. intros x d' Hin. apply (H x d'). now right.
Qed.

Lemma explore_queue g c depth ns q vis nb q' vis' nb' :
  fold_left (explore g c depth) ns (q, vis, nb) = (q', vis', nb') ->
  forall x d, In (x, d) q' -> In (x, d) q \/ d = (depth + 1)%Z.
Proof.
  revert q vis nb. induction ns as [|v ns IH]; intros q vis nb Hf x d Hin; simpl in Hf.
  - inversion Hf; subst. now left.
  - destruct (mem v vis).
    + exact (IH _ _ _ Hf x d Hin).
    + destruct (IH _ _ _ Hf x d Hin) as [H|H]; [|now right].
      apply in_app_iff in H. destruct H as [H|[H|[]]]; [now left|right].
      now inversion H.
Qed.

Lemma neighborhood_radius1_ok g l :
  has_node g l = true -> exists r, get_lens_neighborhood g l 1 = Ok r.
Proof.
  intro Hn. unfold get_lens_neighborhood. cbn [bfs].
  replace (1 <=? 0)%Z with false by reflexivity.
  unfold neighbors. rewrite Hn. cbn [bind].
  destruct (fold_left (explore g l 0) (map fst (succ g l)) ([], [l], [])) as [[q v] n] eqn:Ef.
  apply bfs_skip_ok. intros x d Hin.
  destruct (explore_queue _ _ _ _ _ _ _ _ _ _ Ef x d Hin) as [[]| ->]. lia.
Qed.

Lemma neighborhood_step_cases g ids l :
  (has_node g l = true -> exists r, neighborhood_step g ids l = Ok r).
Proof.
  unfold neighborhood_step. intro Hn. destruct (neighborhood_radius1_ok g l Hn) as [r ->].
  cbn [bind]. eauto.
Qed.

Lemma neighborhood_step_in g ids l r y :
  neighborhood_step g ids l = Ok r -> In y r -> In y ids \/ exists d, In (l, y, d) (g_edges g).
Proof.
  unfold neighborhood_step.
  destruct (get_lens_neighborhood g l 1) as [nb|e] eqn:E; cbn [bind]; [|discriminate].
  intros Hr. injection Hr as <-. rewrite fold_union_in.
  intros [H|[ll [Hll Hy]]]; [now left|right].
  apply in_map_iff in Hll. destruct Hll as [[k ll'] [Hk Hin]]. simpl in Hk. subst ll'.
  assert (Hs : forall k l0 w, In (k, l0) nb -> In w l0 -> nb_good g l 1 w).
  { apply (bfs_sound g l 1 _ _ _ _ _ E). split; [|split].
    - now left.
    - intros x dep [Hin'|[]]. inversion Hin'; subst. exists 0%nat. split; [constructor|lia].
    - intros k' l' w [] _. }
  destruct (Hs k ll y Hin Hy) as [Hne [[m [Hr Hm]] _]].
  destruct m as [|[|m]]; [inversion Hr; congruence| |lia].
  inversion Hr; subst.
  match goal with H : fwd_reach _ _ _ 0 |- _ => inversion H; subst end. eauto.
Qed.

Lemma graph_lens_of_id g x : gl_id (graph_lens_of g x) = x.
Proof. unfold graph_lens_of. now destruct (node_data g x). Qed.

Lemma firstn_2_3 {X} (l : list X) x : In x (firstn 2 l) -> In x (firstn 3 l).
Proof. destruct l as [|a [|b [|c l]]]; simpl; tauto. Qed.

(** X18: [enhance_retrieval] raises [NetworkXError] when one of the first
    three ids it iterates over (the ones it asks [find_contrasts] about) is
    not a graph node, and returns normally when all three are. *)
Theorem enhance_retrieval_errors set_iter {lens} (lens_id : lens -> string) g ls :
  ((forall l, In l (firstn 3 (set_iter (py_set (map lens_id ls)))) -> has_node g l = true) ->
   exists r, enhance_retrieval set_iter lens_id g ls = Ok r) /\
  ((exists l, In l (firstn 3 (set_iter (py_set (map lens_id ls)))) /\ has_node g l = false) ->
   enhance_retrieval set_iter lens_id g ls = Err NetworkXError).
Proof.
  unfold enhance_retrieval. cbv zeta. split.
  - intros Hall.
    destruct (fold_bind_total (contrast_step g) (firstn 3 (set_iter (py_set (map lens_id ls)))) [])
      as [c Ec].
    { intros x y Hy. exact (proj1 (contrast_step_cases g x y) (Hall y Hy)). }
    destruct (fold_bind_total (neighborhood_step g) (firstn 2 (set_iter (py_set (map lens_id ls)))) [])
      as [n En].
    { intros x y Hy. exact (neighborhood_step_cases g x y (Hall y (firstn_2_3 _ _ Hy))). }
    rewrite Ec. cbn [bind]. rewrite En. cbn [bind]. eauto.
  - intros [l [Hl Hn]].
    rewrite (fold_bind_fail (contrast_step g) _ [] l NetworkXError Hl).
    + reflexivity.
    + intro x. exact (proj2 (contrast_step_cases g x l) Hn).
    + intros x y' _. destruct (has_node g y') eqn:Hy'.
      * left. exact (proj1 (contrast_step_cases g x y') Hy').
      * right. exact (proj2 (contrast_step_cases g x y') Hy').
Qed.

(** X19: when the set iteration order is a permutation, a successful
    [enhance_retrieval] returns the initial records unchanged followed by
    distinct graph lenses, none of them an initial id, each built from its
    node's attributes and each a bridge of the ids, a contrast partner
    of one of the first three ids, or a successor of one of the first two. *)
Theorem enhance_retrieval_appends set_iter {lens} (lens_id : lens -> string) g ls r :
  (forall l, Permutation (set_iter l) l) ->
  enhance_retrieval set_iter lens_id g ls = Ok r ->
  let ids := set_iter (py_set (map lens_id ls)) in
  exists extra, r = map inl ls ++ map inr extra /\
    NoDup (map gl_id extra) /\
    forall x, In x extra ->
      ~ In (gl_id x) (map lens_id ls) /\ has_node g (gl_id x) = true /\
      x = graph_lens_of g (gl_id x) /\
      (In (gl_id x) (find_bridges set_iter g ids) \/
       (exists l d, In l (firstn 3 ids) /\
          (get_edge_data g l (gl_id x) = Some d \/ get_edge_data g (gl_id x) l = Some d) /\
          is_contrast d = true) \/
       (exists l d, In l (firstn 2 ids) /\ In (l, gl_id x, d) (g_edges g))).
Proof.
  intros Hperm H ids. unfold enhance_retrieval in H. cbv zeta in H. fold ids in H.
  destruct (fold_left (fun acc l => ids0 <- acc ;; contrast_step g ids0 l) (firstn 3 ids) (Ok []))
    as [c|e] eqn:Ec; cbn [bind] in H; [|discriminate].
  destruct (fold_left (fun acc l => ids0 <- acc ;; neighborhood_step g ids0 l) (firstn 2 ids) (Ok []))
    as [n|e] eqn:En; cbn [bind] in H; [|discriminate].
  injection H as <-.
  set (add := filter (fun x => negb (mem x (py_set (map lens_id ls))))
                (set_union (set_union (py_set (find_bridges set_iter g ids)) c) n)).
  exists (map (graph_lens_of g) (filter (fun x => has_node g x) (set_iter add))).
  split; [now rewrite map_map|].
  assert (Hc := fold_bind_inv (contrast_step g)
     (fun ids0 => forall y, In y ids0 -> exists l d, In l (firstn 3 ids) /\
        (get_edge_data g l y = Some d \/ get_edge_data g y l = Some d) /\ is_contrast d = true)
     _ _ _ Ec).
  assert (Hn := fold_bind_inv (neighborhood_step g)
     (fun ids0 => forall y, In y ids0 -> exists l d, In l (firstn 2 ids) /\ In (l, y, d) (g_edges g))
     _ _ _ En).
  cbv beta in Hc, Hn.
  split.
  - rewrite map_map. rewrite (map_ext _ (fun x => x) (graph_lens_of_id g)), map_id.
    apply NoDup_filter. apply (Permutation_NoDup (Permutation_sym (Hperm add))).
    apply NoDup_filter. apply set_union_nodup, set_union_nodup, py_set_nodup.
  - intros x Hx. apply in_map_iff in Hx. destruct Hx as [y [<- Hy]].
    rewrite graph_lens_of_id. apply filter_In in Hy. destruct Hy as [Hy Hhas].
    apply (Permutation_in _ (Hperm add)) in Hy. unfold add in Hy.
    apply filter_In in Hy. destruct Hy as [Hy Hm].
    split; [|split; [exact Hhas|split; [reflexivity|]]].
    { intro Hin. apply negb_true_iff in Hm. apply (mem_false_not_in _ _ Hm).
      now apply py_set_in. }
    rewrite !set_union_in, py_set_in in Hy.
    destruct Hy as [[Hb|Hcy]|Hny].
    + now left.
    + right. left. apply Hc; [intros z []|intros x0 z x' Hz Hx0 Hs w Hw|exact Hcy].
      destruct (contrast_step_in g x0 z x' w Hs Hw) as [Hw0|[d [Hd Hcd]]]; [now apply Hx0|].
      exists z, d. auto.
    + right. right. apply Hn; [intros z []|intros x0 z x' Hz Hx0 Hs w Hw|exact Hny].
      destruct (neighborhood_step_in g x0 z x' w Hs Hw) as [Hw0|[d Hd]]; [now apply Hx0|].
      exists z, d. auto.
Qed.

Lemma enhance_retrieval_appends_witness :
  (forall l : list string, Permutation ((fun l0 => l0) l) l) /\
  enhance_retrieval (fun l => l) (fun s : string => s) g_chain ["A"]
    = Ok [inl "A"; inr (graph_lens_of g_chain "B")] /\
  let ids := (fun l => l) (py_set (map (fun s : string => s) ["A"])) in
  exists extra, [inl "A"; inr (graph_lens_of g_chain "B")] = map inl ["A"] ++ map inr extra /\
    NoDup (map gl_id extra) /\
    forall x, In x extra ->
      ~ In (gl_id x) (map (fun s : string => s) ["A"]) /\ has_node g_chain (gl_id x) = true /\
      x = graph_lens_of g_chain (gl_id x) /\
      (In (gl_id x) (find_bridges (fun l => l) g_chain ids) \/
       (exists l d, In l (firstn 3 ids) /\
          (get_edge_data g_chain l (gl_id x) = Some d \/ get_edge_data g_chain (gl_id x) l = Some d) /\
          is_contrast d = true) \/
       (exists l d, In l (firstn 2 ids) /\ In (l, gl_id x, d) (g_edges g_chain))).
Proof.
  assert (Hp : forall l : list string, Permutation ((fun l0 => l0) l) l)
    by (intro l; apply Permutation_refl).
  assert (H : enhance_retrieval (fun l => l) (fun s : string => s) g_chain ["A"]
                = Ok [inl "A"; inr (graph_lens_of g_chain "B")]) by (vm_compute; reflexivity).
  split; [exact Hp|split; [exact H|]].
  exact (enhance_retrieval_appends (fun l => l) (fun s : string => s) g_chain ["A"] _ Hp H).
Defined.

(** ** [get_lens_clusters]: the connected-components fallback *)

Lemma mem_in x l : mem x l = true <-> In x l.
Proof.
  unfold mem. rewrite existsb_exists. split.
  - intros [y [Hy E]]. apply String.eqb_eq in E. now subst.
  - intro H. exists x. split; [exact H|apply String.eqb_refl].
Qed.

Lemma has_node_in g n : has_node g n = true <-> In n (node_ids g).
Proof.
  unfold has_node, node_ids. rewrite existsb_exists, in_map_iff. split.
  - intros [p [Hp E]]. apply String.eqb_eq in E. eauto.
  - intros [p [E Hp]]. exists p. split; [exact Hp|]. apply String.eqb_eq, E.
Qed.

Lemma und_adj_in g u w :
  In w (und_adj g u) <-> exists d, In (u, w, d) (g_edges g) \/ In (w, u, d) (g_edges g).
Proof.
  unfold und_adj. rewrite in_app_iff, pred_in. split.
  - intros [H|[d H]]; [destruct (succ_in _ _ _ H) as [d Hd]|]; eauto.
  - intros [d [H|H]]; [left; apply in_succ|right]; eauto.
Qed.

Lemma und_adj_ends g u w : In w (und_adj g u) -> In w (edge_ends g).
Proof.
  rewrite und_adj_in. intros [d [H|H]]; unfold edge_ends; apply in_flat_map;
    eexists; (split; [exact H|]); simpl; auto.
Qed.

Lemma und_reach_trans g x y z : und_reach g x y -> und_reach g y z -> und_reach g x z.
Proof. intros H1 H2. induction H2; [exact H1|]. eapply ur_step; eauto. Qed.

Lemma und_reach_sym g x y : und_reach g x y -> und_reach g y x.
Proof.
  induction 1 as [|u w d Hr IH He]; [constructor|].
  apply (und_reach_trans g w u x); [|exact IH].
  apply (ur_step g w w u d (ur_refl g w)). tauto.
Qed.

Lemma closed_reach g c x y : adj_closed g c -> In x c -> und_reach g x y -> In y c.
Proof.
  intros Hc Hx. induction 1 as [|u w d Hr IH He]; [exact Hx|].
  apply (Hc u w IH). apply und_adj_in. eauto.
Qed.

Lemma reach_node g x y :
  graph_wf g -> has_node g x = true -> und_reach g x y -> has_node g y = true.
Proof.
  intros [_ Hwf] Hx. induction 1 as [|u w d Hr IH He]; [exact Hx|].
  destruct He as [He|He]; apply Hwf in He; tauto.
Qed.

Lemma visit_fold ws S N S' N' :
  fold_left bfs_visit ws (S, N) = (S', N') ->
  exists new, S' = S ++ new /\ N' = N ++ new /\ (NoDup S -> NoDup S') /\
    (forall x, In x new -> In x ws) /\ (forall w, In w ws -> In w S').
Proof.
  revert S N. induction ws as [|w ws IH]; intros S N H; simpl in H.
  - inversion H; subst. exists []. rewrite !app_nil_r. repeat split; auto; intros x [].
  - destruct (mem w S) eqn:M.
    + destruct (IH S N H) as (new & -> & -> & Hnd & Hnew & Hall).
      exists new. repeat split; auto.
      * intros x Hx. right. now apply Hnew.
      * intros w' [<-|Hw']; [|now apply Hall]. apply in_or_app. left. now apply mem_in.
    + destruct (IH (S ++ [w]) (N ++ [w]) H) as (new & -> & -> & Hnd & Hnew & Hall).
      exists (w :: new).
      replace (S ++ w :: new) with ((S ++ [w]) ++ new) by (now rewrite <- app_assoc).
      replace (N ++ w :: new) with ((N ++ [w]) ++ new) by (now rewrite <- app_assoc).
      repeat split; auto.
      * intro HS. apply Hnd. apply NoDup_app; auto; [repeat constructor; intros []|].
        intros y Hy [<-|[]]. apply (mem_false_not_in _ _ M Hy).
      * intros x [<-|Hx]; [now left|right; now apply Hnew].
      * intros w' [<-|Hw']; [|now apply Hall].
        apply in_or_app. left. apply in_or_app. right. now left.
Qed.

Lemma bfs_level_spec g n T S N b S' N' :
  bfs_level g n T S N = (b, S', N') ->
  exists new, S' = S ++ new /\ N' = N ++ new /\ (NoDup S -> NoDup S') /\
    (forall x, In x new -> exists v, In v T /\ In x (und_adj g v)) /\
    (b = true -> length S' = n) /\
    (b = false -> incl T S ->
     (forall x, In x S -> In x T \/ In x N \/ forall w, In w (und_adj g x) -> In w S) ->
     forall x, In x S' -> In x N' \/ forall w, In w (und_adj g x) -> In w S').
Proof.
  revert S N. induction T as [|v T IH]; intros S N H; simpl in H.
  - inversion H; subst. exists []. rewrite !app_nil_r.
    repeat split; auto; [intros x []|discriminate|].
    intros _ _ Hinv x Hx. destruct (Hinv x Hx) as [[]|[H1|H1]]; auto.
  - destruct (fold_left bfs_visit (und_adj g v) (S, N)) as [S1 N1] eqn:Ef.
    destruct (visit_fold _ _ _ _ _ Ef) as (new1 & -> & -> & Hnd1 & Hnew1 & Hall1).
    destruct (Nat.eqb (length (S ++ new1)) n) eqn:En.
    + inversion H; subst. exists new1. repeat split; auto.
      * intros x Hx. exists v. split; [now left|now apply Hnew1].
      * intros _. now apply Nat.eqb_eq.
      * discriminate.
    + destruct (IH _ _ H) as (new2 & -> & -> & Hnd2 & Hnew2 & Htrue & Hfalse).
      exists (new1 ++ new2). rewrite !app_assoc. split; [reflexivity|split; [reflexivity|]].
      split; [intro HS; apply Hnd2, Hnd1, HS|]. split; [|split; [exact Htrue|]].
      * intros x Hx. apply in_app_iff in Hx. destruct Hx as [Hx|Hx].
        -- exists v. split; [now left|now apply Hnew1].
        -- destruct (Hnew2 x Hx) as [v' [Hv' Hx']]. exists v'. split; [now right|exact Hx'].
      * intros Hb Hincl Hinv. apply Hfalse; [exact Hb| |].
        -- intros y Hy. apply in_or_app. left. apply Hincl. now right.
        -- intros x Hx. apply in_app_iff in Hx. destruct Hx as [Hx|Hx].
           ++ destruct (Hinv x Hx) as [[<-|H1]|[H1|H1]].
              ** right. right. exact Hall1.
              ** now left.
              ** right. left. apply in_or_app. now left.
              ** right. right. intros w Hw. apply in_or_app. left. now apply H1.
           ++ right. left. apply in_or_app. now right.
Qed.

Lemma plain_bfs_loop_spec g n src U fuel next seen :
  NoDup seen -> incl next seen -> In src seen ->
  (forall x, In x seen -> und_reach g src x) ->
  (forall x, In x seen -> In x next \/ forall w, In w (und_adj g x) -> In w seen) ->
  incl seen U -> (forall v w, In w (und_adj g v) -> In w U) ->
  (next <> [] -> length U < length seen + fuel)%nat ->
  let R := plain_bfs_loop g n fuel next seen in
  NoDup R /\ incl seen R /\ (forall x, In x R -> und_reach g src x) /\
  ((forall x w, In x R -> In w (und_adj g x) -> In w R) \/ length R = n).
Proof.
  revert next seen. induction fuel as [|fuel IH];
    intros next seen Hnd Hnext Hsrc Hreach Hinv HU HadjU Hfuel R.
  - destruct next as [|v next].
    + subst R. simpl. repeat split; auto; [intros x y; auto|]. left.
      intros x w Hx. destruct (Hinv x Hx) as [[]|H]; auto.
    + exfalso. assert (Hl := NoDup_incl_length Hnd HU).
      specialize (Hfuel ltac:(discriminate)). lia.
  - subst R. destruct next as [|v next].
    + simpl. repeat split; auto; [intros x y; auto|]. left.
      intros x w Hx. destruct (Hinv x Hx) as [[]|H]; auto.
    + cbn [plain_bfs_loop].
      destruct (bfs_level g n (v :: next) seen []) as [[b S'] N'] eqn:E.
      destruct (bfs_level_spec _ _ _ _ _ _ _ _ E)
        as (new & -> & HN' & Hnd' & Hnew & Htrue & Hfalse).
      simpl in HN'. subst N'.
      assert (Hr' : forall x, In x (seen ++ new) -> und_reach g src x).
      { intros x Hx. apply in_app_iff in Hx. destruct Hx as [Hx|Hx]; [now apply Hreach|].
        destruct (Hnew x Hx) as [u [Hu Hxu]]. apply und_adj_in in Hxu. destruct Hxu as [d Hd].
        exact (ur_step g src u x d (Hreach u (Hnext u Hu)) Hd). }
      destruct b.
      * repeat split; auto.
        -- intros x Hx. apply in_or_app. now left.
      * assert (Hc := Hfalse eq_refl Hnext
                        ltac:(intros x Hx; destruct (Hinv x Hx); auto)).
        destruct (IH new (seen ++ new)) as (H1 & H2 & H3 & H4); auto.
        -- intros x Hx. apply in_or_app. now right.
        -- apply in_or_app. now left.
        -- intros x Hx. apply in_app_iff in Hx. destruct Hx as [Hx|Hx]; [now apply HU|].
           destruct (Hnew x Hx) as [u [_ Hxu]]. exact (HadjU u x Hxu).
        -- intros Hne. rewrite length_app.
           destruct new as [|y new]; [congruence|]. simpl.
           specialize (Hfuel ltac:(discriminate)). lia.
        -- split; [exact H1|split; [|split; [exact H3|exact H4]]].
           intros x Hx. apply H2. apply in_or_app. now left.
Qed.

Lemma plain_bfs_spec g src :
  let R := plain_bfs g src in
  NoDup R /\ In src R /\ (forall x, In x R -> und_reach g src x) /\
  (graph_wf g -> has_node g src = true -> adj_closed g R).
Proof.
  intro R.
  destruct (plain_bfs_loop_spec g (length (node_ids g)) src (src :: edge_ends g)
              (S (2 * length (g_edges g))) [src] [src]) as (H1 & H2 & H3 & H4).
  - repeat constructor. intros [].
  - intros x Hx; exact Hx.
  - now left.
  - intros x [<-|[]]. constructor.
  - intros x Hx. now left.
  - intros x [<-|[]]. now left.
  - intros v w Hw. right. exact (und_adj_ends g v w Hw).
  - intros _. simpl. unfold edge_ends.
    assert (E : forall l : list (string * string * edge_attrs),
               length (flat_map (fun e => match e with (u, v, _) => [u; v] end) l) = (2 * length l)%nat).
    { induction l as [|[[u v] d] l IHl]; simpl; [reflexivity|]. rewrite IHl. lia. }
    rewrite E. lia.
  - fold R in H1, H2, H3, H4. split; [exact H1|split; [apply H2; now left|split; [exact H3|]]].
    intros Hwf Hsrc.
    assert (Hnodes : incl R (node_ids g)).
    { intros x Hx. apply has_node_in. exact (reach_node g src x Hwf Hsrc (H3 x Hx)). }
    destruct H4 as [H4|H4]; [exact H4|].
    intros x w Hx Hw.
    assert (Hall : incl (node_ids g) R)
      by (apply (NoDup_length_incl H1); [lia|exact Hnodes]).
    apply Hall, has_node_in.
    apply und_adj_in in Hw. destruct Hw as [d [Hd|Hd]]; apply (proj2 Hwf) in Hd; tauto.
Qed.

Lemma adj_closed_union g a b : adj_closed g a -> adj_closed g b -> adj_closed g (set_union a b).
Proof.
  intros Ha Hb x w Hx Hw. apply set_union_in in Hx. apply set_union_in.
  destruct Hx as [Hx|Hx]; [left; exact (Ha x w Hx Hw)|right; exact (Hb x w Hx Hw)].
Qed.

Lemma components_from_spec g vs seen :
  graph_wf g -> (forall v, In v vs -> has_node g v = true) -> adj_closed g seen ->
  let cs := components_from g vs seen in
  (forall c, In c cs -> NoDup c /\ adj_closed g c /\
     (forall x y, In x c -> In y c -> und_reach g x y) /\ (forall x, In x c -> ~ In x seen) /\
     (forall x, In x c -> has_node g x = true)) /\
  ForallOrdPairs (fun c1 c2 => forall x, In x c1 -> ~ In x c2) cs /\
  (forall v, In v vs -> In v seen \/ exists c, In c cs /\ In v c).
Proof.
  intros Hwf. revert seen. induction vs as [|v vs IH]; intros seen Hvs Hseen cs; subst cs; simpl.
  - split; [intros c []|split; [constructor|intros v []]].
  - destruct (mem v seen) eqn:M.
    + destruct (IH seen (fun x Hx => Hvs x (or_intror Hx)) Hseen) as (H1 & H2 & H3).
      split; [exact H1|split; [exact H2|]].
      intros x [<-|Hx]; [left; now apply mem_in|now apply H3].
    + destruct (plain_bfs_spec g v) as (P1 & P2 & P3 & P4).
      specialize (P4 Hwf (Hvs v (or_introl eq_refl))).
      assert (Hnot : forall x, In x (plain_bfs g v) -> ~ In x seen).
      { intros x Hx Hs. apply (mem_false_not_in _ _ M).
        exact (closed_reach g seen x v Hseen Hs (und_reach_sym g v x (P3 x Hx))). }
      destruct (IH (set_union seen (plain_bfs g v)) (fun x Hx => Hvs x (or_intror Hx))
                  (adj_closed_union g _ _ Hseen P4)) as (H1 & H2 & H3).
      split; [|split].
      * intros c [<-|Hc].
        -- split; [exact P1|split; [exact P4|split; [|split; [exact Hnot|]]]].
           ++ intros x y Hx Hy.
              exact (und_reach_trans g x v y (und_reach_sym g v x (P3 x Hx)) (P3 y Hy)).
           ++ intros x Hx. exact (reach_node g v x Hwf (Hvs v (or_introl eq_refl)) (P3 x Hx)).
        -- destruct (H1 c Hc) as (Q1 & Q2 & Q3 & Q4 & Q5).
           split; [exact Q1|split; [exact Q2|split; [exact Q3|split; [|exact Q5]]]].
           intros x Hx Hs. apply (Q4 x Hx). apply set_union_in. now left.
      * constructor; [|exact H2]. apply Forall_forall. intros c Hc x Hx Hxc.
        apply (proj1 (proj2 (proj2 (proj2 (H1 c Hc)))) x Hxc). apply set_union_in. now right.
      * intros x [<-|Hx].
        -- right. exists (plain_bfs g v). split; [now left|exact P2].
        -- destruct (H3 x Hx) as [Hs|Hc]; [|right; destruct Hc as [c [Hc Hxc]]; exists c; split; [now right|exact Hxc]].
           apply set_union_in in Hs. destruct Hs as [Hs|Hs]; [now left|].
           right. exists (plain_bfs g v). split; [now left|exact Hs].
Qed.

Section NumberComponents.
Variable set_iter : list string -> list string.

Lemma number_components_in i cs k l :
  In (k, l) (number_components set_iter i cs) ->
  (i <= k)%Z /\ exists c, In c cs /\ l = set_iter c /\ (1 < length c)%nat.
Proof.
  revert i. induction cs as [|c cs IH]; intros i H; simpl in H; [destruct H|].
  destruct (Nat.ltb 1 (length c)) eqn:E.
  - destruct H as [H|H].
    + inversion H; subst. split; [lia|]. exists c. split; [now left|split; [reflexivity|]].
      now apply Nat.ltb_lt.
    + destruct (IH _ H) as [Hk [c' [Hc' Hl]]]. split; [lia|]. exists c'. split; [now right|exact Hl].
  - destruct (IH _ H) as [Hk [c' [Hc' Hl]]]. split; [lia|]. exists c'. split; [now right|exact Hl].
Qed.

Lemma number_components_keys i cs : NoDup (map fst (number_components set_iter i cs)).
Proof.
  revert i. induction cs as [|c cs IH]; intro i; simpl; [constructor|].
  destruct (Nat.ltb 1 (length c)); [|apply IH]. simpl. constructor; [|apply IH].
  intro Hin. apply in_map_iff in Hin. destruct Hin as [[k l] [Hk Hin]]. simpl in Hk. subst k.
  apply number_components_in in Hin. lia.
Qed.

Lemma number_components_kept i cs c :
  In c cs -> (1 < length c)%nat -> exists k, In (k, set_iter c) (number_components set_iter i cs).
Proof.
  revert i. induction cs as [|c' cs IH]; intros i Hc Hl; [destruct Hc|]. simpl.
  destruct Hc as [<-|Hc].
  - apply Nat.ltb_lt in Hl. rewrite Hl. exists i. now left.
  - destruct (IH (i + 1)%Z Hc Hl) as [k Hk].
    exists k. destruct (Nat.ltb 1 (length c')); [now right|exact Hk].
Qed.

Lemma number_components_disjoint i cs :
  ForallOrdPairs (fun c1 c2 => forall x, In x c1 -> ~ In x c2) cs ->
  (forall l, Permutation (set_iter l) l) ->
  forall k1 l1 k2 l2 x, In (k1, l1) (number_components set_iter i cs) ->
    In (k2, l2) (number_components set_iter i cs) -> k1 <> k2 -> In x l1 -> ~ In x l2.
Proof.
  intros Hd Hperm. revert i. induction Hd as [|c cs Hhd Htl IH]; intros i k1 l1 k2 l2 x H1 H2 Hne Hx;
    simpl in H1, H2; [destruct H1|].
  assert (Hout : forall c', In c' cs -> forall y, In y (set_iter c) -> ~ In y (set_iter c')).
  { intros c' Hc' y Hy Hy'. rewrite Forall_forall in Hhd.
    apply (Hhd c' Hc' y); eapply Permutation_in; eauto. }
  destruct (Nat.ltb 1 (length c)).
  - destruct H1 as [H1|H1]; destruct H2 as [H2|H2].
    + inversion H1; inversion H2; subst. contradiction.
    + inversion H1; subst. destruct (number_components_in _ _ _ _ H2) as [_ [c' [Hc' [-> _]]]].
      exact (Hout c' Hc' x Hx).
    + inversion H2; subst. destruct (number_components_in _ _ _ _ H1) as [_ [c' [Hc' [-> _]]]].
      intro Hx'. exact (Hout c' Hc' x Hx' Hx).
    + exact (IH _ _ _ _ _ _ H1 H2 Hne Hx).
  - exact (IH _ _ _ _ _ _ H1 H2 Hne Hx).
Qed.
End NumberComponents.

Lemma nodup_two {X} (c : list X) x y : NoDup c -> In x c -> In y c -> x <> y -> (1 < length c)%nat.
Proof.
  intros Hnd Hx Hy Hne. destruct c as [|a [|b c]]; simpl; try lia; [destruct Hx|].
  destruct Hx as [<-|[]]; destruct Hy as [<-|[]]. congruence.
Qed.

(** X20: without the Louvain package, [get_lens_clusters] reports connected
    components of the undirected graph: each cluster lists at least two
    distinct nodes, contains every node joined by an edge (either way) to
    one of its members, and any two of its members are joined by a chain
    of such edges. *)
Theorem clusters_are_components set_iter g k cl :
  graph_wf g -> (forall l, Permutation (set_iter l) l) ->
  In (k, cl) (get_lens_clusters set_iter None g) ->
  (2 <= length cl)%nat /\ NoDup cl /\ (forall x, In x cl -> has_node g x = true) /\
  (forall x w d, In x cl -> In (x, w, d) (g_edges g) \/ In (w, x, d) (g_edges g) -> In w cl) /\
  (forall x y, In x cl -> In y cl -> und_reach g x y).
Proof.
  intros Hwf Hperm H. simpl in H. unfold connected_components in H.
  destruct (number_components_in _ _ _ _ _ H) as [_ [c [Hc [-> Hl]]]].
  destruct (components_from_spec g (node_ids g) [] Hwf
              (fun v Hv => proj2 (has_node_in g v) Hv) ltac:(intros x w [])) as (H1 & _ & _).
  destruct (H1 c Hc) as (Q1 & Q2 & Q3 & _ & Q5).
  assert (Hin : forall x, In x (set_iter c) <-> In x c)
    by (intro x; split; apply Permutation_in; [|symmetry]; apply Hperm).
  split; [rewrite (Permutation_length (Hperm c)); lia|].
  split; [exact (Permutation_NoDup (Permutation_sym (Hperm c)) Q1)|].
  split; [|split].
  - intros x Hx. apply Q5, Hin, Hx.
  - intros x w d Hx Hd. apply Hin. apply (Q2 x w (proj1 (Hin x) Hx)). apply und_adj_in. eauto.
  - intros x y Hx Hy. apply Q3; now apply Hin.
Qed.

(** X21: the fallback clusters have distinct keys, no node lies in two of
    them, and the two ends of every edge between distinct nodes lie in the
    same cluster. *)
Theorem clusters_partition_edges set_iter g :
  graph_wf g -> (forall l, Permutation (set_iter l) l) ->
  let cl := get_lens_clusters set_iter None g in
  NoDup (map fst cl) /\
  (forall i j ci cj x, In (i, ci) cl -> In (j, cj) cl -> i <> j -> In x ci -> ~ In x cj) /\
  (forall u w d, In (u, w, d) (g_edges g) -> u <> w ->
     exists k c, In (k, c) cl /\ In u c /\ In w c).
Proof.
  intros Hwf Hperm cl. subst cl. simpl. unfold connected_components.
  destruct (components_from_spec g (node_ids g) [] Hwf
              (fun v Hv => proj2 (has_node_in g v) Hv) ltac:(intros x w [])) as (H1 & H2 & H3).
  split; [apply number_components_keys|split].
  - intros i j ci cj x Hi Hj Hne Hx. exact (number_components_disjoint _ _ _ H2 Hperm _ _ _ _ _ Hi Hj Hne Hx).
  - intros u w d Hd Hne.
    assert (Hu : In u (node_ids g)) by (apply has_node_in; exact (proj1 (proj2 Hwf u w d Hd))).
    destruct (H3 u Hu) as [[]|[c [Hc Huc]]].
    destruct (H1 c Hc) as (Q1 & Q2 & _ & _ & _).
    assert (Hwc : In w c) by (apply (Q2 u w Huc); apply und_adj_in; eauto).
    destruct (number_components_kept set_iter 0 _ c Hc (nodup_two c u w Q1 Huc Hwc Hne)) as [k Hk].
    exists k, (set_iter c). split; [exact Hk|].
    split; eapply Permutation_in; (try (symmetry; apply Hperm)); assumption.
Qed.

Lemma graph_wf_chain : graph_wf g_chain.
Proof.
  split.
  - vm_compute. repeat constructor; simpl; intuition discriminate.
  - intros u v d H. vm_compute in H.
    repeat (destruct H as [H|H]; [inversion H; subst; split; reflexivity|]). destruct H.
Qed.

Lemma clusters_are_components_witness :
  graph_wf g_chain /\ (forall l : list string, Permutation ((fun l0 => l0) l) l) /\
  In (0%Z, ["A"; "B"; "C"]) (get_lens_clusters (fun l => l) None g_chain) /\
  (2 <= length ["A"; "B"; "C"])%nat /\ NoDup ["A"; "B"; "C"] /\
  (forall x, In x ["A"; "B"; "C"] -> has_node g_chain x = true) /\
  (forall x w d, In x ["A"; "B"; "C"] -> In (x, w, d) (g_edges g_chain) \/ In (w, x, d) (g_edges g_chain) ->
     In w ["A"; "B"; "C"]) /\
  (forall x y, In x ["A"; "B"; "C"] -> In y ["A"; "B"; "C"] -> und_reach g_chain x y).
Proof.
  assert (Hp : forall l : list string, Permutation ((fun l0 => l0) l) l)
    by (intro l; apply Permutation_refl).
  assert (H : In (0%Z, ["A"; "B"; "C"]) (get_lens_clusters (fun l => l) None g_chain))
    by (vm_compute; left; reflexivity).
  split; [exact graph_wf_chain|split; [exact Hp|split; [exact H|]]].
  exact (clusters_are_components (fun l => l) g_chain _ _ graph_wf_chain Hp H).
Defined.

Lemma clusters_partition_edges_witness :
  graph_wf g_chain /\ (forall l : list string, Permutation ((fun l0 => l0) l) l) /\
  let cl := get_lens_clusters (fun l => l) None g_chain in
  NoDup (map fst cl) /\
  (forall i j ci cj x, In (i, ci) cl -> In (j, cj) cl -> i <> j -> In x ci -> ~ In x cj) /\
  (forall u w d, In (u, w, d) (g_edges g_chain) -> u <> w ->
     exists k c, In (k, c) cl /\ In u c /\ In w c).
Proof.
  assert (Hp : forall l : list string, Permutation ((fun l0 => l0) l) l)
    by (intro l; apply Permutation_refl).
  split; [exact graph_wf_chain|split; [exact Hp|]].
  exact (clusters_partition_edges (fun l => l) g_chain graph_wf_chain Hp).
Defined.

(** ** [get_lens_clusters]: grouping a Louvain partition *)

Lemma assoc_append_members (k : Z) x d c v :
  (exists l, In (c, l) (assoc_append Z.eqb k x d) /\ In v l) <->
  (v = x /\ c = k) \/ (exists l, In (c, l) d /\ In v l).
Proof.
  induction d as [|[k0 xs] d IH]; simpl.
  - split.
    + intros [l [[H|[]] Hv]]. inversion H; subst. destruct Hv as [<-|[]]. now left.
    + intros [[-> ->]|[l [[] _]]]. exists [x]. split; [now left|now left].
  - destruct (Z.eqb k0 k) eqn:E.
    + apply Z.eqb_eq in E. subst k0. split.
      * intros [l [[H|H] Hv]].
        -- inversion H; subst. apply in_app_or in Hv. destruct Hv as [Hv|[<-|[]]].
           ++ right. exists xs. split; [now left|exact Hv].
           ++ now left.
        -- right. exists l. split; [now right|exact Hv].
      * intros [[-> ->]|[l [[H|H] Hv]]].
        -- exists (xs ++ [x]). split; [now left|]. apply in_or_app. right. now left.
        -- inversion H; subst. exists (l ++ [x]). split; [now left|].
           apply in_or_app. now left.
        -- exists l. split; [now right|exact Hv].
    + split.
      * intros [l [[H|H] Hv]].
        -- inversion H; subst. right. exists l. split; [now left|exact Hv].
        -- destruct (proj1 IH (ex_intro _ l (conj H Hv))) as [H1|[l' [H1 H2]]]; [now left|].
           right. exists l'. split; [now right|exact H2].
      * intros [H1|[l [[H|H] Hv]]].
        -- destruct (proj2 IH (or_introl H1)) as [l [H2 H3]]. exists l. split; [now right|exact H3].
        -- inversion H; subst. exists l. split; [now left|exact Hv].
        -- destruct (proj2 IH (or_intror (ex_intro _ l (conj H Hv)))) as [l' [H2 H3]].
           exists l'. split; [now right|exact H3].
Qed.

Lemma assoc_append_keys (k : Z) x d :
  map fst (assoc_append Z.eqb k x d) = map fst d \/
  (map fst (assoc_append Z.eqb k x d) = map fst d ++ [k] /\ ~ In k (map fst d)).
Proof.
  induction d as [|[k0 xs] d IH]; simpl; [right; split; [reflexivity|intros []]|].
  destruct (Z.eqb k0 k) eqn:E; simpl; [now left|].
  apply Z.eqb_neq in E. destruct IH as [-> |[-> Hn]]; [now left|right].
  split; [reflexivity|]. intros [H|H]; [congruence|contradiction].
Qed.

Lemma assoc_append_nodup (k : Z) x d :
  NoDup (map fst d) -> NoDup (map fst (assoc_append Z.eqb k x d)).
Proof.
  intro H. destruct (assoc_append_keys k x d) as [->|[-> Hn]]; [exact H|].
  apply NoDup_app; auto; [repeat constructor; intros []|]. intros y Hy [<-|[]]. contradiction.
Qed.

(** X22: with the Louvain package, [get_lens_clusters] groups the partition
    by community: each community id is a key once, a lens is listed under
    a community exactly when the partition assigns it there, and the
    cluster lists together hold the partition's lenses, each as often as
    the partition lists it. *)
Theorem louvain_clusters_group set_iter best_partition g :
  let part := best_partition g in
  let cl := get_lens_clusters set_iter (Some best_partition) g in
  NoDup (map fst cl) /\
  (forall v c, In (v, c) part <-> exists l, In (c, l) cl /\ In v l) /\
  Permutation (concat (map snd cl)) (map fst part).
Proof.
  intros part cl. subst cl. simpl. fold part.
  induction part as [|[v0 c0] part IH] using rev_ind; simpl.
  - split; [constructor|split; [intros v c; split; [intros []|intros [l [[] _]]]|constructor]].
  - rewrite fold_left_app. simpl.
    destruct IH as (H1 & H2 & H3).
    split; [apply assoc_append_nodup, H1|split].
    + intros v c. rewrite assoc_append_members, <- H2, in_app_iff. simpl.
      split; [intros [H|[H|[]]]; [now right|left; inversion H; now subst]|].
      intros [[-> ->]|H]; [now right; left|now left].
    + eapply perm_trans; [apply concat_assoc_append|].
      rewrite map_app. simpl. eapply perm_trans; [|apply Permutation_cons_append].
      now apply perm_skip.
Qed.
